(** * SigMontion: signature tracing and motion planning

    A shallow embedding of [services/localTracer.ts],
    [services/motionPlanner.ts] and the plan handling of
    [services/animationEngine.ts], with the properties stated for them.

    Numbers.  The tracer works on integer coordinates (every coordinate it
    stores went through [Math.round]) and on quotients of integers, so its
    numbers are modelled as [Z] and [Q].  Square roots, arc cosines and the
    trigonometric functions of the planner and of the ordering score are
    modelled in [R].  IEEE rounding and the infinities are not modelled; the
    one non-number that the planner can produce, [NaN], is. *)

From Stdlib Require Import ZArith QArith Qround Qabs Qminmax Reals Lra Lia Psatz.
From Stdlib Require Lqa.
From stdpp Require Import base list.

Close Scope Q_scope.
Close Scope R_scope.

(** ** Shared data types ([types.ts]) *)

(** [RawPoint]: [x], [y] are integers on the 0..10000 scale; [z] (thickness)
    and [a] (opacity) are optional. *)
Record RawPoint := mkRawPoint {
  px : Z;
  py : Z;
  pz : option Q;
  pa : option Q
}.

(** [Stroke]: only [points] is ever set by the code modelled here. *)
Record Stroke := mkStroke { points : list RawPoint }.

(** [SignatureAnalysis]; the free-text [metadata.notes] is left out. *)
Record SignatureAnalysis := mkAnalysis {
  strokes : list Stroke;
  original_size : Z * Z
}.

(** ** The motion planner ([motionPlanner.ts]) *)

Module Planner.
Local Open Scope R_scope.

(** A JavaScript number of the planner: a real, or [NaN]. *)
Inductive jsnum := Fin (r : R) | NaN.

Definition jadd (a b : jsnum) : jsnum :=
  match a, b with Fin u, Fin v => Fin (u + v) | _, _ => NaN end.

Definition jmul (a b : jsnum) : jsnum :=
  match a, b with Fin u, Fin v => Fin (u * v) | _, _ => NaN end.

(** [Math.max]: [NaN] as soon as one argument is. *)
Definition jmax (a b : jsnum) : jsnum :=
  match a, b with Fin u, Fin v => Fin (Rmax u v) | _, _ => NaN end.

Definition jmap (f : R -> R) (a : jsnum) : jsnum :=
  match a with Fin u => Fin (f u) | NaN => NaN end.

(** Reading a property that may be missing and using it as a number:
    [undefined] becomes [NaN] in arithmetic. *)
Definition toNumber (v : option R) : jsnum :=
  match v with Some r => Fin r | None => NaN end.

Definition Rgtb (u v : R) : bool := if Rgt_dec u v then true else false.

(** [v > 0] for a property that may be missing ([undefined > 0] is false). *)
Definition gt0 (v : option R) : bool :=
  match v with Some r => Rgtb r 0 | None => false end.

(** [v || 1]: the fallback is taken for [undefined] and for [0]. *)
Definition orOne (v : option R) : R :=
  match v with
  | Some r => if Req_dec_T r 0 then 1 else r
  | None => 1
  end.


(** A style object as it exists at run time, where any property may be
    missing. *)
Record StyleObject := mkStyleObject {
  so_base_ms_per_px : option R;
  so_pressure_scale : option R;
  so_micro_tremor_amp_px : option R;
  so_micro_tremor_freq_hz : option R;
  so_inertia_factor : option R
}.



Record PhysicsPoint := mkPhysicsPoint {
  x : jsnum;
  y : jsnum;
  time : jsnum;
  lineWidth : R;
  opacity : R
}.

Record StrokePath := mkStrokePath {
  id : nat;
  path_points : list PhysicsPoint;
  startTime : jsnum;
  endTime : jsnum
}.

(** A point mapped to canvas pixels. *)
Record MappedPoint := mkMapped {
  mx : R;
  my : R;
  mz : option R;
  ma : option R
}.

Definition dist (p1 p2 : R * R) : R :=
  let dx := p1.1 - p2.1 in
  let dy := p1.2 - p2.2 in
  sqrt (dx * dx + dy * dy).

Definition xy (p : MappedPoint) : R * R := (mx p, my p).

(** The loop of [filterRedundantPoints]: [prev] is the last element of
    [result]; the value is what the loop appends to [result]. *)
Fixpoint filterLoop (prev : MappedPoint) (rest : list MappedPoint)
  : list MappedPoint :=
  match rest with
  | [] => []
  | curr :: rest' =>
      let d2 := (mx curr - mx prev) ^ 2 + (my curr - my prev) ^ 2 in
      if Rgt_dec d2 0.1 then curr :: filterLoop curr rest'
      else filterLoop prev rest'
  end.

Definition filterRedundantPoints (pts : list MappedPoint) : list MappedPoint :=
  match pts with
  | [] | [_] => pts
  | p0 :: rest =>
      let result := p0 :: filterLoop p0 rest in
      let lastSrc := List.last pts p0 in
      let lastRes := List.last result p0 in
      if Req_dec_T (mx lastRes) (mx lastSrc) then
        if Req_dec_T (my lastRes) (my lastSrc) then result
        else result ++ [lastSrc]
      else result ++ [lastSrc]
  end.

Definition SCALE_FACTOR : R := 10000.

Section Plan.

Variables canvasWidth canvasHeight : R.
Variable style : option StyleObject.

Definition baseMsPerPx : jsnum :=
  match style with Some s => toNumber (so_base_ms_per_px s) | None => Fin 1.2 end.

Definition baseWidthScale : R :=
  match style with Some s => orOne (so_pressure_scale s) | None => 1 end.

Definition fallbackWidth : R := 1.5 * baseWidthScale.

Definition inertia : option R :=
  match style with Some s => so_inertia_factor s | None => Some 0 end.

Definition tremorAmp : option R :=
  match style with Some s => so_micro_tremor_amp_px s | None => Some 0 end.

Definition tremorFreq : option R :=
  match style with Some s => so_micro_tremor_freq_hz s | None => Some 0 end.

Definition mapPoint (p : RawPoint) : MappedPoint :=
  {| mx := (IZR (px p) / SCALE_FACTOR) * canvasWidth;
     my := (IZR (py p) / SCALE_FACTOR) * canvasHeight;
     mz := Q2R <$> pz p;
     ma := Q2R <$> pa p |}.

(** Pen lift: the time added to the clock before a stroke that starts at
    distance [d] from the end of the previous one. *)
Definition liftTime (d : R) : R := Rmin (d * 0.5) 250 + 50.

Definition penLift (prevEndPos : option (R * R)) (first : MappedPoint)
  (currentTime : jsnum) : jsnum :=
  match prevEndPos with
  | Some q =>
      let d := dist (xy first) q in
      if Rgt_dec d 30 then jadd currentTime (Fin (liftTime d)) else currentTime
  | None => currentTime
  end.

(** Tremor displacement at clock [t]; [(0, 0)] unless both amplitude and
    frequency are positive. *)
Definition tremor (t : jsnum) : jsnum * jsnum :=
  match tremorAmp, tremorFreq with
  | Some amp, Some freq =>
      if gt0 tremorAmp && gt0 tremorFreq then
        (jmap (fun c => amp * sin (c / 1000 * freq * PI * 2)) t,
         jmap (fun c => amp * cos (c / 1000 * freq * PI * 2)) t)
      else (Fin 0, Fin 0)
  | _, _ => (Fin 0, Fin 0)
  end.

Definition pointWidth (p : MappedPoint) : R :=
  match mz p with
  | Some z => (z / SCALE_FACTOR) * canvasWidth * baseWidthScale
  | None => fallbackWidth
  end.

Definition pointOpacity (p : MappedPoint) : R :=
  match ma p with Some a => a | None => 1 end.

(** Speed modulation for the segment [prev -> p]; [prevPrev] is present
    from the third point on ([i > 1]). *)
Definition speedPenalty (prevPrev : option MappedPoint) (prev p : MappedPoint) : R :=
  match prevPrev, inertia with
  | Some pp, Some k =>
      if gt0 inertia then
        let v1x := mx prev - mx pp in
        let v1y := my prev - my pp in
        let v2x := mx p - mx prev in
        let v2y := my p - my prev in
        let mag1 := sqrt (v1x * v1x + v1y * v1y) in
        let mag2 := sqrt (v2x * v2x + v2y * v2y) in
        if Rgtb mag1 0.001 && Rgtb mag2 0.001 then
          let dot := v1x * v2x + v1y * v2y in
          let cosTheta := Rmax (-1) (Rmin 1 (dot / (mag1 * mag2))) in
          1 + acos cosTheta * k
        else 1
      else 1
  | _, _ => 1
  end.

Definition segmentTime (prevPrev : option MappedPoint) (prev p : MappedPoint) : jsnum :=
  jmax (Fin 0.01)
       (jmul (jmul (Fin (dist (xy p) (xy prev))) baseMsPerPx)
             (Fin (speedPenalty prevPrev prev p))).

Definition physicsPoint (p : MappedPoint) (t : jsnum) : PhysicsPoint :=
  let '(tx, ty) := tremor t in
  {| x := jadd (Fin (mx p)) tx;
     y := jadd (Fin (my p)) ty;
     time := t;
     lineWidth := pointWidth p;
     opacity := pointOpacity p |}.

(** The traversal loop from index 1 on: [prev] is [processedPoints[i-1]],
    [prevPrev] is [processedPoints[i-2]] when [i > 1].  Returns the points
    pushed and the clock at the end. *)
Fixpoint traverse (prevPrev : option MappedPoint) (prev : MappedPoint)
  (rest : list MappedPoint) (currentTime : jsnum)
  : list PhysicsPoint * jsnum :=
  match rest with
  | [] => ([], currentTime)
  | p :: rest' =>
      let t := jadd currentTime (segmentTime prevPrev prev p) in
      let '(pts, tEnd) := traverse (Some prev) p rest' t in
      (physicsPoint p t :: pts, tEnd)
  end.

(** The state threaded through [data.strokes.forEach]. *)
Record PlanState := mkPlanState {
  paths : list StrokePath;
  currentTime : jsnum;
  prevEndPos : option (R * R)
}.

Definition processedPoints (stroke : Stroke) : list MappedPoint :=
  filterRedundantPoints (mapPoint <$> points stroke).

(** One call of the [forEach] callback. *)
Definition planStroke (st : PlanState) (index : nat) (stroke : Stroke) : PlanState :=
  let rawPoints := points stroke in
  if (length rawPoints <? 2)%nat then st
  else
    match processedPoints stroke with
    | [] => st
    | p0 :: rest =>
        let start := penLift (prevEndPos st) p0 (currentTime st) in
        let '(pts, tEnd) := traverse None p0 rest start in
        {| paths := paths st ++
             [ {| id := index;
                  path_points := physicsPoint p0 start :: pts;
                  startTime := start;
                  endTime := tEnd |} ];
           currentTime := tEnd;
           prevEndPos := Some (xy (List.last rest p0)) |}
    end.

Fixpoint planStrokes (st : PlanState) (index : nat) (ss : list Stroke) : PlanState :=
  match ss with
  | [] => st
  | s :: ss' => planStrokes (planStroke st index s) (S index) ss'
  end.

Definition initialState : PlanState :=
  {| paths := []; currentTime := Fin 0; prevEndPos := None |}.

Definition generateMotionPlan (data : SignatureAnalysis) : list StrokePath :=
  paths (planStrokes initialState 0 (strokes data)).

End Plan.

(** *** Vocabulary of the statements about the planner *)

(** [a <= b] on numbers; false as soon as one side is [NaN]. *)
Definition jle (a b : jsnum) : Prop :=
  match a, b with Fin u, Fin v => u <= v | _, _ => False end.

(** The times of [pts] are numbers and increase, starting above [lo]. *)
Fixpoint chain (lo : R) (pts : list PhysicsPoint) : Prop :=
  match pts with
  | [] => True
  | p :: ps => exists t, time p = Fin t /\ lo <= t /\ chain t ps
  end.

(** A well-timed path: non-empty, times increasing from [startTime] to
    [endTime], which are the times of the first and of the last point. *)
Definition path_ok (p : StrokePath) : Prop :=
  exists p0 pts t0 tE,
    path_points p = p0 :: pts /\ time p0 = Fin t0 /\ startTime p = Fin t0 /\
    chain t0 pts /\ endTime p = Fin tE /\ time (List.last pts p0) = Fin tE /\
    t0 <= tE.

(** Consecutive paths do not overlap in time. *)
Definition ordered (ps : list StrokePath) : Prop :=
  forall i p q, ps !! i = Some p -> ps !! S i = Some q ->
    jle (endTime p) (startTime q).


(** The clock [t] after the pen lift over a gap of length [d]. *)
Definition liftedStart (d : R) (t : jsnum) : jsnum :=
  if Rgt_dec d 30 then jadd t (Fin (liftTime d)) else t.

(** The state reached after the strokes [es] were emitted: one path per
    stroke, the state remembers the end of the last stroke, and each path
    starts at the end of the previous one plus the pen lift. *)
Definition linked (w h : R) (st : PlanState) (es : list Stroke) : Prop :=
  length (paths st) = length es /\
  match last es with
  | None => prevEndPos st = None
  | Some s => exists e pl,
      last (processedPoints w h s) = Some e /\ prevEndPos st = Some (xy e) /\
      last (paths st) = Some pl /\ endTime pl = currentTime st
  end /\
  forall i s1 s2 p1 p2 e f,
    es !! i = Some s1 -> es !! S i = Some s2 ->
    paths st !! i = Some p1 -> paths st !! S i = Some p2 ->
    last (processedPoints w h s1) = Some e ->
    head (processedPoints w h s2) = Some f ->
    startTime p2 = liftedStart (dist (xy f) (xy e)) (endTime p1).




(** A stroke made of the two points [(x1, 0)] and [(x2, 0)]. *)
Definition hstroke (x1 x2 : Z) : Stroke :=
  {| points := [ mkRawPoint x1 0 None None; mkRawPoint x2 0 None None ] |}.

(** The strokes for which the planner emits a path. *)
Definition emitted (ss : list Stroke) : list Stroke :=
  List.filter (fun s => negb (length (points s) <? 2)%nat) ss.

(** *** Vocabulary of further statements about the planner *)



(** The paths of [st] stand for the strokes of [ss] before index [idx]
    that have two points or more: each path carries the index of its stroke
    and one point per processed point, in the order of the strokes. *)
Definition tracks (w h : R) (ss : list Stroke) (idx : nat) (st : PlanState) : Prop :=
  (forall p, p ∈ paths st ->
     (id p < idx)%nat /\
     exists s, ss !! id p = Some s /\ (2 <= length (points s))%nat /\
       length (path_points p) = length (processedPoints w h s)) /\
  (forall i p q, paths st !! i = Some p -> paths st !! S i = Some q -> (id p < id q)%nat) /\
  (forall k s, (k < idx)%nat -> ss !! k = Some s -> (2 <= length (points s))%nat ->
     exists p, p ∈ paths st /\ id p = k).






End Planner.

(** ** The animation engine ([animationEngine.ts]) *)

Module Engine.
Import Planner.
Local Open Scope R_scope.

(** *** Numbers *)

Definition jsub (a b : jsnum) : jsnum :=
  match a, b with Fin u, Fin v => Fin (u - v) | _, _ => NaN end.

(** Division; the engine only divides by numbers it has tested to be
    different from zero. *)
Definition jdiv (a b : jsnum) : jsnum :=
  match a, b with Fin u, Fin v => Fin (u / v) | _, _ => NaN end.

Definition Rgeb (u v : R) : bool := if Rge_dec u v then true else false.

(** [a > b] and [a >= b]: false as soon as one side is [NaN]. *)
Definition jgt (a b : jsnum) : bool :=
  match a, b with Fin u, Fin v => Rgtb u v | _, _ => false end.

Definition jge (a b : jsnum) : bool :=
  match a, b with Fin u, Fin v => Rgeb u v | _, _ => false end.

(** [v || 1]: the fallback is taken for [0] and for [NaN]. *)
Definition jorOne (v : jsnum) : R :=
  match v with
  | Fin r => if Req_dec_T r 0 then 1 else r
  | NaN => 1
  end.

Definition MAX_SAFE_INTEGER : R := 9007199254740991.

(** *** Rescaling the plan to the target duration ([start]) *)




Definition animationEndTime (paths : list StrokePath) : jsnum :=
  match last paths with Some lastPath => endTime lastPath | None => Fin 2000 end.

Definition loopDuration (paths : list StrokePath) : jsnum :=
  jadd (animationEndTime paths) (Fin 1000).

(** *** Drawing a path ([drawPath]) *)

(** One stroked line: from, to, line width and opacity (the colour is the
    same for every line). *)
Record Segment := mkSegment {
  fromX : jsnum;
  fromY : jsnum;
  toX : jsnum;
  toY : jsnum;
  segWidth : R;
  segOpacity : R
}.

(** What [drawPath] does: the lines it strokes, in order, and the pair it
    returns. *)
Record Drawn := mkDrawn {
  segments : list Segment;
  moving : bool;
  speed : jsnum
}.

Definition segmentTo (thicknessScale : R) (p1 : PhysicsPoint) (tx ty : jsnum) : Segment :=
  {| fromX := x p1; fromY := y p1; toX := tx; toY := ty;
     segWidth := lineWidth p1 * thicknessScale; segOpacity := opacity p1 |}.

(** The loop of the fast static render. *)
Fixpoint staticSegments (thicknessScale : R) (pts : list PhysicsPoint) : list Segment :=
  match pts with
  | p1 :: ((p2 :: _) as rest) =>
      segmentTo thicknessScale p1 (x p2) (y p2) :: staticSegments thicknessScale rest
  | _ => []
  end.

(** [progress] on the leading segment. *)
Definition progress (elapsedTime : R) (p1 p2 : PhysicsPoint) : jsnum :=
  let segDuration := jsub (time p2) (time p1) in
  if jgt segDuration (Fin 0.001)
  then jdiv (jsub (Fin elapsedTime) (time p1)) segDuration
  else Fin 1.

(** [speed] on the leading segment, in pixels per ms. *)
Definition segmentSpeed (p1 p2 : PhysicsPoint) : jsnum :=
  let segDuration := jsub (time p2) (time p1) in
  let dx := jsub (x p2) (x p1) in
  let dy := jsub (y p2) (y p1) in
  let dist := jmap sqrt (jadd (jmul dx dx) (jmul dy dy)) in
  jdiv dist (Fin (jorOne segDuration)).

(** The loop of the animated render: the lines stroked, and [moving] and
    [speed] when the loop is left. *)
Fixpoint animate (thicknessScale elapsedTime : R) (pts : list PhysicsPoint)
  : list Segment * bool * jsnum :=
  match pts with
  | p1 :: ((p2 :: _) as rest) =>
      if jgt (time p1) (Fin elapsedTime) then ([], false, Fin 0)
      else if jgt (time p2) (Fin elapsedTime) then
        let pr := progress elapsedTime p1 p2 in
        let targetX := jadd (x p1) (jmul (jsub (x p2) (x p1)) pr) in
        let targetY := jadd (y p1) (jmul (jsub (y p2) (y p1)) pr) in
        ([segmentTo thicknessScale p1 targetX targetY], true, segmentSpeed p1 p2)
      else
        let '(segs, m, s) := animate thicknessScale elapsedTime rest in
        (segmentTo thicknessScale p1 (x p2) (y p2) :: segs, m, s)
  | _ => ([], false, Fin 0)
  end.

Definition drawPath (thicknessScale : R) (path : StrokePath) (elapsedTime : R) : Drawn :=
  let pts := path_points path in
  if (length pts <? 2)%nat then {| segments := []; moving := false; speed := Fin 0 |}
  else if Rgeb elapsedTime MAX_SAFE_INTEGER then
    {| segments := staticSegments thicknessScale pts; moving := false; speed := Fin 0 |}
  else
    let '(segs, m, s) := animate thicknessScale elapsedTime pts in
    {| segments := segs; moving := m; speed := jmul s (Fin 10) |}.

(** *** One frame of the animation loop *)

(** What a frame strokes, and [isMoving] and [currentSpeed] after
    [paths.forEach]. *)
Definition frameStep (thicknessScale elapsed : R)
    (acc : list Segment * bool * jsnum) (path : StrokePath) : list Segment * bool * jsnum :=
  let '(segs, isMoving, currentSpeed) := acc in
  if jge (Fin elapsed) (startTime path) then
    let d := drawPath thicknessScale path elapsed in
    (segs ++ segments d,
     if moving d then true else isMoving,
     if moving d then speed d else currentSpeed)
  else acc.

Definition frame (thicknessScale elapsed : R) (paths : list StrokePath)
  : list Segment * bool * jsnum :=
  fold_left (frameStep thicknessScale elapsed) paths ([], false, Fin 0).

(** The strokes of the static render of all [paths] ([drawStatic]). *)
Definition staticFrame (thicknessScale : R) (paths : list StrokePath) : list Segment :=
  concat ((fun path => segments (drawPath thicknessScale path MAX_SAFE_INTEGER)) <$> paths).

(** *** Vocabulary of the statements about the engine *)

(** [s] is a line from the point [p1] towards the point [p2] that stops
    at [p2] or before it. *)
Definition towards (p1 p2 : PhysicsPoint) (s : Segment) : Prop :=
  fromX s = x p1 /\ fromY s = y p1 /\
  ((toX s = x p2 /\ toY s = y p2) \/
   exists k, 0 <= k <= 1 /\
     toX s = jadd (x p1) (jmul (jsub (x p2) (x p1)) (Fin k)) /\
     toY s = jadd (y p1) (jmul (jsub (y p2) (y p1)) (Fin k))).

(** Every point of [p] is timed at [e] or before, and so are its start
    and its end. *)
Definition finishedBy (e : R) (p : StrokePath) : Prop :=
  exists t0 tE, startTime p = Fin t0 /\ endTime p = Fin tE /\ t0 <= tE /\ tE <= e /\
    Forall (fun q => jgt (time q) (Fin e) = false) (path_points p).

(** A point at [(px, py)] timed at [t]. *)
Definition at_ (t px py : R) : PhysicsPoint :=
  {| x := Fin px; y := Fin py; time := Fin t; lineWidth := 1; opacity := 1 |}.

(** A path of three points, drawn between 0 and 40 ms. *)
Definition zigzag : StrokePath :=
  {| id := 0; path_points := [at_ 0 0 0; at_ 10 5 5; at_ 40 10 0];
     startTime := Fin 0; endTime := Fin 40 |}.

End Engine.

(** ** The tracer ([localTracer.ts]) *)

Module Tracer.
Local Open Scope Z_scope.

(** *** Numbers *)

Definition Qltb (u v : Q) : bool :=
  match (u ?= v)%Q with Lt => true | _ => false end.

Definition Qleb (u v : Q) : bool :=
  match (u ?= v)%Q with Gt => false | _ => true end.

(** [Math.round]: the nearest integer, halves rounded up. *)
Definition round (q : Q) : Z := Qfloor (q + (1 # 2))%Q.

(** [parseFloat(q.toFixed(2))]. *)
Definition toFixed2 (q : Q) : Q := (inject_Z (round (q * 100)) / 100)%Q.

Definition tenth : Q := 1 # 10.
Definition eightTenths : Q := 8 # 10.

(** *** Typed arrays *)

(** Reading [arr[i]]: [None] stands for [undefined] (index out of range). *)
Definition rd (arr : list Z) (i : Z) : option Z :=
  if i <? 0 then None else arr !! Z.to_nat i.

(** Writing [arr[i] = v]: a typed array ignores a write out of range. *)
Definition wr (arr : list Z) (i : Z) (v : Z) : list Z :=
  if i <? 0 then arr else <[Z.to_nat i := v]> arr.

(** [arr[i] === v] *)
Definition cellIs (arr : list Z) (i : Z) (v : Z) : bool :=
  match rd arr i with Some u => u =? v | None => false end.

(** [arr[i] > 0] *)
Definition cellPositive (arr : list Z) (i : Z) : bool :=
  match rd arr i with Some u => 0 <? u | None => false end.

(** *** Point helpers *)

Definition distSq (p1 p2 : RawPoint) : Z :=
  (px p1 - px p2) ^ 2 + (py p1 - py p2) ^ 2.

Definition smooth3 (u v w : Q) : Q := (tenth * u + eightTenths * v + tenth * w)%Q.

Definition smoothAttr (prev curr next : option Q) : option Q :=
  match curr, prev, next with
  | Some c, Some p, Some n => Some (smooth3 p c n)
  | _, _, _ => curr
  end.

Definition smoothPoint (prev curr next : RawPoint) : RawPoint :=
  {| px := round (smooth3 (inject_Z (px prev)) (inject_Z (px curr)) (inject_Z (px next)));
     py := round (smooth3 (inject_Z (py prev)) (inject_Z (py curr)) (inject_Z (py next)));
     pz := smoothAttr (pz prev) (pz curr) (pz next);
     pa := smoothAttr (pa prev) (pa curr) (pa next) |}.

(** The loop of [smoothPoints] at index [i]: [prev = points[i-1]],
    [curr = points[i]], [rest] the points after; the last point is pushed
    unchanged. *)
Fixpoint smoothLoop (prev curr : RawPoint) (rest : list RawPoint) : list RawPoint :=
  match rest with
  | [] => [curr]
  | next :: rest' => smoothPoint prev curr next :: smoothLoop curr next rest'
  end.

Definition smoothPoints (pts : list RawPoint) : list RawPoint :=
  match pts with
  | p0 :: p1 :: p2 :: rest => p0 :: smoothLoop p0 p1 (p2 :: rest)
  | _ => pts
  end.

Definition SHORT_SEGMENT_SQ : Z := 2500.

(** The test of [filterJitter]: a short, sharp spike at [curr]. *)
Definition isSpike (prev curr next : RawPoint) : bool :=
  let d1 := distSq prev curr in
  let d2 := distSq curr next in
  (d1 <? SHORT_SEGMENT_SQ) && (d2 <? SHORT_SEGMENT_SQ) &&
  let v1x := px curr - px prev in
  let v1y := py curr - py prev in
  let v2x := px next - px curr in
  let v2y := py next - py curr in
  let dot := v1x * v2x + v1y * v2y in
  let magSq := d1 * d2 in
  (0 <? magSq) && (dot <? 0).

(** One pass: the windows are taken on [input], and the last point is
    always pushed. *)
Fixpoint jitterLoop (prev curr : RawPoint) (rest : list RawPoint) : list RawPoint :=
  match rest with
  | [] => [curr]
  | next :: rest' =>
      if isSpike prev curr next then jitterLoop curr next rest'
      else curr :: jitterLoop curr next rest'
  end.

Definition jitterPass (input : list RawPoint) : list RawPoint :=
  match input with
  | [] => []
  | [p0] => [p0; p0]
  | p0 :: p1 :: rest => p0 :: jitterLoop p0 p1 rest
  end.

Definition filterJitter (pts : list RawPoint) : list RawPoint :=
  if (length pts <? 3)%nat then pts
  else
    let clean1 := jitterPass pts in
    if (length clean1 <? 3)%nat then clean1
    else jitterPass clean1.

(** *** Simplification (the [finalPoints] loop of [analyzeSignatureLocal]) *)

(** Whether [curr] is kept, [prev] being the last kept point. *)
Definition deviates (prev curr next : RawPoint) : bool :=
  let cross := px prev * (py curr - py next) + px curr * (py next - py prev)
               + px next * (py prev - py curr) in
  let area := Qabs ((1 # 2) * inject_Z cross) in
  let dx := px next - px prev in
  let dy := py next - py prev in
  let baseSq := dx * dx + dy * dy in
  if baseSq <? 1 then false
  else Qltb 30 (4 * area * area / inject_Z baseSq).

Fixpoint simplifyLoop (prev curr : RawPoint) (rest : list RawPoint) : list RawPoint :=
  match rest with
  | [] => [curr]
  | next :: rest' =>
      if deviates prev curr next then curr :: simplifyLoop curr next rest'
      else simplifyLoop prev next rest'
  end.

Definition finalPoints (jitterFreePoints : list RawPoint) : list RawPoint :=
  match jitterFreePoints with
  | [] => []
  | [p0] => [p0; p0]
  | p0 :: p1 :: rest => p0 :: simplifyLoop p0 p1 rest
  end.

(** *** Stroke ordering ([optimizeStrokeOrder]) *)

(** The record built by [getMeta].  [stroke] is the (cloned) stroke the
    record points to; reversing that stroke in place is modelled by
    [reverseMeta]. *)
Record StrokeMeta := mkMeta {
  stroke : Stroke;
  cx : Q;
  cy : Q;
  minX : Z;
  maxX : Z;
  minY : Z;
  maxY : Z;
  width : Z;
  height : Z;
  start : RawPoint;
  end_ : RawPoint
}.

(** [getMeta].  For a stroke without points the JavaScript record has
    [start] and [end] undefined, and every later use ([curr.end.x],
    [distSq(curr.end, cand.start)]) raises a [TypeError]; the model raises
    ([None]) when the record is built. *)
Definition getMeta (s : Stroke) : option StrokeMeta :=
  match points s with
  | [] => None
  | p0 :: rest =>
      let xs := px <$> rest in
      let ys := py <$> rest in
      let minX := fold_left Z.min xs (px p0) in
      let maxX := fold_left Z.max xs (px p0) in
      let minY := fold_left Z.min ys (py p0) in
      let maxY := fold_left Z.max ys (py p0) in
      let sumX := fold_left Z.add xs (px p0) in
      let sumY := fold_left Z.add ys (py p0) in
      let n := inject_Z (Z.of_nat (length (points s))) in
      Some {| stroke := s;
              cx := (inject_Z sumX / n)%Q;
              cy := (inject_Z sumY / n)%Q;
              minX := minX; maxX := maxX; minY := minY; maxY := maxY;
              width := maxX - minX;
              height := maxY - minY;
              start := p0;
              end_ := List.last rest p0 |}
  end.

(** [stroke.points.reverse()] followed by the swap of [start] and [end]. *)
Definition reverseStroke (s : Stroke) : Stroke := {| points := rev (points s) |}.

Definition reverseMeta (m : StrokeMeta) : StrokeMeta :=
  {| stroke := reverseStroke (stroke m);
     cx := cx m; cy := cy m;
     minX := minX m; maxX := maxX m; minY := minY m; maxY := maxY m;
     width := width m; height := height m;
     start := end_ m;
     end_ := start m |}.

(** [pool.sort((a, b) => a.minX - b.minX)]: a stable sort on [minX]. *)
Fixpoint insertMeta (m : StrokeMeta) (l : list StrokeMeta) : list StrokeMeta :=
  match l with
  | [] => [m]
  | m' :: l' => if minX m <=? minX m' then m :: l else m' :: insertMeta m l'
  end.

Definition sortPool (pool : list StrokeMeta) : list StrokeMeta :=
  fold_right insertMeta [] pool.

(** The variables of the candidate loop; [None] stands for [bestIdx = -1]
    and for [bestCost = Infinity]. *)
Record Best := mkBest {
  bestIdx : option nat;
  bestCost : option Q;
  reverseBest : bool
}.

Definition belowBest (c : Q) (b : Best) : bool :=
  match bestCost b with None => true | Some bc => Qltb c bc end.

Definition backwardThresh : Z := 500.

(** One iteration of the candidate loop, for [cand = pool[i]]. *)
Definition consider (useBias : bool) (curr : StrokeMeta) (b : Best)
    (i : nat) (cand : StrokeMeta) : Best :=
  let dStart := distSq (end_ curr) (start cand) in
  let dEnd := distSq (end_ curr) (end_ cand) in
  let isBack := Qltb (cx cand) (inject_Z (px (end_ curr) - backwardThresh)) in
  let yDiff := Qabs (cy cand - cy curr) in
  let costStart :=
    if useBias then
      ((if isBack && (2500 <? dStart) then inject_Z dStart * 5 else inject_Z dStart)
       + yDiff * 5)%Q
    else inject_Z dStart in
  let costEnd :=
    if useBias then
      ((if isBack && (2500 <? dEnd) then inject_Z dEnd * 5 else inject_Z dEnd)
       + yDiff * 5)%Q
    else inject_Z dEnd in
  let b1 :=
    if belowBest costStart b
    then {| bestIdx := Some i; bestCost := Some costStart; reverseBest := false |}
    else b in
  if belowBest costEnd b1
  then {| bestIdx := Some i; bestCost := Some costEnd; reverseBest := true |}
  else b1.

Fixpoint considerAll (useBias : bool) (curr : StrokeMeta) (b : Best)
    (i : nat) (pool : list StrokeMeta) : Best :=
  match pool with
  | [] => b
  | cand :: pool' => considerAll useBias curr (consider useBias curr b i cand) (S i) pool'
  end.

Definition noBest : Best :=
  {| bestIdx := None; bestCost := None; reverseBest := false |}.

(** The [while (pool.length > 0)] loop; each iteration removes one element
    of the pool, so [fuel = length pool] iterations are enough. *)
Fixpoint solveLoop (fuel : nat) (useBias : bool) (curr : StrokeMeta)
    (pool : list StrokeMeta) : list Stroke :=
  match fuel, pool with
  | S fuel', _ :: _ =>
      let b := considerAll useBias curr noBest 0 pool in
      match bestIdx b with
      | Some i =>
          match pool !! i with
          | Some winner0 =>
              let winner := if reverseBest b then reverseMeta winner0 else winner0 in
              stroke winner :: solveLoop fuel' useBias winner (delete i pool)
          | None => []
          end
      | None => []
      end
  | _, _ => []
  end.

Definition solve (inputStrokes : list Stroke) (useBias : bool) : option (list Stroke) :=
  pool0 ← mapM getMeta inputStrokes;
  match sortPool pool0 with
  | [] => Some []
  | first :: pool =>
      let curr :=
        if (px (end_ first) <? px (start first)) && (height first <? width first)
        then reverseMeta first else first in
      Some (stroke curr :: solveLoop (length pool) useBias curr pool)
  end.

(** [getScore]; [None] is the [TypeError] of reading [.x] on the missing
    end point of a stroke without points. *)
Fixpoint getScore (seq : list Stroke) : option R :=
  match seq with
  | s1 :: ((s2 :: _) as rest) =>
      p1 ← last (points s1);
      p2 ← head (points s2);
      d ← getScore rest;
      Some (sqrt (IZR (distSq p1 p2))
            + (if px p2 <? px p1 - 100 then 50 else 0) + d)%R
  | _ => Some 0%R
  end.

(** The bounding box of all strokes and the decoration (underline) test. *)
Definition isUnderline (metas : list StrokeMeta) (m : StrokeMeta) : bool :=
  match metas with
  | [] => false
  | m0 :: ms =>
      let globalMinX := fold_left Z.min (minX <$> ms) (minX m0) in
      let globalMaxX := fold_left Z.max (maxX <$> ms) (maxX m0) in
      let globalMinY := fold_left Z.min (minY <$> ms) (minY m0) in
      let globalMaxY := fold_left Z.max (maxY <$> ms) (maxY m0) in
      let totalW := globalMaxX - globalMinX in
      let totalH := globalMaxY - globalMinY in
      let isWide := Qltb (inject_Z totalW * (35 # 100)) (inject_Z (width m)) in
      let isLow := Qltb (inject_Z globalMinY + inject_Z totalH * (65 # 100)) (cy m) in
      let isFlat := Qltb (inject_Z (height m) * (25 # 10)) (inject_Z (width m)) in
      isWide && isLow && isFlat
  end.

Definition mainStrokes (metas : list StrokeMeta) : list Stroke :=
  stroke <$> List.filter (fun m => negb (isUnderline metas m)) metas.

Definition underlineStrokes (metas : list StrokeMeta) : list Stroke :=
  stroke <$> List.filter (isUnderline metas) metas.

(** [bestMain = (s2 < s1 * 1.3) ? h2 : h1] *)
Definition bestMain (h1 h2 : list Stroke) (s1 s2 : R) : list Stroke :=
  if Rlt_dec s2 (s1 * 1.3) then h2 else h1.

(** [solve] reverses strokes in place, and each call receives its own deep
    copy ([cloneStrokes]) of the main strokes; with immutable lists both
    calls simply start from the same value. *)
Definition optimizeStrokeOrder (strokes : list Stroke) : option (list Stroke) :=
  match strokes with
  | [] => Some []
  | _ =>
      initialMeta ← mapM getMeta strokes;
      h1 ← solve (mainStrokes initialMeta) false;
      h2 ← solve (mainStrokes initialMeta) true;
      s1 ← getScore h1;
      s2 ← getScore h2;
      Some (bestMain h1 h2 s1 s2 ++ underlineStrokes initialMeta)
  end.

(** *** Despeckling ([despeckleBitmask]) *)

Definition neighbors (cx cy : Z) : list (Z * Z) :=
  [ (cx - 1, cy); (cx + 1, cy); (cx, cy - 1); (cx, cy + 1) ].

(** [n.x >= 0 && n.x < width && n.y >= 0 && n.y < height] *)
Definition inBounds (w h : Z) (n : Z * Z) : bool :=
  (0 <=? n.1) && (n.1 <? w) && (0 <=? n.2) && (n.2 <? h).

(** The body of [for (const n of neighbors)], on the pair ([seen], [stack]). *)
Definition visit (data : list Z) (w h : Z) (st : list Z * list Z) (n : Z * Z)
  : list Z * list Z :=
  if inBounds w h n then
    let nIdx := n.2 * w + n.1 in
    if cellIs data nIdx 1 && cellIs st.1 nIdx 0
    then (wr st.1 nIdx 1, st.2 ++ [nIdx])
    else st
  else st.

(** [while (ptr < stack.length)]: the value is ([seen], [stack], [ptr]) when
    the loop is left; [count] is [ptr], and [componentIndices] receives the
    same pushes as [stack].  No index is pushed twice, so [data.length]
    iterations are enough (lemma [floodFill_component]). *)
Fixpoint floodFill (fuel : nat) (data : list Z) (w h : Z)
    (seen stack : list Z) (ptr : nat) : list Z * list Z * nat :=
  match fuel with
  | O => (seen, stack, ptr)
  | S fuel' =>
      match stack !! ptr with
      | None => (seen, stack, ptr)
      | Some idx =>
          let cx := idx mod w in
          let cy := idx / w in
          let st := fold_left (visit data w h) (neighbors cx cy) (seen, stack) in
          floodFill fuel' data w h st.1 st.2 (S ptr)
      end
  end.

Definition zeroAll (data : list Z) (indices : list Z) : list Z :=
  fold_left (fun d idx => wr d idx 0) indices data.

(** The body of the outer [for] loop at index [i], on ([data], [seen]). *)
Definition despeckleAt (w h minSize : Z) (st : list Z * list Z) (i : Z)
  : list Z * list Z :=
  if cellIs st.1 i 1 && cellIs st.2 i 0 then
    let r := floodFill (length st.1) st.1 w h (wr st.2 i 1) [i] 0 in
    let seen := r.1.1 in
    let componentIndices := r.1.2 in
    let count := Z.of_nat r.2 in
    if count <? minSize then (zeroAll st.1 componentIndices, seen)
    else (st.1, seen)
  else st.

Definition despeckleBitmask (data : list Z) (w h minSize : Z) : list Z :=
  (fold_left (despeckleAt w h minSize)
             (seqZ 0 (Z.of_nat (length data)))
             (data, replicate (length data) 0)).1.

(** *** Vocabulary of the statements about despeckling *)

Definition ink (data : list Z) (i : Z) : Prop := rd data i = Some 1.

(** 4-adjacency of two cells of a [w] x [h] grid stored row by row: next to
    each other in one row, or one above the other. *)
Definition adjacent (w h : Z) (i j : Z) : Prop :=
  0 <= i < w * h /\ 0 <= j < w * h /\
  ((i / w = j / w /\ (j = i + 1 \/ j = i - 1)) \/ j = i + w \/ j = i - w).

(** [j] is reached from the ink cell [i] along adjacent ink cells. *)
Inductive connected (data : list Z) (w h : Z) (i : Z) : Z -> Prop :=
| connected_here : ink data i -> connected data w h i i
| connected_step j k :
    connected data w h i j -> adjacent w h j k -> ink data k ->
    connected data w h i k.

(** [comp] lists, without repetition, the cells of the component of [i]. *)
Definition component (data : list Z) (w h : Z) (i : Z) (comp : list Z) : Prop :=
  NoDup comp /\ forall j, j ∈ comp <-> connected data w h i j.

Definition inkCount (data : list Z) : nat :=
  length (List.filter (fun v => v =? 1) data).

(** The invariant of the flood fill started at [i], during which [seen0]
    has become [seen]: the stack holds distinct cells of the component of
    [i] that were unseen before, and exactly those have been marked. *)
Definition fillInv (data seen0 : list Z) (w h i : Z) (seen stack : list Z) : Prop :=
  NoDup stack /\ length seen = length data /\
  (forall k, k ∈ stack -> connected data w h i k /\ rd seen0 k = Some 0) /\
  (forall k, k ∈ stack -> rd seen k = Some 1) /\
  (forall k, k ∉ stack -> rd seen k = rd seen0 k).

(** The ink cells adjacent to the first [ptr] cells of the stack are in the
    stack. *)
Definition closedBelow (data : list Z) (w h : Z) (ptr : nat) (stack : list Z) : Prop :=
  forall m k k', (m < ptr)%nat -> stack !! m = Some k ->
    adjacent w h k k' -> ink data k' -> k' ∈ stack.

(** Among ink cells, an unseen cell has only unseen neighbours. *)
Definition unseenClosed (data seen : list Z) (w h : Z) : Prop :=
  forall k k', adjacent w h k k' -> ink data k -> ink data k' ->
    rd seen k = Some 0 -> rd seen k' = Some 0.

(** The invariant of the outer loop of [despeckleBitmask] before index [p],
    [data0] being the mask at the start: cells were only cleared, by whole
    components; the cells seen are those of the components met so far, and
    a seen cell is cleared exactly when its component is small. *)
Definition despeckleInv (data0 : list Z) (w h minSize : Z) (p : Z)
    (data seen : list Z) : Prop :=
  length data = length data0 /\ length seen = length data0 /\
  (forall k, rd data k = rd data0 k \/ (rd data0 k = Some 1 /\ rd data k = Some 0)) /\
  (forall k j, connected data0 w h k j -> ink data k -> ink data j) /\
  unseenClosed data seen w h /\
  (forall k v, rd seen k = Some v -> v = 0 \/ v = 1) /\
  (forall k, 0 <= k < p -> ink data k -> rd seen k = Some 1) /\
  (forall k comp, rd seen k = Some 1 -> component data0 w h k comp ->
     (Z.of_nat (length comp) < minSize -> rd data k = Some 0) /\
     (minSize <= Z.of_nat (length comp) -> rd data k = Some 1)) /\
  (forall k, rd seen k = Some 0 -> rd data k = rd data0 k).

(** A 5 x 3 mask with a component of two cells and one of three. *)
Definition smallMask : list Z :=
  [ 1; 0; 0; 1; 1;
    1; 0; 0; 0; 1;
    0; 0; 0; 0; 0 ].

(** *** Loops guarded by a condition *)

(** [while (cond) body], run for at most [fuel] iterations. *)
Fixpoint while {S : Type} (fuel : nat) (cond : S -> bool) (body : S -> S) (s : S) : S :=
  match fuel with
  | O => s
  | S fuel' => if cond s then while fuel' cond body (body s) else s
  end.

(** *** The stroke walker (first half of [analyzeSignatureLocal]) *)

Definition OUTPUT_SCALE : Z := 10000.
Definition PEN_RADIUS : Z := 3.
Definition SEARCH_RADIUS : Z := 5.
Definition SAFETY_LIMIT : Z := 10000.

(** The decoded canvas: [pWidth] x [pHeight] pixels of four bytes each in
    [data], and the size of the image it was drawn from. *)
Record ImageData := mkImageData {
  pWidth : Z;
  pHeight : Z;
  data : list Z;
  imgWidth : Z;
  imgHeight : Z
}.

Definition luminance (r g b : Z) : Q :=
  ((299 # 1000) * inject_Z r + (587 # 1000) * inject_Z g + (114 # 1000) * inject_Z b)%Q.

(** The threshold test on pixel [k] (bytes [4k .. 4k+3]); a byte read past
    the end of the buffer makes the test fail. *)
Definition isInkPixel (data : list Z) (k : Z) : bool :=
  match rd data (4 * k), rd data (4 * k + 1), rd data (4 * k + 2), rd data (4 * k + 3) with
  | Some r, Some g, Some b, Some a => Qltb (luminance r g b) 200 && (50 <? a)
  | _, _, _, _ => false
  end.

(** The mask after the threshold loop: [visited[k] = 1] for the ink pixels
    of a zero-filled array of [pWidth * pHeight] cells. *)
Definition thresholdMask (img : ImageData) : list Z :=
  (fun k => if isInkPixel (data img) k then 1 else 0)
    <$> seqZ 0 (pWidth img * pHeight img).

(** The scan for the next cell equal to 1, from [globalSearchIdx = g] on;
    [rest] is [visited] from index [g].  Returns the new [globalSearchIdx]
    and [startIdx] ([None] for -1). *)
Fixpoint scan (rest : list Z) (g : Z) : Z * option Z :=
  match rest with
  | [] => (g, None)
  | v :: rest' => if v =? 1 then (g, Some g) else scan rest' (g + 1)
  end.

(** The offsets [(dx, dy)] of the consumed disk, in loop order. *)
Definition diskOffsets : list (Z * Z) :=
  dy ← seqZ (- PEN_RADIUS) (2 * PEN_RADIUS + 1);
  dx ← seqZ (- PEN_RADIUS) (2 * PEN_RADIUS + 1);
  if dx * dx + dy * dy <=? PEN_RADIUS * PEN_RADIUS then [(dx, dy)] else [].

Section Walker.

Variable img : ImageData.

Definition getXY (idx : Z) : Q * Q :=
  (inject_Z (idx mod pWidth img), inject_Z (idx / pWidth img)).

(** Opacity sampled at the rounded position. *)
Definition sampleOpacity (cxInt cyInt : Z) : Q :=
  let sampleIdx := cyInt * pWidth img + cxInt in
  if (0 <=? sampleIdx) && (4 * sampleIdx <? Z.of_nat (length (data img))) then
    let offset := sampleIdx * 4 in
    match rd (data img) offset, rd (data img) (offset + 1),
          rd (data img) (offset + 2), rd (data img) (offset + 3) with
    | Some r, Some g, Some b, Some a =>
        let alpha := (inject_Z a / 255)%Q in
        let darkness := (1 - luminance r g b / 255)%Q in
        (alpha * Qmax (1 # 10) darkness)%Q
    | _, _, _, _ => 1%Q
    end
  else 1%Q.

(** Whether the cell [c] stops a ray: outside the image, or background. *)
Definition hitsBackground (visited : list Z) (c : Z * Z) : bool :=
  if (c.1 <? 0) || (pWidth img <=? c.1) || (c.2 <? 0) || (pHeight img <=? c.2)
  then true
  else cellIs visited (c.2 * pWidth img + c.1) 0.

Definition rayCells (cxInt cyInt r : Z) : list (Z * Z) :=
  [ (cxInt + r, cyInt); (cxInt - r, cyInt); (cxInt, cyInt + r); (cxInt, cyInt - r) ].

(** The [for (r = 1; r < 20; r++)] loop over the remaining values [rs] of
    [r]; [radius] keeps its initial value 1 when no ray is stopped. *)
Fixpoint raycast (visited : list Z) (cxInt cyInt : Z) (rs : list Z) : Z :=
  match rs with
  | [] => 1
  | r :: rs' =>
      if existsb (hitsBackground visited) (rayCells cxInt cyInt r) then r
      else raycast visited cxInt cyInt rs'
  end.

Definition radiusAt (visited : list Z) (cxInt cyInt : Z) : Z :=
  raycast visited cxInt cyInt (seqZ 1 19).

Definition thicknessNorm (radius : Z) : Q :=
  (inject_Z (radius * 2) / inject_Z (pWidth img) * inject_Z OUTPUT_SCALE)%Q.

Definition consumeAt (cx cy : Z) (visited : list Z) (d : Z * Z) : list Z :=
  let nx := cx + d.1 in
  let ny := cy + d.2 in
  if inBounds (pWidth img) (pHeight img) (nx, ny) then
    let nIdx := ny * pWidth img + nx in
    if cellIs visited nIdx 1 then wr visited nIdx 2 else visited
  else visited.

Definition consume (cx cy : Z) (visited : list Z) : list Z :=
  fold_left (consumeAt cx cy) diskOffsets visited.

(** The unconsumed ink cells in the search window around [(cx, cy)]. *)
Definition windowInk (visited : list Z) (cx cy : Z) : list (Z * Z) :=
  let minX := Z.max 0 (cx - SEARCH_RADIUS) in
  let maxX := Z.min (pWidth img) (cx + SEARCH_RADIUS) in
  let minY := Z.max 0 (cy - SEARCH_RADIUS) in
  let maxY := Z.min (pHeight img) (cy + SEARCH_RADIUS) in
  y ← seqZ minY (maxY - minY);
  x ← seqZ minX (maxX - minX);
  if cellIs visited (y * pWidth img + x) 1 then [(x, y)] else [].

Definition sumZ (l : list Z) : Z := fold_left Z.add l 0.

Record WalkState := mkWalkState {
  tracing : bool;
  strokeSafety : Z;
  currentPos : Q * Q;
  walkVisited : list Z;
  strokePoints : list RawPoint
}.

Definition walkCond (s : WalkState) : bool :=
  tracing s && (strokeSafety s <? SAFETY_LIMIT).

(** One iteration of the per-stroke loop. *)
Definition walkBody (s : WalkState) : WalkState :=
  let pos := currentPos s in
  let cxInt := round pos.1 in
  let cyInt := round pos.2 in
  let opacity := sampleOpacity cxInt cyInt in
  let radius := radiusAt (walkVisited s) cxInt cyInt in
  let p := {| px := round (pos.1 / inject_Z (pWidth img) * inject_Z OUTPUT_SCALE);
              py := round (pos.2 / inject_Z (pHeight img) * inject_Z OUTPUT_SCALE);
              pz := Some (thicknessNorm radius);
              pa := Some (toFixed2 opacity) |} in
  let visited := consume cxInt cyInt (walkVisited s) in
  let cells := windowInk visited cxInt cyInt in
  let count := Z.of_nat (length cells) in
  {| tracing := 0 <? count;
     strokeSafety := strokeSafety s + 1;
     currentPos :=
       if 0 <? count
       then ((inject_Z (sumZ (fst <$> cells)) / inject_Z count)%Q,
             (inject_Z (sumZ (snd <$> cells)) / inject_Z count)%Q)
       else pos;
     walkVisited := visited;
     strokePoints := strokePoints s ++ [p] |}.

Definition walkStart (visited : list Z) (startIdx : Z) : WalkState :=
  {| tracing := true;
     strokeSafety := 0;
     currentPos := getXY startIdx;
     walkVisited := visited;
     strokePoints := [] |}.

Definition traceStroke (visited : list Z) (startIdx : Z) : WalkState :=
  while (Z.to_nat SAFETY_LIMIT) walkCond walkBody (walkStart visited startIdx).

Record SeekState := mkSeekState {
  active : bool;
  safetyCounter : Z;
  globalSearchIdx : Z;
  seekVisited : list Z;
  rawStrokes : list Stroke
}.

Definition seekCond (s : SeekState) : bool :=
  active s && (safetyCounter s <? SAFETY_LIMIT).

(** One iteration of the stroke-seeking loop; leaving it by [break] is the
    same as leaving it with [active = false]. *)
Definition seekBody (s : SeekState) : SeekState :=
  let found := scan (drop (Z.to_nat (globalSearchIdx s)) (seekVisited s))
                    (globalSearchIdx s) in
  match found.2 with
  | None =>
      {| active := false;
         safetyCounter := safetyCounter s + 1;
         globalSearchIdx := found.1;
         seekVisited := seekVisited s;
         rawStrokes := rawStrokes s |}
  | Some startIdx =>
      let w := traceStroke (seekVisited s) startIdx in
      {| active := true;
         safetyCounter := safetyCounter s + 1;
         globalSearchIdx := found.1;
         seekVisited := walkVisited w;
         rawStrokes :=
           if (3 <? length (strokePoints w))%nat
           then rawStrokes s ++ [ {| points := strokePoints w |} ]
           else rawStrokes s |}
  end.

Definition seekStart (visited : list Z) : SeekState :=
  {| active := true;
     safetyCounter := 0;
     globalSearchIdx := 0;
     seekVisited := visited;
     rawStrokes := [] |}.

Definition extractStrokes (visited : list Z) : SeekState :=
  while (Z.to_nat SAFETY_LIMIT) seekCond seekBody (seekStart visited).

End Walker.

(** *** Vocabulary of the statements about the walker *)

(** Whether the ray from [(cx, cy)] in direction [d] is stopped at
    distance [r]. *)
Definition stopped (img : ImageData) (visited : list Z) (cx cy : Z)
    (d : Z * Z) (r : Z) : bool :=
  hitsBackground img visited (cx + r * d.1, cy + r * d.2).

(** The length of the ray cast from [(cx, cy)] in direction [d]: the first
    [r >= r0] at which the ray is stopped, looking at most [fuel] cells
    ahead. *)
Fixpoint rayLength (fuel : nat) (img : ImageData) (visited : list Z)
    (cx cy : Z) (d : Z * Z) (r : Z) : Z :=
  match fuel with
  | O => r
  | S fuel' =>
      if stopped img visited cx cy d r then r
      else rayLength fuel' img visited cx cy d (r + 1)
  end.

(** The shortest of the four axis rays; inside the image each of them is
    stopped by the border after at most [pWidth + pHeight] cells. *)
Definition shortestRay (img : ImageData) (visited : list Z) (cx cy : Z) : Z :=
  let len d := rayLength (Z.to_nat (pWidth img + pHeight img)) img visited cx cy d 1 in
  Z.min (Z.min (len (1, 0)) (len (-1, 0))) (Z.min (len (0, 1)) (len (0, -1))).

(** A 41 x 41 image: black on the middle row and on the middle column,
    white elsewhere, opaque everywhere. *)
Definition crossImage : ImageData :=
  {| pWidth := 41; pHeight := 41;
     data := k ← seqZ 0 (41 * 41);
             if (k mod 41 =? 20) || (k / 41 =? 20)
             then [0; 0; 0; 255] else [255; 255; 255; 255];
     imgWidth := 41; imgHeight := 41 |}.

Definition crossMask : list Z :=
  despeckleBitmask (thresholdMask crossImage) 41 41 20.

(** The cells of the cross, written out. *)
Definition crossCells : list Z :=
  (fun k => if (k mod 41 =? 20) || (k / 41 =? 20) then 1 else 0) <$> seqZ 0 (41 * 41).

(** *** Post-processing (second half of [analyzeSignatureLocal]) *)

Definition MERGE_THRESHOLD_SQ : Z := 300 * 300.

(** The merge loop; [None] is the [TypeError] of reading a coordinate of
    the missing end point of a stroke without points. *)
Fixpoint mergeLoop (currentStroke : Stroke) (rest : list Stroke) : option (list Stroke) :=
  match rest with
  | [] => Some [currentStroke]
  | nextStroke :: rest' =>
      lastPt ← last (points currentStroke);
      firstPt ← head (points nextStroke);
      if distSq lastPt firstPt <? MERGE_THRESHOLD_SQ
      then mergeLoop {| points := points currentStroke ++ points nextStroke |} rest'
      else merged ← mergeLoop nextStroke rest'; Some (currentStroke :: merged)
  end.

Definition mergedStrokes (orderedStrokes : list Stroke) : option (list Stroke) :=
  match orderedStrokes with
  | [] => Some []
  | s :: rest => mergeLoop s rest
  end.

(** [filter((p, i, arr) => i === 0 || distSq(p, arr[i-1]) > 100)] *)
Fixpoint dedupLoop (prev : RawPoint) (rest : list RawPoint) : list RawPoint :=
  match rest with
  | [] => []
  | p :: rest' =>
      if 100 <? distSq p prev then p :: dedupLoop p rest' else dedupLoop p rest'
  end.

Definition deduped (pts : list RawPoint) : list RawPoint :=
  match pts with
  | [] => []
  | p0 :: rest => p0 :: dedupLoop p0 rest
  end.

Definition square (r : Z) : list (Z * Z) :=
  ry ← seqZ (- r) (2 * r + 1); rx ← seqZ (- r) (2 * r + 1); [(rx, ry)].

(** Some cell of the (2r+1) x (2r+1) square around [(cx, cy)] is not 0. *)
Definition inkNear (mask : list Z) (w : Z) (r : Z) (cx cy : Z) : bool :=
  existsb (fun d => cellPositive mask ((cy + d.2) * w + (cx + d.1))) (square r).

Section PostProcess.

Variable img : ImageData.
Variable visited : list Z.

Definition onInk (p : RawPoint) : bool :=
  let cx := Qfloor (inject_Z (px p) / inject_Z OUTPUT_SCALE * inject_Z (pWidth img)) in
  let cy := Qfloor (inject_Z (py p) / inject_Z OUTPUT_SCALE * inject_Z (pHeight img)) in
  inkNear visited (pWidth img) 2 cx cy.

(** Interior points are kept when on ink; the last point always is. *)
Fixpoint onInkLoop (curr : RawPoint) (rest : list RawPoint) : list RawPoint :=
  match rest with
  | [] => [curr]
  | next :: rest' =>
      if onInk curr then curr :: onInkLoop next rest' else onInkLoop next rest'
  end.

Definition onInkPoints (dedupedPts : list RawPoint) : list RawPoint :=
  match dedupedPts with
  | [] => []
  | [p0] => [p0]
  | p0 :: p1 :: rest => p0 :: onInkLoop p1 rest
  end.

End PostProcess.

(** [Math.ceil(Math.sqrt(d) / m)] for an integer [d >= 0] and [m >= 1]:
    the least [k] with [(k * m)^2 >= d], which is [ceil (isqrt d / m)] or
    its successor. *)
Definition ceilSqrtDiv (d : Z) (m : Q) : Z :=
  let k := Qceiling (inject_Z (Z.sqrt d) / m) in
  if Qleb (inject_Z d) ((inject_Z k * m) * (inject_Z k * m)) then k else k + 1.

(** The sample [j] of the segment [p1 p2]: [None] when it falls outside
    the mask, else whether ink is near. *)
Definition sampleSegment (bitmask : list Z) (width height : Z) (scaleX scaleY : Q)
    (p1 p2 : RawPoint) (steps j : Z) : option bool :=
  let t := if steps =? 0 then 0%Q else (inject_Z j / inject_Z steps)%Q in
  let x := (inject_Z (px p1) + inject_Z (px p2 - px p1) * t)%Q in
  let y := (inject_Z (py p1) + inject_Z (py p2 - py p1) * t)%Q in
  let bx := Qfloor (x * scaleX) in
  let by_ := Qfloor (y * scaleY) in
  if inBounds width height (bx, by_)
  then Some (inkNear bitmask width 1 bx by_)
  else None.

(** The samples of all segments, for [width > 0] (strokes only exist on a
    mask that has cells). *)
Fixpoint coverageSamples (bitmask : list Z) (width height outputScale : Z)
    (pts : list RawPoint) : list (option bool) :=
  match pts with
  | p1 :: ((p2 :: _) as rest) =>
      let scaleX := (inject_Z width / inject_Z outputScale)%Q in
      let scaleY := (inject_Z height / inject_Z outputScale)%Q in
      let stepSize := (2 / scaleX)%Q in
      let steps := ceilSqrtDiv (distSq p1 p2) (Qmax 1 (stepSize * inject_Z outputScale)) in
      (sampleSegment bitmask width height scaleX scaleY p1 p2 steps <$> seqZ 0 (steps + 1))
      ++ coverageSamples bitmask width height outputScale rest
  | _ => []
  end.

Definition validateStrokeCoverage (s : Stroke) (bitmask : list Z)
    (width height outputScale : Z) : bool :=
  if (length (points s) <? 2)%nat then true
  else
    let samples := coverageSamples bitmask width height outputScale (points s) in
    let checks := Z.of_nat (length (List.filter (fun o => bool_decide (is_Some o)) samples)) in
    let hits := Z.of_nat (length (List.filter (fun o => bool_decide (o = Some true)) samples)) in
    if checks =? 0 then false
    else Qleb (55 # 100) (inject_Z hits / inject_Z checks).

(** The body of [for (const stroke of smoothedStrokes)]: the stroke pushed
    to [finalStrokes], if any. *)
Definition finalizeStroke (img : ImageData) (visited : list Z) (s : Stroke)
  : option Stroke :=
  let dedupedPts := deduped (points s) in
  if (length dedupedPts <? 3)%nat then None
  else
    let jitterFreePoints := filterJitter (onInkPoints img visited dedupedPts) in
    if (length jitterFreePoints <? 3)%nat then None
    else
      let candidateStroke := {| points := finalPoints jitterFreePoints |} in
      if validateStrokeCoverage candidateStroke visited (pWidth img) (pHeight img)
           OUTPUT_SCALE
      then Some candidateStroke
      else None.

(** The promise of [analyzeSignatureLocal], for an image that loaded and a
    canvas that gave a context. *)
Inductive Outcome := Resolved (a : SignatureAnalysis) | Rejected.

(** Everything runs inside [try], and [catch] rejects.  The first call
    that can throw is [ctx.getImageData(0, 0, pWidth, pHeight)]: it raises
    an [IndexSizeError] when the width or the height asked for is zero. *)
Definition analyzeSignatureLocal (img : ImageData) : Outcome :=
  if (pWidth img =? 0) || (pHeight img =? 0) then Rejected
  else
    let mask := despeckleBitmask (thresholdMask img) (pWidth img) (pHeight img) 20 in
    let seek := extractStrokes img mask in
    match optimizeStrokeOrder (rawStrokes seek) with
    | None => Rejected
    | Some orderedStrokes =>
        match mergedStrokes orderedStrokes with
        | None => Rejected
        | Some merged =>
            let smoothedStrokes :=
              (fun s => {| points := smoothPoints (points s) |}) <$> merged in
            Resolved
              {| strokes := omap (finalizeStroke img (seekVisited seek)) smoothedStrokes;
                 original_size := (imgWidth img, imgHeight img) |}
        end
    end.

(** A 2 x 2 image of opaque white pixels. *)
Definition whiteImage : ImageData :=
  {| pWidth := 2; pHeight := 2;
     data := [255; 255; 255; 255;  255; 255; 255; 255;
              255; 255; 255; 255;  255; 255; 255; 255];
     imgWidth := 2; imgHeight := 2 |}.

(** A 20 x 1 image of opaque black pixels: one horizontal line of ink. *)
Definition strokeImage : ImageData :=
  {| pWidth := 20; pHeight := 1;
     data := _ ← seqZ 0 20; [0; 0; 0; 255];
     imgWidth := 20; imgHeight := 1 |}.

(** The point the walker records on [strokeImage] at [(x, 0)]: radius 1,
    full opacity. *)
Definition linePoint (x : Z) : RawPoint :=
  {| px := x; py := 0; pz := Some (thicknessNorm strokeImage 1); pa := Some (toFixed2 1) |}.

(** The stroke the walker records on [strokeImage], and the stroke the
    analysis returns for it. *)
Definition rawLine : Stroke :=
  {| points := linePoint <$> [0; 2000; 4000; 6000; 8000] |}.
Definition tracedLine : Stroke :=
  {| points := [linePoint 0; linePoint 8000] |}.

(** *** Vocabulary of the statements about the order solver *)

(** [o] is [s] in one of its two directions. *)
Definition oriented (s o : Stroke) : Prop := o = s \/ o = reverseStroke s.

(** [out] lists every stroke of [input] exactly once, in some order and in
    some direction. *)
Definition rearranges (input out : list Stroke) : Prop :=
  exists l, input ≡ₚ l /\ Forall2 oriented l out.

Definition nonEmpty (s : Stroke) : Prop := points s <> [].

(** Whether [s] is classified as a decoration within [strokes]. *)
Definition isDecoration (strokes : list Stroke) (s : Stroke) : bool :=
  match mapM getMeta strokes, getMeta s with
  | Some metas, Some m => isUnderline metas m
  | _, _ => false
  end.

Definition pt (x y : Z) : RawPoint := mkRawPoint x y None None.

(** Three two-point strokes on which the two hypotheses differ. *)
Definition strokeA : Stroke := {| points := [pt 200 200; pt 40 30] |}.
Definition strokeB : Stroke := {| points := [pt 90 30; pt 160 200] |}.
Definition strokeC : Stroke := {| points := [pt 40 150; pt 80 0] |}.
Definition threeStrokes : list Stroke := [strokeA; strokeB; strokeC].

(** *** Vocabulary of the statements about points *)

(** Both coordinates of [p] lie between [lo] and [hi]. *)
Definition inBox (lo hi : Z) (p : RawPoint) : Prop :=
  lo <= px p <= hi /\ lo <= py p <= hi.

(** A stroke of three points on a diagonal. *)
Definition diagonal : list RawPoint := [pt 0 0; pt 5000 5000; pt 10000 10000].

(** Consecutive strokes of [ss] are at least the merge threshold apart. *)
Definition gapsWide (ss : list Stroke) : Prop :=
  forall i a b p q, ss !! i = Some a -> ss !! S i = Some b ->
    last (points a) = Some p -> head (points b) = Some q ->
    MERGE_THRESHOLD_SQ <= distSq p q.

(** A 10 x 10 canvas and a mask of it that is ink everywhere. *)
Definition inkImage : ImageData :=
  {| pWidth := 10; pHeight := 10; data := []; imgWidth := 10; imgHeight := 10 |}.
Definition inkMask : list Z := replicate 100 1.

(** A horizontal stroke of three points. *)
Definition bar : Stroke := {| points := [pt 500 500; pt 5000 500; pt 9500 500] |}.

(** *** Vocabulary of the statements about the mask *)

(** [v'] is [v] after some ink was consumed: the same cells, each either
    unchanged or turned from 1 (ink) into 2 (consumed). *)
Definition consumedFrom (v v' : list Z) : Prop :=
  length v' = length v /\
  forall k, rd v' k = rd v k \/ (rd v k = Some 1 /\ rd v' k = Some 2).

(** [out] is [data] after some ink was cleared: each cell is unchanged or
    turned from 1 into 0. *)
Definition clearedFrom (data out : list Z) : Prop :=
  length out = length data /\
  forall k, rd out k = rd data k \/ (rd data k = Some 1 /\ rd out k = Some 0).

(** *** Vocabulary of the statements about the walker's loops *)

(** Cells before the search index hold no unconsumed ink, and none does
    once the search has run off the end. *)
Definition swept (s : SeekState) : Prop :=
  0 <= globalSearchIdx s /\
  (forall k, k < globalSearchIdx s -> rd (seekVisited s) k <> Some 1) /\
  (active s = false -> forall k, rd (seekVisited s) k <> Some 1).

(** The walk is on the canvas: its position is a pixel position, and the
    points recorded so far are in the output range. *)
Definition onCanvas (img : ImageData) (s : WalkState) : Prop :=
  (0 <= (currentPos s).1 /\ (currentPos s).1 <= inject_Z (pWidth img - 1))%Q /\
  (0 <= (currentPos s).2 /\ (currentPos s).2 <= inject_Z (pHeight img - 1))%Q /\
  Forall (inBox 0 10000) (strokePoints s).

(** The search over a mask of [n] cells has only recorded strokes of more
    than three points in the output range. *)
Definition rawOnCanvas (n : nat) (s : SeekState) : Prop :=
  0 <= globalSearchIdx s /\
  length (seekVisited s) = n /\
  Forall (fun st => (3 < length (points st))%nat /\ Forall (inBox 0 10000) (points st))
    (rawStrokes s).

(** The search over a mask of [n] cells that held [c] ink cells at the
    start: while it is active, each iteration so far has consumed a cell. *)
Definition budget (n c : nat) (s : SeekState) : Prop :=
  0 <= globalSearchIdx s /\
  length (seekVisited s) = n /\
  (active s = true -> safetyCounter s + Z.of_nat (inkCount (seekVisited s)) <= Z.of_nat c).

(** A canvas of one row of 20 pixels, and a mask of it that is ink
    everywhere. *)
Definition lineImage : ImageData :=
  {| pWidth := 20; pHeight := 1; data := []; imgWidth := 20; imgHeight := 1 |}.
Definition lineMask : list Z := replicate 20 1.

(** *** Vocabulary of the statements about opacity and thickness *)

(** The point carries an opacity between 0 and 1, and a thickness between
    the ones recorded for a radius of 1 and of 19 pixels. *)
Definition attributesOk (img : ImageData) (p : RawPoint) : Prop :=
  (exists a, pa p = Some a /\ (0 <= a /\ a <= 1)%Q) /\
  (exists z, pz p = Some z /\
     (thicknessNorm img 1 <= z /\ z <= thicknessNorm img 19)%Q).

End Tracer.

(** * Properties *)

(** ** List helpers *)

Lemma last_cons_default {A} (a d : A) (l : list A) :
  List.last (a :: l) d = List.last l a.
Proof.
  revert a d. induction l as [|b l IH]; intros a d; [done|].
  change (List.last (a :: b :: l) d) with (List.last (b :: l) d).
  rewrite !IH. done.
Qed.

Lemma last_lookup_default {A} (d : A) (l : list A) :
  (d :: l) !! length l = Some (List.last l d).
Proof.
  revert d. induction l as [|b l IH]; intros d; [done|].
  rewrite last_cons_default. simpl. apply IH.
Qed.

Module DespeckleFacts.
Import Tracer.
Local Open Scope Z_scope.

(** ** Typed arrays *)

Lemma rd_range arr i v : rd arr i = Some v -> 0 <= i < Z.of_nat (length arr).
Proof.
  unfold rd. destruct (i <? 0) eqn:E; [done|]. apply Z.ltb_ge in E.
  intros H%lookup_lt_Some. lia.
Qed.

Lemma rd_is_Some arr i : 0 <= i < Z.of_nat (length arr) -> is_Some (rd arr i).
Proof.
  intros Hi. unfold rd. destruct (i <? 0) eqn:E; [apply Z.ltb_lt in E; lia|].
  apply lookup_lt_is_Some_2. lia.
Qed.

Lemma length_wr arr i v : length (wr arr i v) = length arr.
Proof. unfold wr. destruct (i <? 0); [done|]. apply length_insert. Qed.

Lemma rd_wr_eq arr i v :
  0 <= i < Z.of_nat (length arr) -> rd (wr arr i v) i = Some v.
Proof.
  intros Hi. unfold rd, wr. destruct (i <? 0) eqn:E; [apply Z.ltb_lt in E; lia|].
  apply list_lookup_insert_eq. lia.
Qed.

Lemma rd_wr_ne arr i j v : i <> j -> rd (wr arr i v) j = rd arr j.
Proof.
  intros Hne. unfold rd, wr. destruct (j <? 0) eqn:Ej; [done|].
  destruct (i <? 0) eqn:Ei; [done|].
  apply Z.ltb_ge in Ei, Ej. apply list_lookup_insert_ne. lia.
Qed.

Lemma cellIs_true arr i v : cellIs arr i v = true <-> rd arr i = Some v.
Proof.
  unfold cellIs. destruct (rd arr i) as [u|]; [|done].
  rewrite Z.eqb_eq. split; [by intros ->|by intros [= ->]].
Qed.

Lemma cellIs_false arr i v : cellIs arr i v = false <-> rd arr i <> Some v.
Proof. rewrite <- cellIs_true. by destruct (cellIs arr i v). Qed.

(** Two arrays that read the same everywhere are equal. *)
Lemma rd_ext (a b : list Z) : (forall i, rd a i = rd b i) -> a = b.
Proof.
  intros H. apply list_eq. intros n. specialize (H (Z.of_nat n)).
  unfold rd in H. destruct (Z.of_nat n <? 0) eqn:E; [apply Z.ltb_lt in E; lia|].
  by rewrite Nat2Z.id in H.
Qed.

(** ** The grid *)

Section Grid.

Variables w h : Z.
Hypothesis w_pos : 0 < w.

Lemma cell_coords k : 0 <= k < w * h -> 0 <= k mod w < w /\ 0 <= k / w < h.
Proof.
  intros Hk. split; [apply Z.mod_pos_bound; lia|].
  split; [apply Z.div_pos; lia|]. apply Z.div_lt_upper_bound; lia.
Qed.

Lemma cell_index cx cy : 0 <= cx < w -> (cy * w + cx) / w = cy /\ (cy * w + cx) mod w = cx.
Proof.
  intros Hx. split.
  - symmetry. apply (Z.div_unique _ _ cy cx); lia.
  - symmetry. apply (Z.mod_unique _ _ cy cx); lia.
Qed.

Lemma adjacent_sym i j : adjacent w h i j -> adjacent w h j i.
Proof.
  intros (Hi & Hj & [[Hrow H]|H]); repeat split; lia.
Qed.

(** The cells enumerated by the code around [k] are the adjacent ones. *)
Lemma neighbors_adjacent k k' :
  0 <= k < w * h ->
  adjacent w h k k' <->
  exists n, n ∈ neighbors (k mod w) (k / w) /\ inBounds w h n = true /\
            k' = n.2 * w + n.1.
Proof.
  intros Hk. destruct (cell_coords k Hk) as [Hx Hy].
  pose proof (Z.div_mod k w ltac:(lia)) as Hdm.
  unfold neighbors, inBounds. split.
  - intros (_ & Hk' & H).
    pose proof (Z.div_mod k' w ltac:(lia)) as Hdm'.
    destruct (cell_coords k' Hk') as [Hx' Hy'].
    destruct H as [[Hrow [->| ->]]|[->| ->]].
    + exists (k mod w + 1, k / w). split; [repeat constructor|]. simpl.
      rewrite <- Hrow in Hdm'. split; [|lia].
      repeat (apply andb_true_intro; split); lia.
    + exists (k mod w - 1, k / w). split; [repeat constructor|]. simpl.
      rewrite <- Hrow in Hdm'. split; [|lia].
      repeat (apply andb_true_intro; split); lia.
    + exists (k mod w, k / w + 1). split; [repeat constructor|]. simpl. split; [|lia].
      repeat (apply andb_true_intro; split); first [lia | apply Z.ltb_lt; nia].
    + exists (k mod w, k / w - 1). split; [repeat constructor|]. simpl. split; [|lia].
      repeat (apply andb_true_intro; split); first [lia | apply Z.leb_le; nia].
  - intros ((nx & ny) & Hin & Hb & ->). simpl in *.
    apply andb_true_iff in Hb as [Hb Hb4]. apply andb_true_iff in Hb as [Hb Hb3].
    apply andb_true_iff in Hb as [Hb1 Hb2].
    apply Z.leb_le in Hb1, Hb3. apply Z.ltb_lt in Hb2, Hb4.
    destruct (cell_index nx ny ltac:(lia)) as [Hdiv Hmod].
    split; [done|]. split; [nia|].
    rewrite Hdiv.
    repeat (apply elem_of_cons in Hin as [Hin|Hin]); try (by apply elem_of_nil in Hin);
      injection Hin as -> ->.
    + left. split; [done|]. right. lia.
    + left. split; [done|]. left. lia.
    + right. right. lia.
    + right. left. lia.
Qed.


(** ** Connectivity *)

Lemma connected_ink data i j : connected data w h i j -> ink data i /\ ink data j.
Proof. induction 1 as [Hi|j k _ [IH _] _ Hk]; by split. Qed.

Lemma connected_trans data i j k :
  connected data w h i j -> connected data w h j k -> connected data w h i k.
Proof.
  intros Hij Hjk. induction Hjk as [_|k l _ IH Hadj Hl]; [done|].
  by eapply connected_step.
Qed.

Lemma connected_sym data i j : connected data w h i j -> connected data w h j i.
Proof.
  induction 1 as [Hi|j k Hij IH Hadj Hk]; [by constructor|].
  apply (connected_trans data k j i); [|done].
  apply (connected_step data w h k k j); [by constructor|by apply adjacent_sym|].
  by destruct (connected_ink data i j Hij).
Qed.

Lemma connected_mono d1 d2 i j :
  (forall k, ink d1 k -> ink d2 k) -> connected d1 w h i j -> connected d2 w h i j.
Proof.
  intros Hsub. induction 1 as [Hi|j k _ IH Hadj Hk]; [constructor; auto|].
  eapply connected_step; eauto.
Qed.

(** A path stays inside [d1] when every cell reached from [i] is ink there. *)
Lemma connected_restrict d1 d2 i j :
  (forall k, connected d2 w h i k -> ink d1 k) ->
  connected d2 w h i j -> connected d1 w h i j.
Proof.
  intros Hin. induction 1 as [Hi|j k Hij IH Hadj Hk].
  - constructor. apply Hin. by constructor.
  - eapply connected_step; [exact IH|done|]. apply Hin. by eapply connected_step.
Qed.

(** ** The flood fill *)

Section Fill.

Variables (data seen0 : list Z) (i : Z).
Hypothesis data_size : Z.of_nat (length data) = w * h.
Hypothesis closed0 : unseenClosed data seen0 w h.

Lemma visit_fillInv seen stack idx n :
  fillInv data seen0 w h i seen stack -> idx ∈ stack ->
  (inBounds w h n = true -> adjacent w h idx (n.2 * w + n.1)) ->
  fillInv data seen0 w h i (visit data w h (seen, stack) n).1
                           (visit data w h (seen, stack) n).2 /\
  (exists new, (visit data w h (seen, stack) n).2 = stack ++ new) /\
  (inBounds w h n = true -> ink data (n.2 * w + n.1) ->
   n.2 * w + n.1 ∈ (visit data w h (seen, stack) n).2).
Proof.
  intros (Hnd & Hlen & Hconn & Hin & Hout) Hidx Hadj. unfold visit. cbn [fst snd].
  destruct (inBounds w h n) eqn:Hb; [|split; [done|split; [by exists []; rewrite app_nil_r|done]]].
  specialize (Hadj eq_refl). set (nIdx := n.2 * w + n.1) in *.
  destruct (Hconn idx Hidx) as [Hci Hs0].
  destruct (cellIs data nIdx 1 && cellIs seen nIdx 0) eqn:E; cbn [fst snd].
  - apply andb_true_iff in E as [Hd Hs]. apply cellIs_true in Hd, Hs.
    assert (Hnot : nIdx ∉ stack).
    { intros Hn. rewrite (Hin _ Hn) in Hs. discriminate. }
    assert (Hr : 0 <= nIdx < Z.of_nat (length seen)) by (by apply rd_range in Hs).
    split; [|split; [by eexists|intros _ _; apply elem_of_app; right; by constructor]].
    split; [|split; [by rewrite length_wr|split; [|split]]].
    + apply NoDup_app. split; [done|]. split; [|apply NoDup_singleton].
      intros k Hk Hk'. apply list_elem_of_singleton in Hk'. by subst.
    + intros k [Hk|Hk]%elem_of_app; [by apply Hconn|].
      apply list_elem_of_singleton in Hk as ->. split.
      * by eapply connected_step.
      * rewrite <- (Hout _ Hnot). done.
    + intros k [Hk|Hk]%elem_of_app.
      * rewrite rd_wr_ne; [by apply Hin|]. intros ->. done.
      * apply list_elem_of_singleton in Hk as ->. by apply rd_wr_eq.
    + intros k Hk. rewrite rd_wr_ne.
      * apply Hout. intros Hk'. apply Hk. apply elem_of_app. by left.
      * intros ->. apply Hk. apply elem_of_app. right. by constructor.
  - split; [done|]. split; [by exists []; rewrite app_nil_r|].
    intros _ Hink. apply andb_false_iff in E as [E|E].
    + apply cellIs_false in E. done.
    + apply cellIs_false in E. destruct (decide (nIdx ∈ stack)) as [|Hn]; [done|].
      exfalso. apply E. rewrite (Hout _ Hn).
      apply (closed0 idx nIdx); try done. by destruct (connected_ink data i idx Hci).
Qed.

Lemma fold_visit_fillInv idx ns : forall seen stack,
  fillInv data seen0 w h i seen stack -> idx ∈ stack ->
  (forall n, n ∈ ns -> inBounds w h n = true -> adjacent w h idx (n.2 * w + n.1)) ->
  fillInv data seen0 w h i (fold_left (visit data w h) ns (seen, stack)).1
                           (fold_left (visit data w h) ns (seen, stack)).2 /\
  (exists new, (fold_left (visit data w h) ns (seen, stack)).2 = stack ++ new) /\
  (forall n, n ∈ ns -> inBounds w h n = true -> ink data (n.2 * w + n.1) ->
   n.2 * w + n.1 ∈ (fold_left (visit data w h) ns (seen, stack)).2).
Proof.
  induction ns as [|n ns IH]; intros seen stack Hinv Hidx Hadj.
  - split; [done|]. split; [by exists []; rewrite app_nil_r|].
    intros n Hn. by apply elem_of_nil in Hn.
  - cbn [fold_left].
    destruct (visit_fillInv seen stack idx n Hinv Hidx) as (Hinv1 & [new1 Hnew1] & Hn1).
    { apply Hadj. by constructor. }
    destruct (visit data w h (seen, stack) n) as [seen1 stack1]. cbn [fst snd] in *.
    destruct (IH seen1 stack1 Hinv1) as (Hinv2 & [new2 Hnew2] & Hn2).
    { rewrite Hnew1. apply elem_of_app. by left. }
    { intros n' Hn'. apply Hadj. by constructor. }
    split; [done|]. split.
    + exists (new1 ++ new2). by rewrite Hnew2, Hnew1, app_assoc.
    + intros n' [->|Hn']%elem_of_cons Hb Hink.
      * rewrite Hnew2. apply elem_of_app. left. by apply Hn1.
      * by apply Hn2.
Qed.

Lemma fillInv_length seen stack :
  fillInv data seen0 w h i seen stack -> (length stack <= length data)%nat.
Proof.
  intros (Hnd & _ & Hconn & _).
  assert (Hsub : stack ⊆+ seqZ 0 (w * h)).
  { apply NoDup_submseteq; [done|]. intros k Hk. apply elem_of_seqZ.
    destruct (Hconn k Hk) as [Hc _]. destruct (connected_ink data i k Hc) as [_ Hink].
    apply rd_range in Hink. lia. }
  apply submseteq_length in Hsub. rewrite length_seqZ in Hsub. lia.
Qed.

Lemma floodFill_inv : forall fuel seen stack ptr,
  fillInv data seen0 w h i seen stack ->
  (ptr <= length stack)%nat ->
  closedBelow data w h ptr stack ->
  (length data <= fuel + ptr)%nat ->
  fillInv data seen0 w h i (floodFill fuel data w h seen stack ptr).1.1
                           (floodFill fuel data w h seen stack ptr).1.2 /\
  (floodFill fuel data w h seen stack ptr).2 =
    length (floodFill fuel data w h seen stack ptr).1.2 /\
  closedBelow data w h (floodFill fuel data w h seen stack ptr).2
                       (floodFill fuel data w h seen stack ptr).1.2 /\
  exists new, (floodFill fuel data w h seen stack ptr).1.2 = stack ++ new.
Proof.
  induction fuel as [|fuel IH]; intros seen stack ptr Hinv Hptr Hcl Hfuel.
  - pose proof (fillInv_length seen stack Hinv). cbn [floodFill fst snd].
    split; [done|]. split; [lia|]. split; [done|]. by exists []; rewrite app_nil_r.
  - cbn [floodFill]. destruct (stack !! ptr) as [idx|] eqn:Eidx.
    + assert (Hidx : idx ∈ stack) by (by eapply list_elem_of_lookup_2).
      destruct Hinv as (Hnd & Hlen & Hconn & Hin & Hout).
      destruct (Hconn idx Hidx) as [Hci _].
      destruct (connected_ink data i idx Hci) as [_ Hink].
      assert (Hr : 0 <= idx < w * h) by (apply rd_range in Hink; lia).
      destruct (fold_visit_fillInv idx (neighbors (idx mod w) (idx / w)) seen stack)
        as (Hinv' & [new Hnew] & Hall).
      { done. } { done. }
      { intros n Hn Hb. apply neighbors_adjacent; [done|]. by exists n. }
      destruct (fold_left (visit data w h) (neighbors (idx mod w) (idx / w)) (seen, stack))
        as [seen' stack']. cbn [fst snd] in *.
      destruct (IH seen' stack' (S ptr)) as (H1 & H2 & H3 & [new' Hnew']).
      * done.
      * apply lookup_lt_Some in Eidx. rewrite Hnew, length_app. lia.
      * intros m k k' Hm Hk Hadj Hk'.
        destruct (decide (m = ptr)) as [->|Hne].
        -- rewrite Hnew, lookup_app_l in Hk by (by eapply lookup_lt_Some).
           rewrite Eidx in Hk. injection Hk as <-.
           apply neighbors_adjacent in Hadj as (n & Hn & Hb & ->); [|done].
           by apply Hall.
        -- assert (Hlt : (m < ptr)%nat) by lia.
           rewrite Hnew in Hk. rewrite lookup_app_l in Hk
             by (apply lookup_lt_Some in Eidx; lia).
           rewrite Hnew. apply elem_of_app. left. by eapply Hcl.
      * lia.
      * split; [done|]. split; [done|]. split; [done|].
        exists (new ++ new'). by rewrite Hnew', Hnew, app_assoc.
    + apply lookup_ge_None in Eidx. cbn [fst snd].
      split; [done|]. split; [lia|]. split; [done|]. by exists []; rewrite app_nil_r.
Qed.

(** The flood fill from an unseen ink cell [i] collects the component of
    [i], counts it, and marks exactly its cells. *)
Lemma floodFill_component :
  ink data i -> rd seen0 i = Some 0 -> length seen0 = length data ->
  let r := floodFill (length data) data w h (wr seen0 i 1) [i] 0 in
  component data w h i r.1.2 /\
  r.2 = length r.1.2 /\
  length r.1.1 = length data /\
  (forall k, k ∈ r.1.2 -> rd r.1.1 k = Some 1) /\
  (forall k, k ∉ r.1.2 -> rd r.1.1 k = rd seen0 k).
Proof.
  intros Hi Hi0 Hlen0 r.
  assert (Hr0 : 0 <= i < Z.of_nat (length seen0)) by (by apply rd_range in Hi0).
  destruct (floodFill_inv (length data) (wr seen0 i 1) [i] 0)
    as ((Hnd & Hlen & Hconn & Hin & Hout) & Hcount & Hcl & [new Hnew]).
  - split; [apply NoDup_singleton|]. split; [by rewrite length_wr|].
    split; [|split].
    + intros k ->%list_elem_of_singleton. split; [by constructor|done].
    + intros k ->%list_elem_of_singleton. by apply rd_wr_eq.
    + intros k Hk. apply rd_wr_ne. intros ->. apply Hk. by constructor.
  - simpl. lia.
  - intros m k k' Hm. lia.
  - lia.
  - fold r in Hnd, Hlen, Hconn, Hin, Hout, Hcount, Hcl, Hnew.
    split; [|done]. split; [done|]. intros j. split; [by intros Hj; apply Hconn|].
    induction 1 as [_|j k Hij IH Hadj Hk].
    + rewrite Hnew. by constructor.
    + apply list_elem_of_lookup in IH as [m Hm].
      apply (Hcl m j k); try done. rewrite Hcount. by eapply lookup_lt_Some.
Qed.

End Fill.

(** Every ink cell has a component, with a list of its cells. *)
Lemma component_exists data i :
  Z.of_nat (length data) = w * h -> ink data i ->
  exists comp, component data w h i comp.
Proof.
  intros Hsize Hi.
  assert (Hz : forall k, 0 <= k < Z.of_nat (length data) ->
                 rd (replicate (length data) 0) k = Some 0).
  { intros k Hk. unfold rd. destruct (k <? 0) eqn:E; [apply Z.ltb_lt in E; lia|].
    apply lookup_replicate. split; [done|lia]. }
  destruct (floodFill_component data (replicate (length data) 0) i Hsize) as [Hcomp _].
  - intros k k' (_ & Hk' & _) _ _ _. apply Hz. lia.
  - done.
  - apply Hz. by apply rd_range in Hi.
  - apply length_replicate.
  - eauto.
Qed.


(** ** Clearing a component *)

Lemma length_zeroAll idxs : forall data, length (zeroAll data idxs) = length data.
Proof.
  induction idxs as [|k idxs IH]; intros data; [done|].
  unfold zeroAll in *. cbn [fold_left]. by rewrite IH, length_wr.
Qed.

Lemma zeroAll_out idxs : forall data k, k ∉ idxs -> rd (zeroAll data idxs) k = rd data k.
Proof.
  induction idxs as [|j idxs IH]; intros data k Hk; [done|].
  unfold zeroAll in *. cbn [fold_left]. rewrite IH.
  - apply rd_wr_ne. intros ->. apply Hk. by constructor.
  - intros Hk'. apply Hk. by constructor.
Qed.

Lemma zeroAll_in idxs : forall data k,
  0 <= k < Z.of_nat (length data) -> k ∈ idxs -> rd (zeroAll data idxs) k = Some 0.
Proof.
  induction idxs as [|j idxs IH]; intros data k Hr Hk; [by apply elem_of_nil in Hk|].
  unfold zeroAll in *. cbn [fold_left].
  destruct (decide (k ∈ idxs)) as [Hin|Hnot].
  - apply IH; [by rewrite length_wr|done].
  - apply elem_of_cons in Hk as [->|Hk]; [|done].
    fold (zeroAll (wr data j 0) idxs). rewrite zeroAll_out by done. by apply rd_wr_eq.
Qed.

(** ** The outer loop *)

Lemma component_same data i k comp comp' :
  component data w h i comp -> component data w h k comp' ->
  connected data w h i k -> length comp' = length comp.
Proof.
  intros [Hnd Hc] [Hnd' Hc'] Hik. apply Permutation_length, NoDup_Permutation; try done.
  intros j. rewrite Hc, Hc'. split; intros Hj.
  - by eapply connected_trans.
  - eapply connected_trans; [by apply connected_sym|done].
Qed.

Lemma component_member data i j comp :
  component data w h i comp -> j ∈ comp -> component data w h j comp.
Proof.
  intros [Hnd Hc] Hj. apply Hc in Hj. split; [done|]. intros k. rewrite Hc. split; intros Hk.
  - eapply connected_trans; [by apply connected_sym|done].
  - by eapply connected_trans.
Qed.

Section Outer.

Variables (data0 : list Z) (minSize : Z).
Hypothesis data0_size : Z.of_nat (length data0) = w * h.

Lemma despeckleInv_start :
  despeckleInv data0 w h minSize 0 data0 (replicate (length data0) 0).
Proof.
  assert (Hrep : forall k v, rd (replicate (length data0) 0) k = Some v -> v = 0).
  { intros k v. unfold rd. destruct (k <? 0); [done|].
    intros [-> _]%lookup_replicate. done. }
  split; [done|]. split; [apply length_replicate|]. split; [by left|].
  split; [intros k j Hc _; by destruct (connected_ink data0 k j Hc)|].
  split.
  { intros k k' (_ & Hk' & _) _ _ _.
    destruct (rd_is_Some (replicate (length data0) 0) k') as [v Hv].
    - rewrite length_replicate. lia.
    - by rewrite Hv, (Hrep _ _ Hv). }
  split; [intros k v Hv; left; by eapply Hrep|].
  split; [intros k Hk; lia|].
  split; [intros k comp Hk; by apply Hrep in Hk|done].
Qed.

Lemma despeckleAt_inv i data seen :
  0 <= i < w * h ->
  despeckleInv data0 w h minSize i data seen ->
  despeckleInv data0 w h minSize (i + 1)
    (despeckleAt w h minSize (data, seen) i).1
    (despeckleAt w h minSize (data, seen) i).2.
Proof.
  intros Hi (Hld & Hls & Hb & Hc & Hcl & Hv & He & Hf & Hg).
  unfold despeckleAt. cbn [fst snd].
  destruct (cellIs data i 1 && cellIs seen i 0) eqn:E.
  2:{ cbn [fst snd]. repeat (split; [done|]). split; [|done].
      intros k Hk Hink. destruct (decide (k = i)) as [->|Hne]; [|apply He; [lia|done]].
      apply andb_false_iff in E as [E|E]; apply cellIs_false in E; [done|].
      destruct (rd_is_Some seen i) as [v Hv']; [lia|].
      destruct (Hv _ _ Hv') as [->| ->]; done. }
  apply andb_true_iff in E as [Hink Hseen]. apply cellIs_true in Hink, Hseen.
  assert (Hsub : forall k, ink data k -> ink data0 k).
  { intros k Hk. unfold ink in *. destruct (Hb k) as [Heq|[_ Hz]]; congruence. }
  destruct (floodFill_component data seen i ltac:(lia) Hcl Hink Hseen ltac:(lia))
    as (Hcomp & Hcount & Hlen' & Hin & Hout).
  set (r := floodFill (length data) data w h (wr seen i 1) [i] 0) in *.
  set (S := r.1.2) in *. set (seen' := r.1.1) in *.
  (* the component found in [data] is the component in [data0] *)
  assert (Hsame : forall j, connected data w h i j <-> connected data0 w h i j).
  { intros j. split; [by apply connected_mono|].
    apply connected_restrict. intros k Hk. by apply (Hc i k). }
  assert (Hcomp0 : component data0 w h i S).
  { destruct Hcomp as [Hnd HS]. split; [done|]. intros j. by rewrite HS, Hsame. }
  assert (HS : forall k, k ∈ S -> connected data0 w h i k /\ ink data k).
  { intros k Hk. apply Hcomp in Hk. split; [by apply Hsame|].
    by destruct (connected_ink data i k Hk). }
  assert (Hseen' : forall k v, rd seen' k = Some v -> v = 0 \/ v = 1).
  { intros k v Hk. destruct (decide (k ∈ S)) as [HkS|HkS].
    - rewrite (Hin k HkS) in Hk. injection Hk as <-. by right.
    - rewrite (Hout k HkS) in Hk. by eapply Hv. }
  assert (Hclosed' : forall data', (forall k, ink data' k -> ink data k) ->
            unseenClosed data' seen' w h).
  { intros data' Hsub' k k' Hadj Hk Hk' Hs.
    destruct (decide (k ∈ S)) as [HkS|HkS]; [rewrite (Hin k HkS) in Hs; discriminate|].
    rewrite (Hout k HkS) in Hs.
    destruct (decide (k' ∈ S)) as [Hk'S|Hk'S].
    - exfalso. apply HkS. apply Hcomp. apply (connected_step data w h i k' k).
      + by apply Hcomp.
      + by apply adjacent_sym.
      + by apply Hsub'.
    - rewrite (Hout k' Hk'S). apply (Hcl k k'); auto. }
  assert (Hprocessed : forall data', (forall k, ink data' k -> ink data k) ->
            forall k, 0 <= k < i + 1 -> ink data' k -> rd seen' k = Some 1).
  { intros data' Hsub' k Hk Hk'. destruct (decide (k ∈ S)) as [HkS|HkS]; [by apply Hin|].
    rewrite (Hout k HkS). apply He; [|by apply Hsub'].
    assert (k <> i); [|lia]. intros ->. apply HkS, Hcomp. by constructor. }
  destruct (Z.of_nat r.2 <? minSize) eqn:Esmall; cbn [fst snd].
  - (* a small component: cleared *)
    apply Z.ltb_lt in Esmall. rewrite Hcount in Esmall.
    assert (Hz_in : forall k, k ∈ S -> rd (zeroAll data S) k = Some 0).
    { intros k Hk. apply zeroAll_in; [|done]. destruct (HS k Hk) as [_ Hk'].
      by apply rd_range in Hk'. }
    assert (Hsub' : forall k, ink (zeroAll data S) k -> ink data k /\ k ∉ S).
    { intros k Hk. destruct (decide (k ∈ S)) as [HkS|HkS].
      - unfold ink in Hk. rewrite (Hz_in k HkS) in Hk. discriminate.
      - unfold ink in *. by rewrite zeroAll_out in Hk. }
    split; [by rewrite length_zeroAll|]. split; [lia|].
    split.
    { intros k. destruct (decide (k ∈ S)) as [HkS|HkS].
      - right. split; [|by apply Hz_in]. destruct (HS k HkS) as [_ Hk]. by apply Hsub.
      - rewrite zeroAll_out by done. apply Hb. }
    split.
    { intros k j Hkj Hk. destruct (Hsub' k Hk) as [Hk1 Hk2].
      assert (j ∉ S).
      { intros HjS. apply Hk2. apply Hcomp0.
        eapply connected_trans; [by apply Hcomp0|by apply connected_sym]. }
      unfold ink. rewrite zeroAll_out by done. by apply (Hc k j). }
    split; [apply Hclosed'; intros k Hk; by apply Hsub'|].
    split; [done|].
    split; [apply Hprocessed; intros k Hk; by apply Hsub'|].
    split.
    { intros k comp Hk Hcompk. destruct (decide (k ∈ S)) as [HkS|HkS].
      - destruct (HS k HkS) as [Hik _].
        rewrite (component_same data0 i k S comp Hcomp0 Hcompk Hik).
        split; [intros _; by apply Hz_in|lia].
      - rewrite zeroAll_out by done. rewrite (Hout k HkS) in Hk. by apply Hf. }
    intros k Hk. destruct (decide (k ∈ S)) as [HkS|HkS];
      [rewrite (Hin k HkS) in Hk; discriminate|].
    rewrite zeroAll_out by done. rewrite (Hout k HkS) in Hk. by apply Hg.
  - (* a large component: kept *)
    apply Z.ltb_ge in Esmall. rewrite Hcount in Esmall.
    split; [done|]. split; [lia|]. split; [done|]. split; [done|].
    split; [by apply Hclosed'|]. split; [done|].
    split; [by apply Hprocessed|].
    split.
    { intros k comp Hk Hcompk. destruct (decide (k ∈ S)) as [HkS|HkS].
      - destruct (HS k HkS) as [Hik Hkink].
        rewrite (component_same data0 i k S comp Hcomp0 Hcompk Hik).
        split; [lia|done].
      - rewrite (Hout k HkS) in Hk. by apply Hf. }
    intros k Hk. destruct (decide (k ∈ S)) as [HkS|HkS];
      [rewrite (Hin k HkS) in Hk; discriminate|].
    rewrite (Hout k HkS) in Hk. by apply Hg.
Qed.

Lemma despeckle_loop_inv (n : nat) :
  Z.of_nat n <= w * h ->
  despeckleInv data0 w h minSize (Z.of_nat n)
    (fold_left (despeckleAt w h minSize) (seqZ 0 (Z.of_nat n))
       (data0, replicate (length data0) 0)).1
    (fold_left (despeckleAt w h minSize) (seqZ 0 (Z.of_nat n))
       (data0, replicate (length data0) 0)).2.
Proof.
  induction n as [|n IH]; intros Hn.
  - apply despeckleInv_start.
  - rewrite seqZ_S, fold_left_app. cbn [fold_left]. rewrite Z.add_0_l.
    specialize (IH ltac:(lia)).
    destruct (fold_left _ (seqZ 0 (Z.of_nat n)) _) as [data seen]. cbn [fst snd] in IH.
    replace (Z.of_nat (Datatypes.S n)) with (Z.of_nat n + 1) by lia.
    apply despeckleAt_inv; [lia|done].
Qed.

Lemma despeckle_final :
  exists seen, despeckleInv data0 w h minSize (w * h)
                 (despeckleBitmask data0 w h minSize) seen.
Proof.
  unfold despeckleBitmask. eexists.
  rewrite <- data0_size at 1. apply despeckle_loop_inv. lia.
Qed.

End Outer.

End Grid.

(** ** Counting ink *)

Lemma rd_of_nat (arr : list Z) (n : nat) : rd arr (Z.of_nat n) = arr !! n.
Proof.
  unfold rd. destruct (Z.of_nat n <? 0) eqn:E; [apply Z.ltb_lt in E; lia|].
  by rewrite Nat2Z.id.
Qed.

Lemma inkCount_cleared (data out : list Z) :
  Forall2 (fun a b => b = a \/ (a = 1 /\ b = 0)) data out ->
  (inkCount out <= inkCount data)%nat.
Proof.
  unfold inkCount. induction 1 as [|a b data out Hab _ IH]; [done|].
  cbn [List.filter]. destruct Hab as [->|[-> ->]].
  - destruct (a =? 1); simpl; lia.
  - simpl. lia.
Qed.

(** C4.  On a [w] x [h] mask, despeckling clears every cell of a component
    with fewer than [minSize] cells and leaves every cell of a component
    with at least [minSize] cells as it was; afterwards every ink cell lies
    in a component of at least [minSize] cells, and the number of ink cells
    has not grown. *)
Theorem despeckle_components (data : list Z) (w h minSize : Z) :
  0 < w -> Z.of_nat (length data) = w * h ->
  let out := despeckleBitmask data w h minSize in
  length out = length data /\
  (forall i comp, ink data i -> component data w h i comp ->
     (Z.of_nat (length comp) < minSize -> forall j, j ∈ comp -> rd out j = Some 0) /\
     (minSize <= Z.of_nat (length comp) -> forall j, j ∈ comp -> rd out j = Some 1)) /\
  (forall i comp, ink out i -> component out w h i comp ->
     minSize <= Z.of_nat (length comp)) /\
  (inkCount out <= inkCount data)%nat.
Proof.
  intros Hw Hsize out.
  destruct (despeckle_final w h Hw data minSize Hsize)
    as (seen & Hld & Hls & Hb & Hc & Hcl & Hv & He & Hf & Hg).
  fold out in Hld, Hb, Hc, Hcl, He, Hf, Hg.
  assert (Hall : forall k, ink data k -> rd seen k = Some 1).
  { intros k Hk. pose proof (rd_range _ _ _ Hk) as Hr.
    destruct (rd_is_Some seen k) as [v Hv']; [lia|].
    destruct (Hv _ _ Hv') as [->| ->]; [|done].
    apply He; [lia|]. unfold ink. by rewrite (Hg k Hv'). }
  assert (Hsub : forall k, ink out k -> ink data k).
  { intros k Hk. unfold ink in *. destruct (Hb k) as [Heq|[_ Hz]]; congruence. }
  split; [done|]. split; [|split].
  - intros i comp Hi Hcomp.
    assert (Hj : forall j, j ∈ comp -> rd seen j = Some 1 /\ component data w h j comp).
    { intros j Hjc. split; [|by eapply component_member].
      apply Hall. apply Hcomp in Hjc. by destruct (connected_ink w h data i j Hjc). }
    split; intros Hlen j Hjc; destruct (Hj j Hjc) as [Hs Hcj];
      by apply (Hf j comp Hs Hcj).
  - intros i comp Hi [Hnd Hcomp].
    assert (Hcomp0 : component data w h i comp).
    { split; [done|]. intros j. rewrite Hcomp. split; [by apply connected_mono|].
      apply connected_restrict. intros k Hk. by apply (Hc i k). }
    destruct (Z_lt_le_dec (Z.of_nat (length comp)) minSize) as [Hlt|Hle]; [|done].
    destruct (Hf i comp (Hall i (Hsub i Hi)) Hcomp0) as [Hz _].
    unfold ink in Hi. rewrite (Hz Hlt) in Hi. discriminate.
  - apply inkCount_cleared. apply Forall2_same_length_lookup_2; [by rewrite Hld|].
    intros n a b Ha Hb'. rewrite <- rd_of_nat in Ha, Hb'.
    destruct (Hb (Z.of_nat n)) as [Heq|[H1 H0]].
    + left. congruence.
    + right. split; congruence.
Qed.

Lemma smallMask_component : component smallMask 5 3 0 [0; 5].
Proof.
  split.
  { apply NoDup_cons. split; [|apply NoDup_singleton].
    intros H%list_elem_of_singleton. discriminate. }
  intros j. split.
  - intros Hj. apply elem_of_cons in Hj as [->|Hj]; [by constructor|].
    apply list_elem_of_singleton in Hj as ->.
    apply (connected_step smallMask 5 3 0 0 5); [by constructor| |done].
    repeat split; lia.
  - induction 1 as [_|j k _ IH (Hj & Hk & Hadj) Hink]; [by constructor|].
    assert (Hcases : k = 0 \/ k = 3 \/ k = 4 \/ k = 5 \/ k = 9).
    { unfold ink, rd in Hink. destruct (k <? 0) eqn:E; [done|].
      apply Z.ltb_ge in E.
      assert (Hn : (Z.to_nat k < 15)%nat) by lia.
      destruct (Z.to_nat k) as [|[|[|[|[|[|[|[|[|[|[|[|[|[|[|n]]]]]]]]]]]]]]] eqn:En;
        simpl in Hink; try discriminate; lia. }
    apply elem_of_cons in IH as [->|IH].
    + simpl in Hadj. destruct Hadj as [[_ [->| ->]]|[->| ->]];
        try (decompose [or] Hcases; lia). repeat constructor.
    + apply list_elem_of_singleton in IH as ->.
      destruct Hadj as [[Hrow [->| ->]]|[->| ->]];
        try (decompose [or] Hcases; lia); try (by vm_compute in Hrow).
      constructor.
Qed.

Lemma despeckle_components_witness :
  0 < 5 /\ Z.of_nat (length smallMask) = 5 * 3 /\
  ink smallMask 0 /\ component smallMask 5 3 0 [0; 5] /\
  forall j, j ∈ [0; 5] -> rd (despeckleBitmask smallMask 5 3 3) j = Some 0.
Proof.
  assert (H0 : 0 < 5) by lia.
  assert (H1 : Z.of_nat (length smallMask) = 5 * 3) by reflexivity.
  assert (H2 : ink smallMask 0) by reflexivity.
  split; [exact H0|]. split; [exact H1|]. split; [exact H2|].
  split; [exact smallMask_component|].
  refine (proj1 (proj1 (proj2 (despeckle_components smallMask 5 3 3 H0 H1)) 0 [0; 5]
                   H2 smallMask_component) _).
  simpl. lia.
Defined.

End DespeckleFacts.

Module OrderFacts.
Import Tracer.
Local Open Scope Z_scope.

Lemma getMeta_Some s : nonEmpty s -> exists m, getMeta s = Some m /\ stroke m = s.
Proof.
  unfold nonEmpty, getMeta. destruct (points s) as [|p0 rest]; [done|].
  intros _. eexists. split; reflexivity.
Qed.

Lemma getMeta_stroke s m : getMeta s = Some m -> stroke m = s.
Proof.
  unfold getMeta. destruct (points s) as [|p0 rest]; [done|]. by intros [= <-].
Qed.

Lemma getMeta_nonEmpty s m : getMeta s = Some m -> nonEmpty s.
Proof. unfold getMeta, nonEmpty. by destruct (points s). Qed.

Lemma mapM_getMeta ss :
  Forall nonEmpty ss ->
  exists metas, mapM getMeta ss = Some metas /\ stroke <$> metas = ss.
Proof.
  induction 1 as [|s ss Hs _ (metas & Hm & Hst)].
  - by exists [].
  - destruct (getMeta_Some s Hs) as (m & Hg & Hsm).
    exists (m :: metas). split; [|by rewrite fmap_cons, Hsm, Hst].
    apply mapM_Some. constructor; [done|]. by apply mapM_Some.
Qed.

Lemma mapM_getMeta_stroke ss metas :
  mapM getMeta ss = Some metas -> stroke <$> metas = ss.
Proof.
  rewrite mapM_Some. induction 1 as [|s m ss metas Hg _ IH]; [done|].
  by rewrite fmap_cons, IH, (getMeta_stroke s m).
Qed.

(** The stable sort is a permutation. *)
Lemma insertMeta_perm m l : insertMeta m l ≡ₚ m :: l.
Proof.
  induction l as [|m' l IH]; [done|]. simpl.
  destruct (minX m <=? minX m'); [done|]. rewrite IH. apply Permutation_swap.
Qed.

Lemma sortPool_perm pool : sortPool pool ≡ₚ pool.
Proof.
  induction pool as [|m pool IH]; [done|]. simpl.
  by rewrite insertMeta_perm, IH.
Qed.

(** The candidate loop always finds a winner in a non-empty pool. *)
Lemma consider_idx useBias curr b i cand :
  (bestIdx (consider useBias curr b i cand) = Some i) \/
  (bestIdx (consider useBias curr b i cand) = bestIdx b /\
   is_Some (bestCost b) /\ is_Some (bestCost (consider useBias curr b i cand))).
Proof.
  unfold consider.
  repeat match goal with
  | |- context [if belowBest ?c ?b then _ else _] =>
      let E := fresh "E" in destruct (belowBest c b) eqn:E; simpl
  end; auto.
  right. split; [done|].
  assert (is_Some (bestCost b)).
  { unfold belowBest in *. destruct (bestCost b); [eauto|discriminate]. }
  done.
Qed.

Lemma considerAll_idx useBias curr pool : forall b i j,
  bestIdx (considerAll useBias curr b i pool) = Some j ->
  bestIdx b = Some j \/ (i <= j < i + length pool)%nat.
Proof.
  induction pool as [|cand pool IH]; intros b i j H; simpl in *; [by left|].
  apply IH in H as [H|H]; [|right; lia].
  destruct (consider_idx useBias curr b i cand) as [E|(E & _)].
  - rewrite E in H. injection H as <-. right. lia.
  - rewrite E in H. by left.
Qed.

Lemma considerAll_found useBias curr pool : forall b i,
  is_Some (bestCost b) -> is_Some (bestIdx b) ->
  is_Some (bestCost (considerAll useBias curr b i pool)) /\
  is_Some (bestIdx (considerAll useBias curr b i pool)).
Proof.
  induction pool as [|cand pool IH]; intros b i Hc Hi; simpl; [done|].
  apply IH.
  - unfold consider.
    repeat match goal with
    | |- context [if belowBest ?c ?b then _ else _] => destruct (belowBest c b); simpl
    end; eauto.
  - destruct (consider_idx useBias curr b i cand) as [E|(E & _)]; rewrite E; eauto.
Qed.

Lemma considerAll_noBest useBias curr cand pool :
  exists j, bestIdx (considerAll useBias curr noBest 0 (cand :: pool)) = Some j /\
            (j < length (cand :: pool))%nat.
Proof.
  destruct (considerAll_found useBias curr pool (consider useBias curr noBest 0 cand) 1)
    as (_ & j & Hj).
  - unfold consider.
    repeat match goal with
    | |- context [if belowBest ?c ?b then _ else _] =>
        let E := fresh "E" in destruct (belowBest c b) eqn:E; simpl
    end; eauto; discriminate.
  - destruct (consider_idx useBias curr noBest 0 cand) as [E|(_ & [c Hc] & _)];
      [rewrite E; eauto|discriminate].
  - exists j. split; [exact Hj|].
    simpl in Hj. apply considerAll_idx in Hj as [Hj|Hj]; [|simpl; lia].
    destruct (consider_idx useBias curr noBest 0 cand) as [E|(_ & [c Hc] & _)];
      [|discriminate].
    rewrite E in Hj. injection Hj as <-. simpl. lia.
Qed.

Lemma oriented_meta (b : bool) m :
  oriented (stroke m) (stroke (if b then reverseMeta m else m)).
Proof. destruct b; [by right|by left]. Qed.

Lemma solveLoop_rearranges useBias : forall fuel pool curr,
  (length pool <= fuel)%nat ->
  rearranges (stroke <$> pool) (solveLoop fuel useBias curr pool).
Proof.
  induction fuel as [|fuel IH]; intros pool curr Hlen.
  - destruct pool; [|simpl in Hlen; lia]. exists []. split; [done|constructor].
  - destruct pool as [|cand pool]; [exists []; split; [done|constructor]|].
    cbn [solveLoop].
    destruct (considerAll_noBest useBias curr cand pool) as (j & Hj & Hlt).
    rewrite Hj.
    destruct (lookup_lt_is_Some_2 (cand :: pool) j Hlt) as [winner0 Hw]. rewrite Hw.
    destruct (IH (delete j (cand :: pool))
                (if reverseBest (considerAll useBias curr noBest 0 (cand :: pool))
                 then reverseMeta winner0 else winner0)) as (l & Hperm & Hor).
    { rewrite length_delete by eauto. simpl in *. lia. }
    exists (stroke winner0 :: l). split.
    + rewrite (delete_Permutation (cand :: pool) j winner0 Hw) at 1.
      rewrite fmap_cons. by rewrite Hperm.
    + constructor; [apply oriented_meta|done].
Qed.

Lemma solve_rearranges ss useBias :
  Forall nonEmpty ss ->
  exists h, solve ss useBias = Some h /\ rearranges ss h.
Proof.
  intros Hne. destruct (mapM_getMeta ss Hne) as (metas & Hm & Hst).
  unfold solve. rewrite Hm. simpl.
  pose proof (sortPool_perm metas) as Hsort.
  destruct (sortPool metas) as [|first pool].
  - apply Permutation_nil_l in Hsort. subst metas. simpl in Hst. subst ss.
    exists []. split; [done|]. exists []. split; [done|constructor].
  - eexists. split; [reflexivity|].
    destruct (solveLoop_rearranges useBias (length pool) pool
      (if (px (end_ first) <? px (start first)) && (height first <? width first)
       then reverseMeta first else first) (le_n _)) as (l & Hperm & Hor).
    exists (stroke first :: l). split.
    + rewrite <- Hst, <- Hsort, fmap_cons. by rewrite Hperm.
    + constructor; [apply oriented_meta|done].
Qed.

Lemma oriented_nonEmpty s o : oriented s o -> nonEmpty s -> nonEmpty o.
Proof.
  unfold nonEmpty. intros [->| ->]; [done|]. simpl. intros H E.
  apply H. apply (f_equal (@rev RawPoint)) in E. by rewrite rev_involutive in E.
Qed.

Lemma rearranges_nonEmpty input out :
  rearranges input out -> Forall nonEmpty input -> Forall nonEmpty out.
Proof.
  intros (l & Hperm & Hor) Hne. rewrite Hperm in Hne. clear Hperm.
  induction Hor as [|s o l out Hso _ IH]; [constructor|].
  apply Forall_cons in Hne as [Hs Hl].
  constructor; [by eapply oriented_nonEmpty|by apply IH].
Qed.

Lemma rearranges_app input out deco :
  rearranges input out -> rearranges (input ++ deco) (out ++ deco).
Proof.
  intros (l & Hperm & Hor). exists (l ++ deco). split; [by rewrite Hperm|].
  apply Forall2_app; [done|]. apply Forall_Forall2_diag, Forall_forall. by left.
Qed.

Lemma getScore_cons s1 s2 rest :
  getScore (s1 :: s2 :: rest) =
  p1 ← last (points s1);
  p2 ← head (points s2);
  d ← getScore (s2 :: rest);
  Some (sqrt (IZR (distSq p1 p2)) + (if px p2 <? px p1 - 100 then 50 else 0) + d)%R.
Proof. reflexivity. Qed.

Lemma getScore_Some seq : Forall nonEmpty seq -> is_Some (getScore seq).
Proof.
  induction 1 as [|s1 seq H1 Hseq IH]; [by eexists|].
  destruct Hseq as [|s2 seq H2 Hseq]; [by eexists|].
  rewrite getScore_cons. destruct IH as [d Hd]. rewrite Hd.
  unfold nonEmpty in H1, H2.
  destruct (last (points s1)) as [p1|] eqn:E1; [|by apply last_None in E1].
  destruct (points s2) as [|p2 r2]; [done|]. simpl. by eexists.
Qed.

(** Filtering the records and filtering the strokes agree. *)
Lemma filter_metas (P : StrokeMeta -> bool) (Q : Stroke -> bool) ss metas :
  Forall2 (fun s m => getMeta s = Some m) ss metas ->
  (forall s m, getMeta s = Some m -> Q s = P m) ->
  stroke <$> List.filter P metas = List.filter Q ss.
Proof.
  intros HF HPQ. induction HF as [|s m ss metas Hg _ IH]; [done|].
  cbn [List.filter]. rewrite (HPQ s m Hg). destruct (P m); [|done].
  by rewrite fmap_cons, IH, (getMeta_stroke s m Hg).
Qed.

Lemma mainStrokes_filter ss metas :
  mapM getMeta ss = Some metas ->
  mainStrokes metas = List.filter (fun s => negb (isDecoration ss s)) ss.
Proof.
  intros Hm. unfold mainStrokes. apply filter_metas; [by apply mapM_Some|].
  intros s m Hg. unfold isDecoration. by rewrite Hm, Hg.
Qed.

Lemma underlineStrokes_filter ss metas :
  mapM getMeta ss = Some metas ->
  underlineStrokes metas = List.filter (isDecoration ss) ss.
Proof.
  intros Hm. unfold underlineStrokes. apply filter_metas; [by apply mapM_Some|].
  intros s m Hg. unfold isDecoration. by rewrite Hm, Hg.
Qed.

Lemma filter_split {A} (P : A -> bool) (l : list A) :
  l ≡ₚ List.filter (fun a => negb (P a)) l ++ List.filter P l.
Proof.
  induction l as [|a l IH]; [done|]. simpl. destruct (P a); simpl.
  - rewrite <- Permutation_middle. by constructor.
  - by constructor.
Qed.

Lemma Forall_filter_bool {A} (P : A -> Prop) (f : A -> bool) (l : list A) :
  Forall P l -> Forall P (List.filter f l).
Proof.
  induction 1 as [|a l Ha _ IH]; [constructor|]. simpl.
  destruct (f a); [by constructor|done].
Qed.

(** The two hypotheses and their scores exist for strokes with points. *)
Lemma hypotheses_exist ss :
  Forall nonEmpty ss ->
  exists metas h1 h2 s1 s2,
    mapM getMeta ss = Some metas /\
    solve (mainStrokes metas) false = Some h1 /\
    solve (mainStrokes metas) true = Some h2 /\
    getScore h1 = Some s1 /\ getScore h2 = Some s2 /\
    rearranges (mainStrokes metas) h1 /\ rearranges (mainStrokes metas) h2.
Proof.
  intros Hne. destruct (mapM_getMeta ss Hne) as (metas & Hm & _).
  assert (Hmain : Forall nonEmpty (mainStrokes metas)).
  { rewrite (mainStrokes_filter ss metas Hm). by apply Forall_filter_bool. }
  destruct (solve_rearranges _ false Hmain) as (h1 & Hh1 & Hr1).
  destruct (solve_rearranges _ true Hmain) as (h2 & Hh2 & Hr2).
  destruct (getScore_Some h1 (rearranges_nonEmpty _ _ Hr1 Hmain)) as [s1 Hs1].
  destruct (getScore_Some h2 (rearranges_nonEmpty _ _ Hr2 Hmain)) as [s2 Hs2].
  by exists metas, h1, h2, s1, s2.
Qed.

Lemma optimizeStrokeOrder_eq ss metas h1 h2 s1 s2 :
  ss <> [] ->
  mapM getMeta ss = Some metas ->
  solve (mainStrokes metas) false = Some h1 ->
  solve (mainStrokes metas) true = Some h2 ->
  getScore h1 = Some s1 -> getScore h2 = Some s2 ->
  optimizeStrokeOrder ss = Some (bestMain h1 h2 s1 s2 ++ underlineStrokes metas).
Proof.
  intros Hne Hm Hh1 Hh2 Hs1 Hs2. unfold optimizeStrokeOrder.
  destruct ss as [|s ss]; [done|].
  rewrite Hm. simpl. rewrite Hh1. simpl. rewrite Hh2. simpl.
  rewrite Hs1. simpl. rewrite Hs2. done.
Qed.

(** A stroke without points makes the solver raise. *)
Lemma order_raises_without_points (ss : list Stroke) :
  ss <> [] -> ~ Forall nonEmpty ss -> optimizeStrokeOrder ss = None.
Proof.
  intros Hnil Hne. unfold optimizeStrokeOrder. destruct ss as [|s ss]; [done|].
  destruct (mapM getMeta (s :: ss)) as [metas|] eqn:Em; [|done].
  exfalso. apply Hne. apply mapM_Some in Em.
  apply Forall_forall. intros s' Hs'.
  apply list_elem_of_lookup in Hs' as [i Hi].
  destruct (Forall2_lookup_l _ _ _ _ _ Em Hi) as (m & _ & Hm).
  by eapply getMeta_nonEmpty.
Qed.

(** C10.  For strokes that have points, the solver returns every input
    stroke exactly once, as it was or reversed; the strokes classified as
    decorations come last, unchanged and in their original order, after a
    rearrangement of the other strokes. *)
Theorem order_is_rearrangement (ss : list Stroke) :
  Forall nonEmpty ss ->
  exists mains,
    optimizeStrokeOrder ss = Some (mains ++ List.filter (isDecoration ss) ss) /\
    rearranges (List.filter (fun s => negb (isDecoration ss s)) ss) mains /\
    rearranges ss (mains ++ List.filter (isDecoration ss) ss).
Proof.
  intros Hne. destruct ss as [|s0 ss0] eqn:Ess.
  { exists []. repeat split; exists []; split; [done|constructor|done|constructor]. }
  rewrite <- Ess in *.
  destruct (hypotheses_exist ss Hne)
    as (metas & h1 & h2 & s1 & s2 & Hm & Hh1 & Hh2 & Hs1 & Hs2 & Hr1 & Hr2).
  exists (bestMain h1 h2 s1 s2).
  rewrite <- (underlineStrokes_filter ss metas Hm).
  rewrite (mainStrokes_filter ss metas Hm) in Hr1, Hr2.
  assert (Hr : rearranges (List.filter (fun s => negb (isDecoration ss s)) ss)
                 (bestMain h1 h2 s1 s2)).
  { unfold bestMain. by destruct (Rlt_dec _ _). }
  split; [|split; [done|]].
  - apply optimizeStrokeOrder_eq; try done. by rewrite Ess.
  - apply (rearranges_app _ _ (underlineStrokes metas)) in Hr.
    destruct Hr as (l & Hperm & Hor). exists l. split; [|done].
    rewrite <- Hperm, (underlineStrokes_filter ss metas Hm). apply filter_split.
Qed.

Lemma order_is_rearrangement_witness :
  Forall nonEmpty threeStrokes /\
  exists mains,
    optimizeStrokeOrder threeStrokes =
      Some (mains ++ List.filter (isDecoration threeStrokes) threeStrokes) /\
    rearranges (List.filter (fun s => negb (isDecoration threeStrokes s)) threeStrokes)
      mains /\
    rearranges threeStrokes
      (mains ++ List.filter (isDecoration threeStrokes) threeStrokes).
Proof.
  assert (H : Forall nonEmpty threeStrokes) by (repeat constructor; discriminate).
  split; [exact H|]. exact (order_is_rearrangement threeStrokes H).
Defined.

(** C1, as the code has it.  The biased sequence is returned whenever its
    score is strictly below 1.3 times the score of the neutral sequence,
    also when it scores higher than the neutral one; otherwise the neutral
    sequence is returned.  The decorations follow in both cases. *)
Theorem biased_unless_much_worse (ss : list Stroke) :
  ss <> [] -> Forall nonEmpty ss ->
  let mains := List.filter (fun s => negb (isDecoration ss s)) ss in
  let decos := List.filter (isDecoration ss) ss in
  exists h1 h2 s1 s2,
    solve mains false = Some h1 /\ solve mains true = Some h2 /\
    getScore h1 = Some s1 /\ getScore h2 = Some s2 /\
    ((s2 < s1 * 1.3)%R -> optimizeStrokeOrder ss = Some (h2 ++ decos)) /\
    (~ (s2 < s1 * 1.3)%R -> optimizeStrokeOrder ss = Some (h1 ++ decos)).
Proof.
  intros Hnil Hne mains decos.
  destruct (hypotheses_exist ss Hne)
    as (metas & h1 & h2 & s1 & s2 & Hm & Hh1 & Hh2 & Hs1 & Hs2 & _).
  exists h1, h2, s1, s2.
  pose proof (optimizeStrokeOrder_eq ss metas h1 h2 s1 s2 Hnil Hm Hh1 Hh2 Hs1 Hs2) as Heq.
  rewrite (underlineStrokes_filter ss metas Hm) in Heq. fold decos in Heq.
  rewrite (mainStrokes_filter ss metas Hm) in Hh1, Hh2. fold mains in Hh1, Hh2.
  repeat split; try done; intros Hlt; rewrite Heq; unfold bestMain;
    by destruct (Rlt_dec _ _).
Qed.

Lemma biased_unless_much_worse_witness :
  threeStrokes <> [] /\ Forall nonEmpty threeStrokes /\
  exists h1 h2 s1 s2,
    solve (List.filter (fun s => negb (isDecoration threeStrokes s)) threeStrokes) false
      = Some h1 /\
    solve (List.filter (fun s => negb (isDecoration threeStrokes s)) threeStrokes) true
      = Some h2 /\
    getScore h1 = Some s1 /\ getScore h2 = Some s2 /\
    ((s2 < s1 * 1.3)%R ->
       optimizeStrokeOrder threeStrokes =
         Some (h2 ++ List.filter (isDecoration threeStrokes) threeStrokes)) /\
    (~ (s2 < s1 * 1.3)%R ->
       optimizeStrokeOrder threeStrokes =
         Some (h1 ++ List.filter (isDecoration threeStrokes) threeStrokes)).
Proof.
  assert (H0 : threeStrokes <> []) by discriminate.
  assert (H : Forall nonEmpty threeStrokes) by (repeat constructor; discriminate).
  split; [exact H0|]. split; [exact H|].
  exact (biased_unless_much_worse threeStrokes H0 H).
Defined.

Lemma sqrt_IZR_square (n : Z) : (0 <= n)%Z -> sqrt (IZR (n * n)) = IZR n.
Proof. intros Hn. rewrite mult_IZR. apply sqrt_square. by apply IZR_le. Qed.

(** On [threeStrokes] the neutral order is A, C reversed, B and scores
    [50 + 130 = 180]; the biased order is A, B, C and scores
    [50 + 130 + 50 = 230]. *)
Lemma threeStrokes_hypotheses :
  mapM getMeta threeStrokes <> None /\
  List.filter (fun s => negb (isDecoration threeStrokes s)) threeStrokes = threeStrokes /\
  List.filter (isDecoration threeStrokes) threeStrokes = [] /\
  solve threeStrokes false = Some [strokeA; reverseStroke strokeC; strokeB] /\
  solve threeStrokes true = Some [strokeA; strokeB; strokeC] /\
  getScore [strokeA; reverseStroke strokeC; strokeB] = Some 180%R /\
  getScore [strokeA; strokeB; strokeC] = Some 230%R.
Proof.
  split; [by vm_compute|]. split; [by vm_compute|]. split; [by vm_compute|].
  split; [by vm_compute|]. split; [by vm_compute|].
  split.
  - change (getScore [strokeA; reverseStroke strokeC; strokeB]) with
      (Some (sqrt (IZR (50 * 50)) + 0 + (sqrt (IZR (130 * 130)) + 0 + 0))%R).
    rewrite !sqrt_IZR_square by lia. f_equal. lra.
  - change (getScore [strokeA; strokeB; strokeC]) with
      (Some (sqrt (IZR (50 * 50)) + 0 + (sqrt (IZR (130 * 130)) + 50 + 0))%R).
    rewrite !sqrt_IZR_square by lia. f_equal. lra.
Qed.

(** C1 as stated fails: on [threeStrokes] the neutral sequence scores
    lower (180 against 230) and the biased score does not exceed 1.3 times
    the neutral one (234), yet the biased sequence is returned. *)
Lemma biased_returned_with_higher_score :
  exists h1 h2 s1 s2,
    solve threeStrokes false = Some h1 /\ solve threeStrokes true = Some h2 /\
    getScore h1 = Some s1 /\ getScore h2 = Some s2 /\
    (s1 < s2)%R /\ (s2 <= s1 * 1.3)%R /\ h1 <> h2 /\
    optimizeStrokeOrder threeStrokes = Some h2.
Proof.
  destruct threeStrokes_hypotheses as (Hm & Hmain & Hdeco & Hh1 & Hh2 & Hs1 & Hs2).
  exists [strokeA; reverseStroke strokeC; strokeB], [strokeA; strokeB; strokeC],
    180%R, 230%R.
  split; [exact Hh1|]. split; [exact Hh2|]. split; [exact Hs1|]. split; [exact Hs2|].
  split; [lra|]. split; [lra|]. split; [discriminate|].
  destruct (mapM getMeta threeStrokes) as [metas|] eqn:Em; [|contradiction].
  pose proof (mainStrokes_filter _ _ Em) as Hms. rewrite Hmain in Hms.
  pose proof (underlineStrokes_filter _ _ Em) as Hus. rewrite Hdeco in Hus.
  rewrite <- Hms in Hh1, Hh2.
  rewrite (optimizeStrokeOrder_eq threeStrokes metas _ _ _ _ ltac:(discriminate)
             Em Hh1 Hh2 Hs1 Hs2).
  rewrite Hus, app_nil_r. unfold bestMain. destruct (Rlt_dec _ _); [done|lra].
Qed.

End OrderFacts.

Module PostProcessFacts.
Import Tracer.
Local Open Scope Z_scope.

Lemma simplifyLoop_last rest : forall prev curr,
  last (simplifyLoop prev curr rest) = last (curr :: rest).
Proof.
  induction rest as [|next rest IH]; intros prev curr; [done|].
  cbn [simplifyLoop]. destruct (deviates prev curr next).
  - rewrite !last_cons, IH. rewrite last_cons. by destruct (last rest).
  - rewrite IH. rewrite !last_cons. by destruct (last rest).
Qed.

(** C7.  Whatever the jitter-filtered points are, the simplified stroke
    starts with their first point and ends with their last point. *)
Theorem simplification_keeps_endpoints (jitterFreePoints : list RawPoint) :
  head (finalPoints jitterFreePoints) = head jitterFreePoints /\
  last (finalPoints jitterFreePoints) = last jitterFreePoints.
Proof.
  destruct jitterFreePoints as [|p0 [|p1 rest]]; [done|done|].
  split; [done|]. cbn [finalPoints].
  rewrite last_cons, simplifyLoop_last. rewrite !last_cons. by destruct (last rest).
Qed.

End PostProcessFacts.

Module WalkerFacts.
Import Tracer.
Local Open Scope Z_scope.

(** ** Loops bounded by a counter *)

Lemma while_iter {S : Type} (cond : S -> bool) (body : S -> S) : forall n fuel s,
  (n <= fuel)%nat ->
  (forall k, (k < n)%nat -> cond (Nat.iter k body s) = true) ->
  cond (Nat.iter n body s) = false ->
  while fuel cond body s = Nat.iter n body s.
Proof.
  induction n as [|n IH]; intros fuel s Hle Htrue Hfalse.
  - simpl in Hfalse. destruct fuel; simpl; [done|]. by rewrite Hfalse.
  - destruct fuel as [|fuel]; [lia|]. cbn [while].
    pose proof (Htrue 0%nat ltac:(lia)) as H0. simpl in H0. rewrite H0.
    rewrite Nat.iter_succ_r in Hfalse. rewrite Nat.iter_succ_r.
    apply IH; [lia| |done].
    intros k Hk. rewrite <- Nat.iter_succ_r. apply Htrue. lia.
Qed.

Section CounterLoop.

Context {S : Type}.
Variables (cond : S -> bool) (body : S -> S) (counter : S -> Z) (limit : Z).
Hypothesis guard : forall s, cond s = true -> counter s < limit.
Hypothesis counts : forall s, counter (body s) = counter s + 1.

Lemma counter_iter n s : counter (Nat.iter n body s) = counter s + Z.of_nat n.
Proof.
  induction n as [|n IH]; [simpl; lia|]. simpl Nat.iter. rewrite counts, IH. lia.
Qed.

(** The loop leaves after some number [n] of iterations, and [n] is at
    most what the counter still allows. *)
Lemma counter_loop_stops : forall m s,
  limit - counter s <= Z.of_nat m ->
  exists n, (n <= m)%nat /\
    cond (Nat.iter n body s) = false /\
    (forall k, (k < n)%nat -> cond (Nat.iter k body s) = true).
Proof.
  induction m as [|m IH]; intros s Hm.
  - exists 0%nat. split; [lia|]. split; [|intros k Hk; lia].
    simpl. destruct (cond s) eqn:E; [|done]. apply guard in E. lia.
  - destruct (cond s) eqn:E.
    + destruct (IH (body s)) as (n & Hn & Hf & Ht); [rewrite counts; lia|].
      exists (Datatypes.S n). split; [lia|]. rewrite Nat.iter_succ_r. split; [done|].
      intros [|k] Hk; [done|]. rewrite Nat.iter_succ_r. apply Ht. lia.
    + exists 0%nat. split; [lia|]. split; [done|]. intros k Hk; lia.
Qed.

End CounterLoop.

Lemma walk_stops img visited startIdx :
  exists n, Z.of_nat n <= 10000 /\
    walkCond (Nat.iter n (walkBody img) (walkStart img visited startIdx)) = false /\
    (forall k, (k < n)%nat ->
       walkCond (Nat.iter k (walkBody img) (walkStart img visited startIdx)) = true) /\
    traceStroke img visited startIdx =
      Nat.iter n (walkBody img) (walkStart img visited startIdx).
Proof.
  destruct (counter_loop_stops walkCond (walkBody img) strokeSafety SAFETY_LIMIT)
    with (m := Z.to_nat SAFETY_LIMIT) (s := walkStart img visited startIdx)
    as (n & Hn & Hf & Ht).
  - intros s. unfold walkCond. intros [_ H]%andb_true_iff. by apply Z.ltb_lt.
  - done.
  - simpl. unfold SAFETY_LIMIT. lia.
  - exists n. unfold SAFETY_LIMIT in Hn. split; [lia|]. split; [done|]. split; [done|].
    by apply while_iter.
Qed.

Lemma seek_stops img visited :
  exists n, Z.of_nat n <= 10000 /\
    seekCond (Nat.iter n (seekBody img) (seekStart visited)) = false /\
    (forall k, (k < n)%nat ->
       seekCond (Nat.iter k (seekBody img) (seekStart visited)) = true) /\
    extractStrokes img visited = Nat.iter n (seekBody img) (seekStart visited).
Proof.
  destruct (counter_loop_stops seekCond (seekBody img) safetyCounter SAFETY_LIMIT)
    with (m := Z.to_nat SAFETY_LIMIT) (s := seekStart visited)
    as (n & Hn & Hf & Ht).
  - intros s. unfold seekCond. intros [_ H]%andb_true_iff. by apply Z.ltb_lt.
  - intros s. unfold seekBody. by destruct (scan _ _).2.
  - simpl. unfold SAFETY_LIMIT. lia.
  - exists n. unfold SAFETY_LIMIT in Hn. split; [lia|]. split; [done|]. split; [done|].
    by apply while_iter.
Qed.

(** C9.  On every mask the stroke-seeking loop is left after at most 10000
    iterations, and so is every per-stroke walk it starts: the loop
    condition holds before each of the [n <= 10000] iterations and fails
    after the last one, and the extraction is the state reached then. *)
Theorem extraction_terminates (img : ImageData) (visited : list Z) :
  (exists n, Z.of_nat n <= 10000 /\
     seekCond (Nat.iter n (seekBody img) (seekStart visited)) = false /\
     (forall k, (k < n)%nat ->
        seekCond (Nat.iter k (seekBody img) (seekStart visited)) = true) /\
     extractStrokes img visited = Nat.iter n (seekBody img) (seekStart visited)) /\
  (forall (v : list Z) (startIdx : Z),
     exists n, Z.of_nat n <= 10000 /\
       walkCond (Nat.iter n (walkBody img) (walkStart img v startIdx)) = false /\
       (forall k, (k < n)%nat ->
          walkCond (Nat.iter k (walkBody img) (walkStart img v startIdx)) = true) /\
       traceStroke img v startIdx =
         Nat.iter n (walkBody img) (walkStart img v startIdx)).
Proof.
  split; [apply seek_stops|]. intros v startIdx. apply walk_stops.
Qed.

(** ** Recorded thickness *)

Section Rays.

Variables (img : ImageData) (visited : list Z) (cx cy : Z).

Lemma rayLength_spec d : forall fuel r0,
  r0 <= rayLength fuel img visited cx cy d r0 <= r0 + Z.of_nat fuel /\
  (forall r, r0 <= r < rayLength fuel img visited cx cy d r0 ->
     stopped img visited cx cy d r = false) /\
  (rayLength fuel img visited cx cy d r0 < r0 + Z.of_nat fuel ->
   stopped img visited cx cy d (rayLength fuel img visited cx cy d r0) = true).
Proof.
  induction fuel as [|fuel IH]; intros r0; cbn [rayLength].
  - split; [lia|]. split; intros; lia.
  - destruct (stopped img visited cx cy d r0) eqn:E.
    + split; [lia|]. split; [intros; lia|done].
    + destruct (IH (r0 + 1)) as (Hr & Hno & Hhit).
      split; [lia|]. split.
      * intros r Hr'. destruct (decide (r = r0)) as [->|]; [done|]. apply Hno. lia.
      * intros Hlt. apply Hhit. lia.
Qed.

Lemma hit_dirs r :
  existsb (hitsBackground img visited) (rayCells cx cy r) =
  stopped img visited cx cy (1, 0) r || stopped img visited cx cy (-1, 0) r ||
  stopped img visited cx cy (0, 1) r || stopped img visited cx cy (0, -1) r.
Proof.
  unfold stopped, rayCells. cbn [existsb fst snd].
  replace (cx + r * 1) with (cx + r) by lia. replace (cy + r * 0) with cy by lia.
  replace (cx + r * -1) with (cx - r) by lia. replace (cx + r * 0) with cx by lia.
  replace (cy + r * 1) with (cy + r) by lia. replace (cy + r * -1) with (cy - r) by lia.
  by rewrite orb_false_r, !orb_assoc.
Qed.

Lemma raycast_first : forall n a m,
  a <= m < a + Z.of_nat n ->
  existsb (hitsBackground img visited) (rayCells cx cy m) = true ->
  (forall r, a <= r < m ->
     existsb (hitsBackground img visited) (rayCells cx cy r) = false) ->
  raycast img visited cx cy (seqZ a (Z.of_nat n)) = m.
Proof.
  induction n as [|n IH]; intros a m Hm Hhit Hno; [lia|].
  rewrite seqZ_cons by lia. cbn [raycast].
  destruct (decide (a = m)) as [->|Hne]; [by rewrite Hhit|].
  rewrite Hno by lia.
  replace (Z.pred (Z.of_nat (S n))) with (Z.of_nat n) by lia.
  apply IH; [lia|done|]. intros r Hr. apply Hno. lia.
Qed.

(** Within the range of the loop the recorded radius is the length of the
    shortest ray. *)
Lemma radius_in_range :
  0 <= cx < pWidth img -> 0 <= pHeight img ->
  shortestRay img visited cx cy < 20 ->
  radiusAt img visited cx cy = shortestRay img visited cx cy.
Proof.
  intros Hcx Hh. unfold shortestRay, radiusAt.
  set (F := Z.to_nat (pWidth img + pHeight img)).
  destruct (rayLength_spec (1, 0) F 1) as (Hr1 & Hn1 & Hs1).
  destruct (rayLength_spec (-1, 0) F 1) as (Hr2 & Hn2 & Hs2).
  destruct (rayLength_spec (0, 1) F 1) as (Hr3 & Hn3 & Hs3).
  destruct (rayLength_spec (0, -1) F 1) as (Hr4 & Hn4 & Hs4).
  set (L1 := rayLength F img visited cx cy (1, 0) 1) in *.
  set (L2 := rayLength F img visited cx cy (-1, 0) 1) in *.
  set (L3 := rayLength F img visited cx cy (0, 1) 1) in *.
  set (L4 := rayLength F img visited cx cy (0, -1) 1) in *.
  (* the ray to the right is stopped by the border *)
  assert (Hright : L1 <= pWidth img - cx).
  { destruct (decide (L1 <= pWidth img - cx)) as [|Hgt]; [done|]. exfalso.
    specialize (Hn1 (pWidth img - cx) ltac:(lia)).
    unfold stopped, hitsBackground in Hn1. cbn [fst snd] in Hn1.
    replace (pWidth img <=? cx + (pWidth img - cx) * 1) with true in Hn1
      by (symmetry; apply Z.leb_le; lia).
    by rewrite orb_true_r in Hn1. }
  intros Hlt.
  set (M := Z.min (Z.min L1 L2) (Z.min L3 L4)) in *.
  change 19 with (Z.of_nat 19).
  apply raycast_first.
  - lia.
  - rewrite hit_dirs.
    assert (HM : M = L1 \/ M = L2 \/ M = L3 \/ M = L4) by lia.
    assert (HF : M < 1 + Z.of_nat F) by lia.
    destruct HM as [HM|[HM|[HM|HM]]]; rewrite HM in *.
    + rewrite Hs1 by lia. done.
    + rewrite Hs2 by lia. by rewrite orb_true_r.
    + rewrite Hs3 by lia. by rewrite orb_true_r.
    + rewrite Hs4 by lia. by rewrite !orb_true_r.
  - intros r Hr. rewrite hit_dirs.
    rewrite Hn1, Hn2, Hn3, Hn4 by lia. done.
Qed.

End Rays.

Lemma strokePoints_iter img n : forall s,
  strokePoints s `prefix_of` strokePoints (Nat.iter n (walkBody img) s).
Proof.
  induction n as [|n IH]; intros s; [done|].
  rewrite Nat.iter_succ_r. etrans; [|apply IH]. by apply prefix_app_r.
Qed.

Lemma strokePoints_stable img n m s i p :
  (n <= m)%nat ->
  strokePoints (Nat.iter n (walkBody img) s) !! i = Some p ->
  strokePoints (Nat.iter m (walkBody img) s) !! i = Some p.
Proof.
  intros Hle Hp. replace m with ((m - n) + n)%nat by lia. rewrite Nat.iter_add.
  by eapply prefix_lookup_Some; [|apply strokePoints_iter].
Qed.

(** The mask computed from [crossImage] is the cross itself: its 81 cells
    form one component, which despeckling keeps. *)
Lemma crossMask_eq : crossMask = crossCells.
Proof. vm_compute. reflexivity. Qed.

(** C5 fails on [crossImage].  The walk starts at cell 20, the top of the
    column; its sixth step is taken at (20, 20), where the four rays meet
    no background before the border, 21 cells away, but the loop over
    [r < 20] leaves [radius] at its initial value 1: the point recorded has
    the thickness of radius 1. *)
Theorem thick_region_radius :
  let s5 := Nat.iter 5 (walkBody crossImage) (walkStart crossImage crossMask 20) in
  (scan crossMask 0).2 = Some 20 /\
  round (currentPos s5).1 = 20 /\ round (currentPos s5).2 = 20 /\
  shortestRay crossImage (walkVisited s5) 20 20 = 21 /\
  radiusAt crossImage (walkVisited s5) 20 20 = 1 /\
  exists p, strokePoints (traceStroke crossImage crossMask 20) !! 5%nat = Some p /\
            pz p = Some (thicknessNorm crossImage 1).
Proof.
  intros s5. subst s5. rewrite crossMask_eq.
  split; [by vm_compute|]. split; [by vm_compute|]. split; [by vm_compute|].
  split; [by vm_compute|]. split; [by vm_compute|].
  destruct (walk_stops crossImage crossCells 20) as (n & _ & Hf & Ht & ->).
  assert (Hc : forall k, (k < 6)%nat ->
    walkCond (Nat.iter k (walkBody crossImage) (walkStart crossImage crossCells 20)) = true).
  { intros k Hk. do 6 (destruct k as [|k]; [vm_compute; reflexivity|]). lia. }
  assert (Hn : (6 <= n)%nat).
  { destruct (decide (6 <= n)%nat) as [|Hlt]; [done|].
    rewrite Hc in Hf by lia. discriminate. }
  assert (H6 : exists p,
    strokePoints (Nat.iter 6 (walkBody crossImage) (walkStart crossImage crossCells 20))
      !! 5%nat = Some p /\ pz p = Some (thicknessNorm crossImage 1)).
  { eexists. split; vm_compute; reflexivity. }
  destruct H6 as (p & Hp & Hz). exists p. split; [|done].
  by apply (strokePoints_stable crossImage 6 n).
Qed.

(** ** A mask without ink *)

Lemma cellIs_zeros data i : Forall (fun v => v = 0) data -> cellIs data i 1 = false.
Proof.
  intros H. unfold cellIs, rd. destruct (i <? 0); [done|].
  destruct (data !! Z.to_nat i) as [v|] eqn:E; [|done].
  rewrite Forall_lookup in H. by rewrite (H _ _ E).
Qed.

Lemma despeckle_zeros data w h minSize :
  Forall (fun v => v = 0) data -> despeckleBitmask data w h minSize = data.
Proof.
  intros H. unfold despeckleBitmask.
  generalize (seqZ 0 (Z.of_nat (length data))) (replicate (length data) 0).
  intros idxs. induction idxs as [|i idxs IH]; intros seen; [done|].
  cbn [fold_left]. unfold despeckleAt at 2. cbn [fst snd].
  rewrite (cellIs_zeros data i H). simpl. apply IH.
Qed.

Lemma scan_zeros l : forall g, Forall (fun v => v = 0) l -> (scan l g).2 = None.
Proof.
  induction l as [|v l IH]; intros g H; [done|].
  apply Forall_cons in H as [-> H]. simpl. by apply IH.
Qed.

Lemma extract_zeros img visited :
  Forall (fun v => v = 0) visited ->
  rawStrokes (extractStrokes img visited) = [] /\
  seekVisited (extractStrokes img visited) = visited.
Proof.
  intros H. unfold extractStrokes.
  assert (Hbody : seekBody img (seekStart visited) =
    {| active := false; safetyCounter := 1;
       globalSearchIdx := (scan visited 0).1;
       seekVisited := visited; rawStrokes := [] |}).
  { unfold seekBody, seekStart. cbn [globalSearchIdx seekVisited safetyCounter rawStrokes].
    change (Z.to_nat 0) with 0%nat. rewrite drop_0. cbv zeta.
    by rewrite (scan_zeros visited 0 H). }
  rewrite (while_iter seekCond (seekBody img) 1).
  - simpl. by rewrite Hbody.
  - unfold SAFETY_LIMIT. lia.
  - intros k Hk. assert (k = 0%nat) as -> by lia. done.
  - simpl. by rewrite Hbody.
Qed.

(** The canvas has cells: [getImageData] does not throw. *)
Lemma canvas_readable img :
  0 < pWidth img -> 0 < pHeight img -> (pWidth img =? 0) || (pHeight img =? 0) = false.
Proof.
  intros Hw Hh. apply orb_false_iff. split; apply Z.eqb_neq; lia.
Qed.

(** Without a column or without a row there is no mask: the promise
    rejects, whatever the image. *)
Lemma flat_canvas_rejects img :
  pWidth img = 0 \/ pHeight img = 0 -> analyzeSignatureLocal img = Rejected.
Proof.
  intros H. unfold analyzeSignatureLocal.
  destruct H as [-> | ->]; [done|]. by rewrite orb_true_r.
Qed.

(** C8.  On a canvas that has cells, so that there is a mask: when the
    threshold leaves no ink in the mask, the walker finds no raw stroke and
    the analysis resolves with an empty list of strokes. *)
Theorem blank_image_resolves (img : ImageData) :
  0 < pWidth img -> 0 < pHeight img ->
  Forall (fun v => v = 0) (thresholdMask img) ->
  rawStrokes (extractStrokes img
    (despeckleBitmask (thresholdMask img) (pWidth img) (pHeight img) 20)) = [] /\
  analyzeSignatureLocal img =
    Resolved {| strokes := []; original_size := (imgWidth img, imgHeight img) |}.
Proof.
  intros Hw Hh H. unfold analyzeSignatureLocal. rewrite (canvas_readable img Hw Hh).
  rewrite (despeckle_zeros _ _ _ _ H).
  destruct (extract_zeros img _ H) as [Hraw _]. rewrite Hraw. done.
Qed.

Lemma blank_image_resolves_witness :
  0 < pWidth whiteImage /\ 0 < pHeight whiteImage /\
  Forall (fun v => v = 0) (thresholdMask whiteImage) /\
  analyzeSignatureLocal whiteImage =
    Resolved {| strokes := []; original_size := (2, 2) |}.
Proof.
  assert (Hw : 0 < pWidth whiteImage) by (simpl; lia).
  assert (Hh : 0 < pHeight whiteImage) by (simpl; lia).
  assert (H : Forall (fun v => v = 0) (thresholdMask whiteImage))
    by (repeat constructor).
  split; [exact Hw|]. split; [exact Hh|]. split; [exact H|].
  exact (proj2 (blank_image_resolves whiteImage Hw Hh H)).
Defined.

End WalkerFacts.

Module PlannerFacts.
Import Planner.
Local Open Scope R_scope.

(** ** Totality and shape of the point filter *)

Lemma filterRedundantPoints_cons p0 rest :
  exists rest', filterRedundantPoints (p0 :: rest) = p0 :: rest'.
Proof.
  destruct rest as [|p1 rest]; [by exists []|].
  unfold filterRedundantPoints.
  destruct (Req_dec_T _ _); [destruct (Req_dec_T _ _)|]; eauto.
Qed.

Lemma processedPoints_cons w h s :
  (2 <= length (points s))%nat ->
  exists p0 rest, processedPoints w h s = p0 :: rest.
Proof.
  unfold processedPoints. destruct (points s) as [|r0 rs]; simpl; [lia|].
  intros _. destruct (filterRedundantPoints_cons (mapPoint w h r0) (mapPoint w h <$> rs))
    as [rest' E].
  eauto.
Qed.

(** ** Segment durations *)














(** ** Pen lift between consecutive strokes *)

Lemma emitted_cons s ss : emitted (s :: ss) = emitted [s] ++ emitted ss.
Proof. unfold emitted. simpl. by destruct (negb _). Qed.

Lemma planStroke_linked w h style st idx s es :
  linked w h st es ->
  linked w h (planStroke w h style st idx s) (es ++ emitted [s]).
Proof.
  intros (Hlen & Hlast & Hgap). unfold planStroke, emitted. simpl.
  destruct (length (points s) <? 2)%nat eqn:E; simpl.
  { rewrite app_nil_r. done. }
  apply Nat.ltb_ge in E.
  destruct (processedPoints_cons w h s E) as (p0 & rest & Hpp). rewrite Hpp.
  destruct (traverse w style None p0 rest (penLift (prevEndPos st) p0 (currentTime st)))
    as [pts tEnd] eqn:Etr.
  split; [|split]; simpl.
  - rewrite !length_app. simpl. lia.
  - rewrite last_snoc. exists (List.last rest p0). eexists. rewrite Hpp.
    repeat split; [|by rewrite last_snoc|done].
    rewrite last_lookup. simpl. apply last_lookup_default.
  - intros i s1 s2 p1 p2 e f Hs1 Hs2 Hp1 Hp2 He Hf.
    assert (Hi : (S i < length (es ++ [s]))%nat) by (eapply lookup_lt_Some; eauto).
    rewrite length_app in Hi. simpl in Hi.
    destruct (decide (S i < length es)%nat) as [Hlt|Hge].
    + rewrite lookup_app_l in Hs1 by lia. rewrite lookup_app_l in Hs2 by lia.
      rewrite lookup_app_l in Hp1 by lia. rewrite lookup_app_l in Hp2 by lia.
      eauto.
    + assert (S i = length es) as Hi' by lia.
      rewrite lookup_app_l in Hs1 by lia. rewrite lookup_app_l in Hp1 by lia.
      rewrite lookup_app_r in Hs2 by lia. rewrite lookup_app_r in Hp2 by lia.
      replace (S i - length es)%nat with 0%nat in Hs2 by lia.
      replace (S i - length (paths st))%nat with 0%nat in Hp2 by lia.
      injection Hs2 as <-. injection Hp2 as <-. simpl.
      rewrite Hpp in Hf. injection Hf as <-.
      assert (Hl1 : last es = Some s1) by (rewrite last_lookup, <- Hi'; exact Hs1).
      rewrite Hl1 in Hlast. destruct Hlast as (e' & pl & He' & Hprev & Hpl & Hend).
      rewrite He in He'. injection He' as <-.
      assert (pl = p1) as ->.
      { rewrite last_lookup, Hlen, <- Hi' in Hpl. simpl in Hpl. congruence. }
      rewrite Hprev, Hend. reflexivity.
Qed.

Lemma planStrokes_linked w h style ss : forall st idx es,
  linked w h st es ->
  linked w h (planStrokes w h style st idx ss) (es ++ emitted ss).
Proof.
  induction ss as [|s ss IH]; intros st idx es Hl; cbn [planStrokes].
  - unfold emitted. simpl. by rewrite app_nil_r.
  - rewrite emitted_cons, app_assoc. apply IH. by apply planStroke_linked.
Qed.

Lemma initialState_linked w h : linked w h initialState [].
Proof.
  split; [done|]. split; [done|]. intros i s1 s2 p1 p2 e f H. destruct i; discriminate.
Qed.


Lemma liftTime_31 : liftTime 31 = 65.5.
Proof. unfold liftTime, Rmin. destruct (Rle_dec _ _); lra. Qed.

(** C6.  For two consecutive emitted strokes, [e] the last mapped point of
    the earlier one and [f] the first mapped point of the later one: at a
    distance of 29 px the later path starts exactly when the earlier one
    ended, and at 31 px it starts [min (31 * 0.5) 250 + 50 = 65.5] ms later. *)
Theorem pen_lift_threshold (data : SignatureAnalysis) (w h : R)
    (style : option StyleObject) (i : nat) (s1 s2 : Stroke)
    (p1 p2 : StrokePath) (e f : MappedPoint) :
  emitted (strokes data) !! i = Some s1 ->
  emitted (strokes data) !! S i = Some s2 ->
  generateMotionPlan w h style data !! i = Some p1 ->
  generateMotionPlan w h style data !! S i = Some p2 ->
  last (processedPoints w h s1) = Some e ->
  head (processedPoints w h s2) = Some f ->
  (dist (xy f) (xy e) = 29 -> startTime p2 = endTime p1) /\
  (dist (xy f) (xy e) = 31 -> startTime p2 = jadd (endTime p1) (Fin 65.5)).
Proof.
  intros Hs1 Hs2 Hp1 Hp2 He Hf.
  destruct (planStrokes_linked w h style (strokes data) initialState 0 []
              (initialState_linked w h)) as (_ & _ & Hgap).
  specialize (Hgap i s1 s2 p1 p2 e f Hs1 Hs2 Hp1 Hp2 He Hf).
  rewrite Hgap. unfold liftedStart. split; intros ->.
  - destruct (Rgt_dec 29 30); [lra|done].
  - destruct (Rgt_dec 31 30); [|lra]. by rewrite liftTime_31.
Qed.

(** A two-point stroke whose mapped points are apart is kept as it is. *)
Lemma processedPoints_pair w h a c :
  (mx (mapPoint w h c) - mx (mapPoint w h a)) ^ 2 +
  (my (mapPoint w h c) - my (mapPoint w h a)) ^ 2 > 0.1 ->
  processedPoints w h {| points := [a; c] |} = [mapPoint w h a; mapPoint w h c].
Proof.
  intros Hd. unfold processedPoints, filterRedundantPoints. cbn [points fmap list_fmap filterLoop].
  destruct (Rgt_dec _ _) as [_|Hn]; [|contradiction].
  cbn [List.last]. destruct (Req_dec_T _ _); [|done]. destruct (Req_dec_T _ _); done.
Qed.

Lemma processedPoints_hstroke x1 x2 :
  (1 <= x2 - x1)%Z ->
  processedPoints 10000 10000 (hstroke x1 x2) =
  [mapPoint 10000 10000 (mkRawPoint x1 0 None None);
   mapPoint 10000 10000 (mkRawPoint x2 0 None None)].
Proof.
  intros Hx. apply processedPoints_pair. unfold mapPoint, SCALE_FACTOR. simpl.
  apply IZR_le in Hx. rewrite minus_IZR in Hx. nra.
Qed.

Lemma pen_lift_threshold_witness :
  let data := {| strokes := [hstroke 0 100; hstroke 131 200]; original_size := (0, 0)%Z |} in
  exists p1 p2,
    generateMotionPlan 10000 10000 None data !! 0%nat = Some p1 /\
    generateMotionPlan 10000 10000 None data !! 1%nat = Some p2 /\
    startTime p2 = jadd (endTime p1) (Fin 65.5).
Proof.
  intros data.
  destruct (planStrokes_linked 10000 10000 None (strokes data) initialState 0 []
              (initialState_linked 10000 10000)) as (Hlen & _ & _).
  fold (generateMotionPlan 10000 10000 None data) in Hlen.
  destruct (lookup_lt_is_Some_2 (generateMotionPlan 10000 10000 None data) 0) as [p1 Hp1].
  { rewrite Hlen. simpl. lia. }
  destruct (lookup_lt_is_Some_2 (generateMotionPlan 10000 10000 None data) 1) as [p2 Hp2].
  { rewrite Hlen. simpl. lia. }
  exists p1, p2. split; [done|]. split; [done|].
  refine (proj2 (pen_lift_threshold data 10000 10000 None 0 (hstroke 0 100) (hstroke 131 200)
            p1 p2 (mapPoint 10000 10000 (mkRawPoint 100 0 None None))
            (mapPoint 10000 10000 (mkRawPoint 131 0 None None)) _ _ Hp1 Hp2 _ _) _).
  - reflexivity.
  - reflexivity.
  - rewrite processedPoints_hstroke by lia. reflexivity.
  - rewrite processedPoints_hstroke by lia. reflexivity.
  - unfold dist, xy, mapPoint, SCALE_FACTOR. simpl.
    replace (_ + _) with (31 * 31) by lra. apply sqrt_square. lra.
Defined.

(** ** Missing style fields *)


















End PlannerFacts.

Module PointFacts.
Import Tracer.
Local Open Scope Z_scope.

(** Linear arithmetic over [Q], integers seen as opaque rationals. *)
Ltac qlra :=
  repeat match goal with
  | H : context [inject_Z ?z] |- _ =>
      let x := fresh "x" in set (x := inject_Z z) in *; clearbody x
  | |- context [inject_Z ?z] =>
      let x := fresh "x" in set (x := inject_Z z) in *; clearbody x
  end;
  Lqa.lra.

(** ** Rounding *)

Lemma round_between (lo hi : Z) (q : Q) :
  (inject_Z lo <= q)%Q -> (q <= inject_Z hi)%Q -> lo <= round q <= hi.
Proof.
  intros Hlo Hhi. unfold round. split.
  - rewrite <- (Qfloor_Z lo). apply Qfloor_resp_le. qlra.
  - assert (H : (inject_Z (Qfloor (q + (1 # 2))) < inject_Z (hi + 1))%Q).
    { eapply Qle_lt_trans; [apply Qfloor_le|]. rewrite inject_Z_plus.
      change (inject_Z 1) with 1%Q. qlra. }
    rewrite <- Zlt_Qlt in H. lia.
Qed.

Lemma smooth3_between (lo hi a b c : Z) :
  lo <= a <= hi -> lo <= b <= hi -> lo <= c <= hi ->
  lo <= round (smooth3 (inject_Z a) (inject_Z b) (inject_Z c)) <= hi.
Proof.
  intros [Ha Ha'] [Hb Hb'] [Hc Hc'].
  rewrite Zle_Qle in Ha, Ha', Hb, Hb', Hc, Hc'.
  apply round_between; unfold smooth3, tenth, eightTenths; qlra.
Qed.

(** ** Smoothing *)

Lemma smoothLoop_length rest : forall prev curr,
  length (smoothLoop prev curr rest) = S (length rest).
Proof. induction rest as [|n rest IH]; intros prev curr; simpl; [done|]. by rewrite IH. Qed.

Lemma smoothLoop_last rest : forall prev curr,
  last (smoothLoop prev curr rest) = last (curr :: rest).
Proof.
  induction rest as [|n rest IH]; intros prev curr; [done|].
  cbn [smoothLoop]. rewrite last_cons, IH, !last_cons. by destruct (last rest).
Qed.

Lemma smoothLoop_inBox lo hi rest : forall prev curr,
  inBox lo hi prev -> inBox lo hi curr -> Forall (inBox lo hi) rest ->
  Forall (inBox lo hi) (smoothLoop prev curr rest).
Proof.
  induction rest as [|n rest IH]; intros prev curr Hp Hc Hr; cbn [smoothLoop].
  - by constructor.
  - apply Forall_cons in Hr as [Hn Hr]. constructor; [|by apply IH].
    destruct Hp, Hc, Hn. split; by apply smooth3_between.
Qed.

(** X1.  Smoothing keeps the number of points and leaves the first and the
    last point of a stroke where they were. *)
Theorem smoothPoints_anchors (pts : list RawPoint) :
  length (smoothPoints pts) = length pts /\
  head (smoothPoints pts) = head pts /\
  last (smoothPoints pts) = last pts.
Proof.
  destruct pts as [|p0 [|p1 [|p2 rest]]]; try done.
  cbn [smoothPoints]. split; [|split; [done|]].
  - cbn [length]. by rewrite smoothLoop_length.
  - rewrite last_cons, smoothLoop_last. rewrite !last_cons. by destruct (last rest).
Qed.

(** X2.  Smoothing never moves a point out of the box that holds the
    stroke: when every coordinate of the input lies in [lo .. hi], so does
    every coordinate of the output. *)
Theorem smoothPoints_inBox (lo hi : Z) (pts : list RawPoint) :
  Forall (inBox lo hi) pts -> Forall (inBox lo hi) (smoothPoints pts).
Proof.
  intros H. destruct pts as [|p0 [|p1 [|p2 rest]]]; try done.
  cbn [smoothPoints]. apply Forall_cons in H as [H0 H]. constructor; [done|].
  apply Forall_cons in H as [H1 H]. by apply smoothLoop_inBox.
Qed.

Lemma smoothPoints_inBox_witness :
  Forall (inBox 0 10000) diagonal /\ Forall (inBox 0 10000) (smoothPoints diagonal).
Proof.
  assert (H : Forall (inBox 0 10000) diagonal).
  { repeat constructor; simpl; lia. }
  split; [exact H|]. exact (smoothPoints_inBox 0 10000 diagonal H).
Defined.

(** ** Subsequences *)

Lemma jitterLoop_sublist rest : forall prev curr,
  jitterLoop prev curr rest `sublist_of` curr :: rest.
Proof.
  induction rest as [|n rest IH]; intros prev curr; cbn [jitterLoop]; [done|].
  destruct (isSpike prev curr n).
  - apply sublist_cons, IH.
  - apply sublist_skip, IH.
Qed.

Lemma jitterLoop_last rest : forall prev curr,
  last (jitterLoop prev curr rest) = last (curr :: rest).
Proof.
  induction rest as [|n rest IH]; intros prev curr; [done|].
  cbn [jitterLoop]. destruct (isSpike prev curr n).
  - rewrite IH, !last_cons. by destruct (last rest).
  - rewrite last_cons, IH, !last_cons. by destruct (last rest).
Qed.

Lemma jitterPass_spec p0 p1 rest :
  jitterPass (p0 :: p1 :: rest) `sublist_of` p0 :: p1 :: rest /\
  head (jitterPass (p0 :: p1 :: rest)) = Some p0 /\
  last (jitterPass (p0 :: p1 :: rest)) = last (p0 :: p1 :: rest).
Proof.
  cbn [jitterPass]. split; [apply sublist_skip, jitterLoop_sublist|]. split; [done|].
  rewrite last_cons, jitterLoop_last, !last_cons. by destruct (last rest).
Qed.

Lemma jitterLoop_length rest : forall prev curr,
  (1 <= length (jitterLoop prev curr rest))%nat.
Proof.
  induction rest as [|n rest IH]; intros prev curr; cbn [jitterLoop]; [simpl; lia|].
  destruct (isSpike prev curr n); [apply IH|simpl; lia].
Qed.

Lemma filterJitter_spec (pts : list RawPoint) :
  filterJitter pts `sublist_of` pts /\
  head (filterJitter pts) = head pts /\
  last (filterJitter pts) = last pts.
Proof.
  unfold filterJitter. destruct (length pts <? 3)%nat eqn:E; [done|].
  apply Nat.ltb_ge in E.
  destruct pts as [|p0 [|p1 rest]]; [simpl in E; lia|simpl in E; lia|].
  destruct (jitterPass_spec p0 p1 rest) as (Hs1 & Hh1 & Hl1).
  destruct (length (jitterPass (p0 :: p1 :: rest)) <? 3)%nat eqn:E1; [done|].
  apply Nat.ltb_ge in E1.
  destruct (jitterPass (p0 :: p1 :: rest)) as [|q0 [|q1 rest1]] eqn:Ec;
    [simpl in E1; lia|simpl in E1; lia|].
  destruct (jitterPass_spec q0 q1 rest1) as (Hs2 & Hh2 & Hl2).
  split; [by etrans|]. split; [|by rewrite Hl2].
  rewrite Hh2. exact Hh1.
Qed.

(** X3.  The jitter filter only drops points: its output is a subsequence
    of its input with the same first point and the same last point. *)
Theorem filterJitter_subsequence (pts : list RawPoint) :
  filterJitter pts `sublist_of` pts /\
  head (filterJitter pts) = head pts /\
  last (filterJitter pts) = last pts.
Proof. apply filterJitter_spec. Qed.

Lemma simplifyLoop_sublist rest : forall prev curr,
  simplifyLoop prev curr rest `sublist_of` curr :: rest.
Proof.
  induction rest as [|n rest IH]; intros prev curr; cbn [simplifyLoop]; [done|].
  destruct (deviates prev curr n).
  - apply sublist_skip, IH.
  - apply sublist_cons, IH.
Qed.

Lemma finalPoints_sublist p0 p1 rest :
  finalPoints (p0 :: p1 :: rest) `sublist_of` p0 :: p1 :: rest.
Proof. cbn [finalPoints]. apply sublist_skip, simplifyLoop_sublist. Qed.

Lemma simplifyLoop_length rest : forall prev curr,
  (1 <= length (simplifyLoop prev curr rest))%nat.
Proof.
  induction rest as [|n rest IH]; intros prev curr; cbn [simplifyLoop]; [simpl; lia|].
  destruct (deviates prev curr n); [simpl; lia|apply IH].
Qed.

Lemma dedupLoop_sublist rest : forall prev, dedupLoop prev rest `sublist_of` rest.
Proof.
  induction rest as [|p rest IH]; intros prev; cbn [dedupLoop]; [done|].
  destruct (100 <? distSq p prev); [apply sublist_skip|apply sublist_cons]; apply IH.
Qed.

Lemma deduped_sublist pts : deduped pts `sublist_of` pts.
Proof. destruct pts as [|p0 rest]; [done|]. apply sublist_skip, dedupLoop_sublist. Qed.

Lemma deduped_head pts : head (deduped pts) = head pts.
Proof. by destruct pts. Qed.

Lemma onInkLoop_sublist img visited rest : forall curr,
  onInkLoop img visited curr rest `sublist_of` curr :: rest.
Proof.
  induction rest as [|n rest IH]; intros curr; cbn [onInkLoop]; [done|].
  destruct (onInk img visited curr); [apply sublist_skip|apply sublist_cons]; apply IH.
Qed.

Lemma onInkPoints_sublist img visited pts :
  onInkPoints img visited pts `sublist_of` pts.
Proof.
  destruct pts as [|p0 [|p1 rest]]; [done|done|].
  cbn [onInkPoints]. apply sublist_skip, onInkLoop_sublist.
Qed.

Lemma onInkPoints_head img visited pts :
  head (onInkPoints img visited pts) = head pts.
Proof. by destruct pts as [|p0 [|p1 rest]]. Qed.

End PointFacts.

Module StrokeFacts.
Import Tracer PointFacts OrderFacts.
Local Open Scope Z_scope.

(** ** Merging *)

Lemma mergeLoop_spec rest : forall cur,
  nonEmpty cur -> Forall nonEmpty rest ->
  exists m ms,
    mergeLoop cur rest = Some (m :: ms) /\
    head (points m) = head (points cur) /\
    concat (points <$> (m :: ms)) = points cur ++ concat (points <$> rest) /\
    Forall nonEmpty (m :: ms) /\ gapsWide (m :: ms).
Proof.
  induction rest as [|next rest IH]; intros cur Hcur Hrest.
  - exists cur, []. split; [done|]. split; [done|]. split; [done|].
    split; [by repeat constructor|]. intros [|i] a b p q Ha Hb; discriminate.
  - apply Forall_cons in Hrest as [Hnext Hrest]. cbn [mergeLoop].
    unfold nonEmpty in Hcur, Hnext.
    destruct (last (points cur)) as [lastPt|] eqn:El; [|by apply last_None in El].
    destruct (points next) as [|firstPt nrest] eqn:En; [done|]. simpl.
    destruct (distSq lastPt firstPt <? MERGE_THRESHOLD_SQ) eqn:E.
    + destruct (IH {| points := points cur ++ firstPt :: nrest |})
        as (m & ms & Hm & Hh & Hc & Hne & Hg); [|done|].
      { unfold nonEmpty. simpl. by destruct (points cur). }
      exists m, ms. split; [done|]. split.
      { rewrite Hh. simpl. by destruct (points cur). }
      split; [|done]. simpl in Hc |- *. rewrite Hc, En. by rewrite <- app_assoc.
    + apply Z.ltb_ge in E.
      destruct (IH next) as (m & ms & Hm & Hh & Hc & Hne & Hg); [unfold nonEmpty; by rewrite En|done|].
      rewrite Hm. simpl. exists cur, (m :: ms). split; [done|]. split; [done|].
      split; [|split].
      * simpl in Hc |- *. by rewrite Hc.
      * constructor; [done|done].
      * intros [|i] a b p q Ha Hb Hp Hq.
        -- injection Ha as <-. injection Hb as <-.
           rewrite El in Hp. injection Hp as <-.
           rewrite Hh, En in Hq. injection Hq as <-. done.
        -- by apply (Hg i a b p q).
Qed.

Lemma mergedStrokes_spec (ordered : list Stroke) :
  Forall nonEmpty ordered ->
  exists merged,
    mergedStrokes ordered = Some merged /\
    concat (points <$> merged) = concat (points <$> ordered) /\
    Forall nonEmpty merged /\ gapsWide merged.
Proof.
  intros H. destruct ordered as [|s rest].
  - exists []. split; [done|]. split; [done|]. split; [constructor|].
    intros i a b p q Ha. destruct i; discriminate.
  - apply Forall_cons in H as [Hs Hrest].
    destruct (mergeLoop_spec rest s Hs Hrest) as (m & ms & Hm & _ & Hc & Hne & Hg).
    by exists (m :: ms).
Qed.

(** X4.  Merging strokes that all have points never raises and loses
    nothing: the merged strokes carry the same points in the same order,
    none of them is empty, and two that follow each other are at least 300
    units apart (end point to start point). *)
Theorem merge_keeps_points (ordered : list Stroke) :
  Forall nonEmpty ordered ->
  exists merged,
    mergedStrokes ordered = Some merged /\
    concat (points <$> merged) = concat (points <$> ordered) /\
    Forall nonEmpty merged /\ gapsWide merged.
Proof. apply mergedStrokes_spec. Qed.

Lemma merge_keeps_points_witness :
  Forall nonEmpty threeStrokes /\
  exists merged,
    mergedStrokes threeStrokes = Some merged /\
    concat (points <$> merged) = concat (points <$> threeStrokes).
Proof.
  assert (H : Forall nonEmpty threeStrokes) by (repeat constructor; discriminate).
  split; [exact H|].
  destruct (merge_keeps_points threeStrokes H) as (merged & Hm & Hc & _).
  exists merged. split; [exact Hm|exact Hc].
Defined.

(** ** What survives post-processing *)

Lemma finalizeStroke_spec img visited s out :
  finalizeStroke img visited s = Some out ->
  (2 <= length (points out))%nat /\
  points out `sublist_of` points s /\
  head (points out) = head (points s) /\
  validateStrokeCoverage out visited (pWidth img) (pHeight img) OUTPUT_SCALE = true.
Proof.
  unfold finalizeStroke.
  destruct (length (deduped (points s)) <? 3)%nat; [done|].
  destruct (filterJitter_spec (onInkPoints img visited (deduped (points s))))
    as (Hsub & Hhead & _).
  set (jf := filterJitter (onInkPoints img visited (deduped (points s)))) in *.
  destruct (length jf <? 3)%nat eqn:E; [done|]. apply Nat.ltb_ge in E.
  destruct (validateStrokeCoverage _ _ _ _ _) eqn:Ev; [|done].
  intros [= <-]. cbn [points].
  destruct jf as [|p0 [|p1 rest]] eqn:Ejf; [simpl in E; lia|simpl in E; lia|].
  split; [|split; [|split]].
  - cbn [finalPoints length]. pose proof (simplifyLoop_length rest p0 p1). lia.
  - etrans; [apply finalPoints_sublist|]. etrans; [exact Hsub|].
    etrans; [apply onInkPoints_sublist|]. apply deduped_sublist.
  - cbn [finalPoints head]. rewrite <- deduped_head, <- (onInkPoints_head img visited).
    by rewrite <- Hhead.
  - exact Ev.
Qed.

(** X5.  A stroke that survives post-processing has at least two points;
    they are a subsequence of the points it was given, starting with the
    same first point, and the stroke passed the coverage check. *)
Theorem survivor_is_subsequence (img : ImageData) (visited : list Z) (s out : Stroke) :
  finalizeStroke img visited s = Some out ->
  (2 <= length (points out))%nat /\
  points out `sublist_of` points s /\
  head (points out) = head (points s) /\
  validateStrokeCoverage out visited (pWidth img) (pHeight img) OUTPUT_SCALE = true.
Proof. apply finalizeStroke_spec. Qed.

Lemma survivor_is_subsequence_witness :
  finalizeStroke inkImage inkMask bar = Some {| points := [pt 500 500; pt 9500 500] |} /\
  [pt 500 500; pt 9500 500] `sublist_of` points bar.
Proof.
  assert (H : finalizeStroke inkImage inkMask bar =
              Some {| points := [pt 500 500; pt 9500 500] |}) by (vm_compute; reflexivity).
  split; [exact H|].
  exact (proj1 (proj2 (survivor_is_subsequence inkImage inkMask bar _ H))).
Defined.

End StrokeFacts.

Module MaskFacts.
Import Tracer DespeckleFacts.
Local Open Scope Z_scope.

(** What the outer invariant gives once the loop is over. *)
Lemma despeckle_facts (data : list Z) (w h minSize : Z) :
  0 < w -> Z.of_nat (length data) = w * h ->
  clearedFrom data (despeckleBitmask data w h minSize) /\
  (forall i comp, ink data i -> component data w h i comp ->
     minSize <= Z.of_nat (length comp) ->
     rd (despeckleBitmask data w h minSize) i = Some 1) /\
  (forall i comp, ink (despeckleBitmask data w h minSize) i ->
     component (despeckleBitmask data w h minSize) w h i comp ->
     minSize <= Z.of_nat (length comp)).
Proof.
  intros Hw Hsize.
  destruct (despeckle_final w h Hw data minSize Hsize)
    as (seen & Hld & Hls & Hb & Hc & Hcl & Hv & He & Hf & Hg).
  set (out := despeckleBitmask data w h minSize) in *.
  assert (Hall : forall k, ink data k -> rd seen k = Some 1).
  { intros k Hk. pose proof (rd_range _ _ _ Hk) as Hr.
    destruct (rd_is_Some seen k) as [v Hv']; [lia|].
    destruct (Hv _ _ Hv') as [->| ->]; [|done].
    apply He; [lia|]. unfold ink. by rewrite (Hg k Hv'). }
  assert (Hsub : forall k, ink out k -> ink data k).
  { intros k Hk. unfold ink in *. destruct (Hb k) as [Heq|[_ Hz]]; congruence. }
  split; [by split|]. split.
  - intros i comp Hi Hcomp Hle. by apply (Hf i comp (Hall i Hi) Hcomp).
  - intros i comp Hi [Hnd Hcomp].
    assert (Hcomp0 : component data w h i comp).
    { split; [done|]. intros j. rewrite Hcomp. split; [by apply connected_mono|].
      apply connected_restrict. intros k Hk. by apply (Hc i k). }
    destruct (Z_lt_le_dec (Z.of_nat (length comp)) minSize) as [Hlt|Hle]; [|done].
    destruct (Hf i comp (Hall i (Hsub i Hi)) Hcomp0) as [Hz _].
    unfold ink in Hi. rewrite (Hz Hlt) in Hi. discriminate.
Qed.

(** X6.  Despeckling only clears ink: the mask keeps its length, and each
    cell is either unchanged or was 1 and has become 0. *)
Theorem despeckle_only_clears (data : list Z) (w h minSize : Z) :
  0 < w -> Z.of_nat (length data) = w * h ->
  clearedFrom data (despeckleBitmask data w h minSize).
Proof. intros Hw Hsize. by destruct (despeckle_facts data w h minSize Hw Hsize). Qed.

Lemma despeckle_only_clears_witness :
  0 < 5 /\ Z.of_nat (length smallMask) = 5 * 3 /\
  clearedFrom smallMask (despeckleBitmask smallMask 5 3 3).
Proof.
  assert (H0 : 0 < 5) by lia.
  assert (H1 : Z.of_nat (length smallMask) = 5 * 3) by reflexivity.
  split; [exact H0|]. split; [exact H1|].
  exact (despeckle_only_clears smallMask 5 3 3 H0 H1).
Defined.

Lemma despeckle_fixpoint (data : list Z) (w h minSize : Z) :
  0 < w -> Z.of_nat (length data) = w * h ->
  (forall i comp, ink data i -> component data w h i comp ->
     minSize <= Z.of_nat (length comp)) ->
  despeckleBitmask data w h minSize = data.
Proof.
  intros Hw Hsize Hlarge.
  destruct (despeckle_facts data w h minSize Hw Hsize) as ((_ & Hb) & Hkeep & _).
  apply rd_ext. intros k. destruct (Hb k) as [Heq|[H1 H0]]; [done|].
  destruct (component_exists w h Hw data k Hsize H1) as [comp Hcomp].
  rewrite (Hkeep k comp H1 Hcomp (Hlarge k comp H1 Hcomp)) in H0. discriminate.
Qed.

(** X7.  Despeckling is idempotent: a second pass with the same minimum
    size changes nothing. *)
Theorem despeckle_idempotent (data : list Z) (w h minSize : Z) :
  0 < w -> Z.of_nat (length data) = w * h ->
  despeckleBitmask (despeckleBitmask data w h minSize) w h minSize =
  despeckleBitmask data w h minSize.
Proof.
  intros Hw Hsize.
  destruct (despeckle_facts data w h minSize Hw Hsize) as ((Hlen & _) & _ & Hlarge).
  apply despeckle_fixpoint; [done|by rewrite Hlen|done].
Qed.

Lemma despeckle_idempotent_witness :
  0 < 5 /\ Z.of_nat (length smallMask) = 5 * 3 /\
  despeckleBitmask (despeckleBitmask smallMask 5 3 3) 5 3 3 =
  despeckleBitmask smallMask 5 3 3.
Proof.
  assert (H0 : 0 < 5) by lia.
  assert (H1 : Z.of_nat (length smallMask) = 5 * 3) by reflexivity.
  split; [exact H0|]. split; [exact H1|].
  exact (despeckle_idempotent smallMask 5 3 3 H0 H1).
Defined.

(** X8.  With a minimum size of 1 or less nothing is a speckle: the mask
    comes back unchanged. *)
Theorem despeckle_minSize_one (data : list Z) (w h minSize : Z) :
  0 < w -> Z.of_nat (length data) = w * h -> minSize <= 1 ->
  despeckleBitmask data w h minSize = data.
Proof.
  intros Hw Hsize Hmin. apply despeckle_fixpoint; [done|done|].
  intros i comp Hi [_ Hcomp].
  assert (Hin : i ∈ comp) by (apply Hcomp; by constructor).
  destruct comp; [by apply elem_of_nil in Hin|]. simpl. lia.
Qed.

Lemma despeckle_minSize_one_witness :
  0 < 5 /\ Z.of_nat (length smallMask) = 5 * 3 /\ 1 <= 1 /\
  despeckleBitmask smallMask 5 3 1 = smallMask.
Proof.
  assert (H0 : 0 < 5) by lia.
  assert (H1 : Z.of_nat (length smallMask) = 5 * 3) by reflexivity.
  assert (H2 : 1 <= 1) by lia.
  split; [exact H0|]. split; [exact H1|]. split; [exact H2|].
  exact (despeckle_minSize_one smallMask 5 3 1 H0 H1 H2).
Defined.

End MaskFacts.

Module TraceFacts.
Import Tracer DespeckleFacts WalkerFacts PointFacts.
Local Open Scope Z_scope.

(** ** Invariants of guarded loops *)

Lemma while_inv {S : Type} (P : S -> Prop) (cond : S -> bool) (body : S -> S) :
  (forall s, P s -> cond s = true -> P (body s)) ->
  forall fuel s, P s -> P (while fuel cond body s).
Proof.
  intros Hstep. induction fuel as [|fuel IH]; intros s Hs; simpl; [done|].
  destruct (cond s) eqn:E; [|done]. apply IH. by apply Hstep.
Qed.

(** ** The walker only consumes *)

Lemma consumedFrom_refl v : consumedFrom v v.
Proof. split; [done|]. intros k. by left. Qed.

Lemma consumedFrom_trans v1 v2 v3 :
  consumedFrom v1 v2 -> consumedFrom v2 v3 -> consumedFrom v1 v3.
Proof.
  intros [Hl1 H1] [Hl2 H2]. split; [congruence|]. intros k.
  destruct (H1 k) as [E1|[E1 E1']], (H2 k) as [E2|[E2 E2']].
  - left. congruence.
  - right. split; congruence.
  - right. split; congruence.
  - congruence.
Qed.

Lemma consumeAt_consumed img cx cy v d : consumedFrom v (consumeAt img cx cy v d).
Proof.
  unfold consumeAt. destruct (inBounds _ _ _); [|apply consumedFrom_refl].
  destruct (cellIs v _ 1) eqn:E; [|apply consumedFrom_refl].
  apply cellIs_true in E. pose proof (rd_range _ _ _ E) as Hr.
  split; [apply length_wr|]. intros k.
  destruct (Z.eq_dec ((cy + d.2) * pWidth img + (cx + d.1)) k) as [<-|Hne].
  - right. split; [done|]. by apply rd_wr_eq.
  - left. by apply rd_wr_ne.
Qed.

Lemma consume_consumed img cx cy v : consumedFrom v (consume img cx cy v).
Proof.
  unfold consume. generalize diskOffsets. intros l. revert v.
  induction l as [|d l IH]; intros v; simpl; [apply consumedFrom_refl|].
  eapply consumedFrom_trans; [apply consumeAt_consumed|apply IH].
Qed.

Lemma traceStroke_consumed img v startIdx :
  consumedFrom v (walkVisited (traceStroke img v startIdx)).
Proof.
  unfold traceStroke.
  apply (while_inv (fun s => consumedFrom v (walkVisited s))).
  - intros s Hs _. cbn [walkBody walkVisited].
    eapply consumedFrom_trans; [exact Hs|apply consume_consumed].
  - apply consumedFrom_refl.
Qed.

Lemma seekBody_consumed img s : consumedFrom (seekVisited s) (seekVisited (seekBody img s)).
Proof.
  unfold seekBody. destruct (scan _ _).2; cbn [seekVisited].
  - apply traceStroke_consumed.
  - apply consumedFrom_refl.
Qed.

(** X9.  Tracing only consumes: the mask keeps its length, and each cell
    is either unchanged or was unconsumed ink (1) and is now consumed (2). *)
Theorem walker_only_consumes (img : ImageData) (visited : list Z) :
  consumedFrom visited (seekVisited (extractStrokes img visited)).
Proof.
  unfold extractStrokes.
  apply (while_inv (fun s => consumedFrom visited (seekVisited s))).
  - intros s Hs _. eapply consumedFrom_trans; [exact Hs|apply seekBody_consumed].
  - apply consumedFrom_refl.
Qed.

(** ** No ink is left behind *)

Lemma scan_spec : forall rest g g' r,
  scan rest g = (g', r) ->
  g <= g' /\
  (forall j, (Z.of_nat j < g' - g) -> rest !! j <> Some 1) /\
  match r with
  | None => g' = g + Z.of_nat (length rest)
  | Some i => i = g' /\ rest !! Z.to_nat (g' - g) = Some 1
  end.
Proof.
  induction rest as [|v rest IH]; intros g g' r; simpl.
  - intros [= <- <-]. split; [lia|]. split; [done|]. simpl. lia.
  - destruct (v =? 1) eqn:E.
    + intros [= <- <-]. apply Z.eqb_eq in E. subst v.
      split; [lia|]. split; [intros j Hj; lia|]. split; [done|].
      by rewrite Z.sub_diag.
    + intros H. apply IH in H as (Hle & Hlt & Hr). apply Z.eqb_neq in E.
      split; [lia|]. split.
      * intros [|j] Hj; simpl; [congruence|]. apply Hlt. lia.
      * destruct r as [i|].
        -- destruct Hr as [-> Hr]. split; [done|].
           replace (Z.to_nat (g' - g)) with (Datatypes.S (Z.to_nat (g' - (g + 1))))
             by lia. done.
        -- cbn [length]. lia.
Qed.

Lemma rd_drop v g k :
  0 <= g -> g <= k -> rd v k = drop (Z.to_nat g) v !! Z.to_nat (k - g).
Proof.
  intros Hg Hk. unfold rd. destruct (k <? 0) eqn:E; [apply Z.ltb_lt in E; lia|].
  rewrite lookup_drop. f_equal. lia.
Qed.

Lemma consumedFrom_not_ink v v' k :
  consumedFrom v v' -> rd v k <> Some 1 -> rd v' k <> Some 1.
Proof. intros [_ H] Hk. destruct (H k) as [E|[E _]]; congruence. Qed.

Lemma seekBody_swept img s : swept s -> swept (seekBody img s).
Proof.
  intros (Hg & Hlow & _). unfold seekBody.
  destruct (scan _ _) as [g' r] eqn:Es. apply scan_spec in Es as (Hle & Hlt & Hr).
  assert (Hbelow : forall k, k < g' -> rd (seekVisited s) k <> Some 1).
  { intros k Hk. destruct (Z_lt_le_dec k (globalSearchIdx s)) as [Hl|Hge];
      [by apply Hlow|].
    rewrite (rd_drop _ (globalSearchIdx s)) by lia. apply Hlt. lia. }
  cbn [snd fst]. destruct r as [i|].
  - split; [cbn; lia|]. split; [|done]. cbn [globalSearchIdx seekVisited].
    intros k Hk. eapply consumedFrom_not_ink; [apply traceStroke_consumed|].
    by apply Hbelow.
  - split; [cbn; lia|]. cbn [globalSearchIdx seekVisited active].
    split; [done|]. intros _ k.
    destruct (Z_lt_le_dec k g') as [Hl|Hge]; [by apply Hbelow|].
    intros Hk. apply rd_range in Hk.
    assert (Hlen : Z.of_nat (length (seekVisited s)) - globalSearchIdx s <=
                   Z.of_nat (length (drop (Z.to_nat (globalSearchIdx s)) (seekVisited s)))).
    { rewrite length_drop. lia. }
    lia.
Qed.

Lemma extract_swept img visited : swept (extractStrokes img visited).
Proof.
  unfold extractStrokes. apply (while_inv swept).
  - intros s Hs _. by apply seekBody_swept.
  - split; [done|]. split; [intros k Hk; simpl in Hk|done].
    unfold rd. cbn [seekStart seekVisited]. destruct (k <? 0) eqn:E; [done|].
    apply Z.ltb_ge in E. lia.
Qed.

(** X10.  Unless the search is cut short by the safety limit, no
    unconsumed ink is left: when the loop is left with [active = false],
    no cell of the mask holds 1. *)
Theorem no_ink_left (img : ImageData) (visited : list Z) :
  active (extractStrokes img visited) = false ->
  forall k, rd (seekVisited (extractStrokes img visited)) k <> Some 1.
Proof. intros Ha. by apply extract_swept. Qed.

Lemma no_ink_left_witness :
  active (extractStrokes lineImage lineMask) = false /\
  forall k, rd (seekVisited (extractStrokes lineImage lineMask)) k <> Some 1.
Proof.
  assert (H : active (extractStrokes lineImage lineMask) = false)
    by (vm_compute; reflexivity).
  split; [exact H|]. exact (no_ink_left lineImage lineMask H).
Defined.

(** ** Every walk consumes the cell it starts from *)

Lemma round_inject (n : Z) : round (inject_Z n) = n.
Proof.
  pose proof (round_between n n (inject_Z n) (Qle_refl _) (Qle_refl _)). lia.
Qed.

Lemma fold_consumeAt_consumed img cx cy l : forall v,
  consumedFrom v (fold_left (consumeAt img cx cy) l v).
Proof.
  induction l as [|d l IH]; intros v; simpl; [apply consumedFrom_refl|].
  eapply consumedFrom_trans; [apply consumeAt_consumed|apply IH].
Qed.

Lemma consumedFrom_stays v v' k :
  consumedFrom v v' -> rd v k = Some 2 -> rd v' k = Some 2.
Proof. intros [_ H] Hk. destruct (H k) as [E|[E _]]; congruence. Qed.

Lemma consumedFrom_ink v v' k :
  consumedFrom v v' -> rd v k = Some 1 -> rd v' k = Some 1 \/ rd v' k = Some 2.
Proof. intros [_ H] Hk. destruct (H k) as [E|[_ E]]; [left; congruence|by right]. Qed.

Lemma fold_consumeAt_centre img cx cy l : forall v,
  (0, 0) ∈ l -> inBounds (pWidth img) (pHeight img) (cx, cy) = true ->
  rd v (cy * pWidth img + cx) = Some 1 \/ rd v (cy * pWidth img + cx) = Some 2 ->
  rd (fold_left (consumeAt img cx cy) l v) (cy * pWidth img + cx) = Some 2.
Proof.
  induction l as [|d l IH]; intros v Hin Hb Hv; [by apply elem_of_nil in Hin|].
  cbn [fold_left].
  destruct (decide (d = (0, 0))) as [->|Hd].
  - eapply consumedFrom_stays; [apply fold_consumeAt_consumed|].
    unfold consumeAt. cbn [fst snd]. rewrite !Z.add_0_r, Hb.
    destruct Hv as [Hv|Hv].
    + apply cellIs_true in Hv as Hc. rewrite Hc. apply rd_wr_eq.
      by apply rd_range in Hv.
    + destruct (cellIs v _ 1) eqn:Hc; [|done]. apply cellIs_true in Hc. congruence.
  - apply elem_of_cons in Hin as [Hin|Hin]; [congruence|].
    apply IH; [done|done|].
    destruct Hv as [Hv|Hv].
    + eapply consumedFrom_ink; [apply consumeAt_consumed|done].
    + right. eapply consumedFrom_stays; [apply consumeAt_consumed|done].
Qed.

Lemma centre_in_disk : (0, 0) ∈ diskOffsets.
Proof.
  unfold diskOffsets. apply list_elem_of_bind. exists 0. split.
  - apply list_elem_of_bind. exists 0. split; [by apply list_elem_of_singleton|].
    apply elem_of_seqZ. unfold PEN_RADIUS. lia.
  - apply elem_of_seqZ. unfold PEN_RADIUS. lia.
Qed.

Lemma traceStroke_start_consumed img v startIdx :
  0 < pWidth img -> 0 <= startIdx < pWidth img * pHeight img ->
  rd v startIdx = Some 1 ->
  rd (walkVisited (traceStroke img v startIdx)) startIdx = Some 2.
Proof.
  intros Hw Hi Hv. unfold traceStroke.
  destruct (Z.to_nat SAFETY_LIMIT) as [|fuel] eqn:Ef; [unfold SAFETY_LIMIT in Ef; lia|].
  cbn [while]. change (walkCond (walkStart img v startIdx)) with true. cbv iota.
  apply (while_inv (fun s => rd (walkVisited s) startIdx = Some 2)).
  - intros s Hs _. cbn [walkBody walkVisited].
    eapply consumedFrom_stays; [apply consume_consumed|done].
  - cbn [walkBody walkStart walkVisited currentPos getXY fst snd].
    rewrite !round_inject. unfold consume.
    pose proof (Z.mod_pos_bound startIdx (pWidth img) Hw) as Hm.
    assert (Hd : 0 <= startIdx / pWidth img < pHeight img).
    { split; [apply Z.div_pos; lia|]. apply Z.div_lt_upper_bound; lia. }
    assert (Hidx : startIdx / pWidth img * pWidth img + startIdx mod pWidth img = startIdx).
    { pose proof (Z.div_mod startIdx (pWidth img)). lia. }
    rewrite <- Hidx at 3.
    apply fold_consumeAt_centre; [apply centre_in_disk| |rewrite Hidx; by left].
    unfold inBounds. cbn [fst snd].
    repeat (apply andb_true_iff; split); first [apply Z.leb_le|apply Z.ltb_lt]; lia.
Qed.

(** ** Counting ink *)

Lemma inkCount_consumed (v v' : list Z) :
  Forall2 (fun a b => b = a \/ (a = 1 /\ b = 2)) v v' ->
  (inkCount v' <= inkCount v)%nat /\
  (forall i, v !! i = Some 1 -> v' !! i = Some 2 -> (inkCount v' < inkCount v)%nat).
Proof.
  unfold inkCount. induction 1 as [|a b v v' Hab _ [IH1 IH2]].
  - split; [done|]. intros i Hi. discriminate.
  - cbn [List.filter]. split.
    + destruct Hab as [->|[-> ->]]; [destruct (a =? 1)|]; simpl; lia.
    + intros [|i] Ha Hb.
      * injection Ha as ->. injection Hb as ->. simpl. lia.
      * specialize (IH2 i Ha Hb).
        destruct Hab as [->|[-> ->]]; [destruct (a =? 1)|]; simpl; lia.
Qed.

Lemma consumedFrom_Forall2 v v' :
  consumedFrom v v' -> Forall2 (fun a b => b = a \/ (a = 1 /\ b = 2)) v v'.
Proof.
  intros [Hlen H]. apply Forall2_same_length_lookup_2; [done|].
  intros i a b Ha Hb. specialize (H (Z.of_nat i)). rewrite !rd_of_nat in H.
  destruct H as [E|[E1 E2]]; [left; congruence|right; split; congruence].
Qed.

Lemma seekBody_budget img n c s :
  0 < pWidth img -> Z.of_nat n <= pWidth img * pHeight img ->
  seekCond s = true -> budget n c s -> budget n c (seekBody img s).
Proof.
  intros Hw Hn Hcond (Hg & Hlen & Hc). unfold seekBody.
  apply andb_true_iff in Hcond as [Hact _]. specialize (Hc Hact).
  destruct (scan _ _) as [g' r] eqn:Es. apply scan_spec in Es as (Hle & _ & Hr).
  cbn [fst snd]. destruct r as [i|]; unfold budget;
    cbn [globalSearchIdx seekVisited safetyCounter active].
  - destruct Hr as [-> Hr]. pose proof (lookup_lt_Some _ _ _ Hr) as Hlt.
    rewrite length_drop in Hlt. rewrite lookup_drop in Hr.
    replace (Z.to_nat (globalSearchIdx s) + Z.to_nat (g' - globalSearchIdx s))%nat
      with (Z.to_nat g') in Hr by lia.
    pose proof (traceStroke_consumed img (seekVisited s) g') as Hcons.
    split; [lia|]. split; [destruct Hcons as [-> _]; done|].
    assert (Hrd : rd (seekVisited s) g' = Some 1).
    { rewrite <- (Z2Nat.id g') by lia. by rewrite rd_of_nat. }
    assert (H2 : rd (walkVisited (traceStroke img (seekVisited s) g')) g' = Some 2)
      by (apply traceStroke_start_consumed; [done|lia|done]).
    destruct (inkCount_consumed _ _ (consumedFrom_Forall2 _ _ Hcons)) as [_ Hlt'].
    assert (Hlt2 := Hlt' (Z.to_nat g')). rewrite <- !rd_of_nat, !Z2Nat.id in Hlt2 by lia.
    specialize (Hlt2 Hrd H2). lia.
  - split; [lia|]. split; [done|]. discriminate.
Qed.

Lemma extract_budget img visited :
  0 < pWidth img -> Z.of_nat (length visited) <= pWidth img * pHeight img ->
  budget (length visited) (inkCount visited) (extractStrokes img visited).
Proof.
  intros Hw Hn. unfold extractStrokes.
  apply (while_inv (budget (length visited) (inkCount visited))).
  - intros s Hs Hc. by apply seekBody_budget.
  - split; [done|]. split; [done|]. intros _. cbn [safetyCounter seekStart seekVisited]. lia.
Qed.

(** X14.  A mask of the canvas with fewer than 10000 ink cells is traced
    to the end: the search stops because it has run off the mask, not at
    the safety limit, and no cell is left holding 1. *)
Theorem sparse_mask_fully_consumed (img : ImageData) (visited : list Z) :
  0 < pWidth img ->
  Z.of_nat (length visited) <= pWidth img * pHeight img ->
  Z.of_nat (inkCount visited) < 10000 ->
  active (extractStrokes img visited) = false /\
  forall k, rd (seekVisited (extractStrokes img visited)) k <> Some 1.
Proof.
  intros Hw Hn Hc.
  assert (Ha : active (extractStrokes img visited) = false).
  { destruct (seek_stops img visited) as (n & _ & Hf & _ & He).
    destruct (extract_budget img visited Hw Hn) as (_ & _ & Hb).
    rewrite <- He in Hf. clear He. revert Hf Hb.
    generalize (extractStrokes img visited). intros e Hf Hb.
    unfold seekCond in Hf. destruct (active e); [|done].
    cbn [andb] in Hf. apply Z.ltb_ge in Hf. unfold SAFETY_LIMIT in Hf.
    specialize (Hb eq_refl). lia. }
  split; [done|]. by apply extract_swept.
Qed.

Lemma sparse_mask_fully_consumed_witness :
  0 < pWidth lineImage /\
  Z.of_nat (length lineMask) <= pWidth lineImage * pHeight lineImage /\
  Z.of_nat (inkCount lineMask) < 10000 /\
  active (extractStrokes lineImage lineMask) = false /\
  forall k, rd (seekVisited (extractStrokes lineImage lineMask)) k <> Some 1.
Proof.
  assert (H0 : 0 < pWidth lineImage) by (simpl; lia).
  assert (H1 : Z.of_nat (length lineMask) <= pWidth lineImage * pHeight lineImage)
    by (vm_compute; discriminate).
  assert (H2 : Z.of_nat (inkCount lineMask) < 10000) by (vm_compute; reflexivity).
  split; [exact H0|]. split; [exact H1|]. split; [exact H2|].
  exact (sparse_mask_fully_consumed lineImage lineMask H0 H1 H2).
Defined.

(** ** Coordinates stay on the canvas *)

Lemma scaled_between (q : Q) (w : Z) :
  0 < w -> (0 <= q)%Q -> (q <= inject_Z (w - 1))%Q ->
  0 <= round (q / inject_Z w * inject_Z OUTPUT_SCALE) <= 10000.
Proof.
  intros Hw H0 H1.
  assert (Hw' : (0 < inject_Z w)%Q) by (by rewrite (Zlt_Qlt 0 w) in Hw).
  assert (Hlt : (inject_Z (w - 1) <= inject_Z w)%Q) by (rewrite <- Zle_Qle; lia).
  assert (Ha : (0 <= q / inject_Z w)%Q).
  { apply Qle_shift_div_l; [done|]. by rewrite Qmult_0_l. }
  assert (Hb : (q / inject_Z w <= 1)%Q).
  { apply Qle_shift_div_r; [done|]. rewrite Qmult_1_l. by eapply Qle_trans. }
  set (x := (q / inject_Z w)%Q) in *. clearbody x.
  unfold OUTPUT_SCALE. apply round_between.
  - change (inject_Z 0) with 0%Q. change (inject_Z 10000) with 10000%Q. Lqa.lra.
  - change (inject_Z 10000) with 10000%Q. Lqa.lra.
Qed.

Lemma fold_add_bounds (lo hi : Z) (l : list Z) : forall a,
  Forall (fun x => lo <= x <= hi) l ->
  a + Z.of_nat (length l) * lo <= fold_left Z.add l a <= a + Z.of_nat (length l) * hi.
Proof.
  induction l as [|x l IH]; intros a Hl; simpl fold_left.
  - simpl. lia.
  - apply Forall_cons in Hl as [Hx Hl]. specialize (IH (a + x) Hl).
    rewrite length_cons, Nat2Z.inj_succ. lia.
Qed.

Lemma centroid_between (hi : Z) (l : list Z) :
  l <> [] -> Forall (fun x => 0 <= x <= hi) l ->
  (0 <= inject_Z (sumZ l) / inject_Z (Z.of_nat (length l)))%Q /\
  (inject_Z (sumZ l) / inject_Z (Z.of_nat (length l)) <= inject_Z hi)%Q.
Proof.
  intros Hne Hl. pose proof (fold_add_bounds 0 hi l 0 Hl) as Hs. fold (sumZ l) in Hs.
  assert (Hn : 0 < Z.of_nat (length l)) by (destruct l; [done|simpl; lia]).
  assert (Hn' : (0 < inject_Z (Z.of_nat (length l)))%Q)
    by (by rewrite (Zlt_Qlt 0) in Hn).
  split.
  - apply Qle_shift_div_l; [done|]. rewrite Qmult_0_l.
    change 0%Q with (inject_Z 0). rewrite <- Zle_Qle. lia.
  - apply Qle_shift_div_r; [done|]. rewrite <- inject_Z_mult, <- Zle_Qle. lia.
Qed.

Lemma windowInk_bounds img v cx cy c :
  c ∈ windowInk img v cx cy ->
  0 <= c.1 <= pWidth img - 1 /\ 0 <= c.2 <= pHeight img - 1.
Proof.
  unfold windowInk. intros (y & Hc & Hy)%list_elem_of_bind.
  apply list_elem_of_bind in Hc as (x & Hc & Hx).
  apply elem_of_seqZ in Hx, Hy.
  destruct (cellIs _ _ _); [|by apply elem_of_nil in Hc].
  apply list_elem_of_singleton in Hc. subst c. simpl. lia.
Qed.

Lemma walkBody_onCanvas img s :
  0 < pWidth img -> 0 < pHeight img -> onCanvas img s -> onCanvas img (walkBody img s).
Proof.
  intros Hw Hh ((Hx0 & Hx1) & (Hy0 & Hy1) & Hpts). unfold onCanvas.
  cbn [walkBody currentPos strokePoints].
  set (cells := windowInk img _ _ _).
  assert (Hcells : forall c, c ∈ cells ->
            0 <= c.1 <= pWidth img - 1 /\ 0 <= c.2 <= pHeight img - 1)
    by (intros c; apply windowInk_bounds).
  split; [|split].
  - destruct (0 <? Z.of_nat (length cells)) eqn:E; [|done]. cbn [fst].
    rewrite <- (length_fmap fst cells). apply centroid_between.
    + destruct cells; [done|discriminate].
    + apply Forall_fmap, Forall_forall. intros c Hc. by apply Hcells.
  - destruct (0 <? Z.of_nat (length cells)) eqn:E; [|done]. cbn [snd].
    rewrite <- (length_fmap snd cells). apply centroid_between.
    + destruct cells; [done|discriminate].
    + apply Forall_fmap, Forall_forall. intros c Hc. by apply Hcells.
  - apply Forall_app. split; [done|]. constructor; [|constructor].
    split; cbn [px py]; by apply scaled_between.
Qed.

Lemma traceStroke_onCanvas img v startIdx :
  0 < pWidth img -> 0 < pHeight img ->
  0 <= startIdx < pWidth img * pHeight img ->
  onCanvas img (traceStroke img v startIdx).
Proof.
  intros Hw Hh Hi. unfold traceStroke. apply (while_inv (onCanvas img)).
  - intros s Hs _. by apply walkBody_onCanvas.
  - unfold onCanvas, walkStart, getXY. cbn [currentPos strokePoints fst snd].
    pose proof (Z.mod_pos_bound startIdx (pWidth img) Hw) as Hm.
    assert (Hd : 0 <= startIdx / pWidth img <= pHeight img - 1).
    { split; [apply Z.div_pos; lia|].
      enough (startIdx / pWidth img < pHeight img) by lia.
      apply Z.div_lt_upper_bound; lia. }
    change 0%Q with (inject_Z 0). rewrite <- !Zle_Qle.
    split; [lia|]. split; [lia|constructor].
Qed.

Lemma seekBody_rawOnCanvas img n s :
  0 < pWidth img -> 0 < pHeight img -> Z.of_nat n <= pWidth img * pHeight img ->
  rawOnCanvas n s -> rawOnCanvas n (seekBody img s).
Proof.
  intros Hw Hh Hn (Hg & Hlen & Hraw). unfold seekBody.
  destruct (scan _ _) as [g' r] eqn:Es. apply scan_spec in Es as (Hle & _ & Hr).
  cbn [fst snd]. destruct r as [i|]; unfold rawOnCanvas;
    cbn [globalSearchIdx seekVisited rawStrokes].
  - destruct Hr as [-> Hr]. apply lookup_lt_Some in Hr. rewrite length_drop in Hr.
    split; [lia|]. split.
    { destruct (traceStroke_consumed img (seekVisited s) g') as [-> _]. done. }
    destruct (3 <? length _)%nat eqn:E; [|done]. apply Nat.ltb_lt in E.
    apply Forall_app. split; [done|]. constructor; [|constructor].
    cbn [points]. split; [done|].
    apply traceStroke_onCanvas; [done|done|lia].
  - split; [lia|]. by split.
Qed.

Lemma extract_rawOnCanvas img visited :
  0 < pWidth img -> 0 < pHeight img ->
  Z.of_nat (length visited) <= pWidth img * pHeight img ->
  rawOnCanvas (length visited) (extractStrokes img visited).
Proof.
  intros Hw Hh Hn. unfold extractStrokes. apply (while_inv (rawOnCanvas (length visited))).
  - intros s Hs _. by apply seekBody_rawOnCanvas.
  - split; [done|]. split; [done|constructor].
Qed.

(** X11.  On a canvas with cells, every stroke the walker records has
    more than three points, and each of them has both coordinates between
    0 and 10000. *)
Theorem raw_strokes_on_canvas (img : ImageData) (visited : list Z) :
  0 < pWidth img -> 0 < pHeight img ->
  Z.of_nat (length visited) <= pWidth img * pHeight img ->
  Forall (fun s => (3 < length (points s))%nat /\ Forall (inBox 0 10000) (points s))
    (rawStrokes (extractStrokes img visited)).
Proof.
  intros Hw Hh Hn. by destruct (extract_rawOnCanvas img visited Hw Hh Hn) as (_ & _ & H).
Qed.

Lemma raw_strokes_on_canvas_witness :
  0 < pWidth lineImage /\ 0 < pHeight lineImage /\
  Z.of_nat (length lineMask) <= pWidth lineImage * pHeight lineImage /\
  Forall (fun s => (3 < length (points s))%nat /\ Forall (inBox 0 10000) (points s))
    (rawStrokes (extractStrokes lineImage lineMask)).
Proof.
  assert (H0 : 0 < pWidth lineImage) by (simpl; lia).
  assert (H1 : 0 < pHeight lineImage) by (simpl; lia).
  assert (H2 : Z.of_nat (length lineMask) <= pWidth lineImage * pHeight lineImage)
    by (simpl; lia).
  split; [exact H0|]. split; [exact H1|]. split; [exact H2|].
  exact (raw_strokes_on_canvas lineImage lineMask H0 H1 H2).
Defined.

End TraceFacts.

Module CoverageFacts.
Import Tracer DespeckleFacts.
Local Open Scope Z_scope.

Lemma inkNear_ink mask w r cx cy :
  inkNear mask w r cx cy = true -> exists k v, rd mask k = Some v /\ 0 < v.
Proof.
  unfold inkNear. intros (d & _ & Hd)%existsb_exists. unfold cellPositive in Hd.
  destruct (rd mask _) as [u|] eqn:E; [|done]. apply Z.ltb_lt in Hd. eauto.
Qed.

Lemma coverageSamples_hit mask w h scale pts :
  Some true ∈ coverageSamples mask w h scale pts ->
  exists cx cy, inkNear mask w 1 cx cy = true.
Proof.
  induction pts as [|p1 pts IH]; [by intros H%elem_of_nil|].
  destruct pts as [|p2 rest]; [by intros H%elem_of_nil|].
  cbn [coverageSamples]. intros [H|H]%elem_of_app; [|by apply IH].
  apply list_elem_of_fmap in H as (j & Hj & _). unfold sampleSegment in Hj.
  destruct (inBounds _ _ _); [|done]. injection Hj as Hj. eauto.
Qed.

(** X15.  The coverage check cannot be passed without ink: a stroke of
    two or more points that passes it shows that some cell of the mask is
    positive. *)
Theorem coverage_needs_ink (s : Stroke) (mask : list Z) (w h scale : Z) :
  (2 <= length (points s))%nat ->
  validateStrokeCoverage s mask w h scale = true ->
  exists k v, rd mask k = Some v /\ 0 < v.
Proof.
  intros Hlen. unfold validateStrokeCoverage.
  destruct (length (points s) <? 2)%nat eqn:E; [apply Nat.ltb_lt in E; lia|].
  set (samples := coverageSamples mask w h scale (points s)).
  destruct (_ =? 0); [done|].
  destruct (List.filter (fun o => bool_decide (o = Some true)) samples) as [|o os] eqn:Ef.
  { cbn [length]. change (inject_Z (Z.of_nat 0)) with 0%Q. unfold Qleb.
    destruct (Qcompare_spec (55 # 100) (0 / inject_Z (Z.of_nat (length
      (List.filter (fun o => bool_decide (is_Some o)) samples))))) as [H|H|H]; [| |done].
    - unfold Qdiv in H. rewrite Qmult_0_l in H. by compute in H.
    - unfold Qdiv in H. rewrite Qmult_0_l in H. by compute in H. }
  intros _.
  assert (Ho : o ∈ List.filter (fun o => bool_decide (o = Some true)) samples)
    by (rewrite Ef; left).
  apply list_elem_of_In, filter_In in Ho as [Hin Hb]. apply bool_decide_eq_true in Hb.
  subst o. apply list_elem_of_In in Hin.
  destruct (coverageSamples_hit _ _ _ _ _ Hin) as (cx & cy & Hnear).
  by eapply inkNear_ink.
Qed.

Lemma coverage_needs_ink_witness :
  (2 <= length (points bar))%nat /\
  validateStrokeCoverage bar inkMask 10 10 OUTPUT_SCALE = true /\
  exists k v, rd inkMask k = Some v /\ 0 < v.
Proof.
  assert (H0 : (2 <= length (points bar))%nat) by (simpl; lia).
  assert (H1 : validateStrokeCoverage bar inkMask 10 10 OUTPUT_SCALE = true)
    by (vm_compute; reflexivity).
  split; [exact H0|]. split; [exact H1|].
  exact (coverage_needs_ink bar inkMask 10 10 OUTPUT_SCALE H0 H1).
Defined.

End CoverageFacts.

Module AnalysisFacts.
Import Tracer DespeckleFacts OrderFacts WalkerFacts PointFacts StrokeFacts
  MaskFacts TraceFacts.
Local Open Scope Z_scope.

Lemma optimizeStrokeOrder_rearranges ss :
  Forall nonEmpty ss -> exists out, optimizeStrokeOrder ss = Some out /\ rearranges ss out.
Proof.
  intros Hne. destruct ss as [|s0 ss0] eqn:Ess.
  { exists []. split; [done|]. exists []. split; [done|constructor]. }
  rewrite <- Ess in *.
  destruct (hypotheses_exist ss Hne)
    as (metas & h1 & h2 & s1 & s2 & Hm & Hh1 & Hh2 & Hs1 & Hs2 & Hr1 & Hr2).
  exists (bestMain h1 h2 s1 s2 ++ underlineStrokes metas). split.
  - apply optimizeStrokeOrder_eq; try done. by rewrite Ess.
  - assert (Hr : rearranges (mainStrokes metas) (bestMain h1 h2 s1 s2)).
    { unfold bestMain. by destruct (Rlt_dec _ _). }
    apply (rearranges_app _ _ (underlineStrokes metas)) in Hr.
    destruct Hr as (l & Hperm & Hor). exists l. split; [|done].
    rewrite <- Hperm, (underlineStrokes_filter ss metas Hm),
      (mainStrokes_filter ss metas Hm). apply filter_split.
Qed.

Lemma rearranges_Forall (P : RawPoint -> Prop) input out :
  rearranges input out ->
  Forall (fun s => Forall P (points s)) input ->
  Forall (fun s => Forall P (points s)) out.
Proof.
  intros (l & Hperm & Hor) H. rewrite Hperm in H. clear Hperm.
  induction Hor as [|s o l out Hso _ IH]; [constructor|].
  apply Forall_cons in H as [Hs Hl]. constructor; [|by apply IH].
  destruct Hso as [->| ->]; [done|]. cbn [reverseStroke points]. by apply Forall_rev.
Qed.

Lemma Forall_points_concat (P : RawPoint -> Prop) (ss : list Stroke) :
  Forall (fun s => Forall P (points s)) ss <-> Forall P (concat (points <$> ss)).
Proof.
  induction ss as [|s ss IH]; simpl.
  - split; constructor.
  - rewrite Forall_cons, Forall_app, IH. done.
Qed.

Lemma smoothPoints_box lo hi pts :
  Forall (inBox lo hi) pts -> Forall (inBox lo hi) (smoothPoints pts).
Proof.
  intros H. destruct pts as [|p0 [|p1 [|p2 rest]]]; try done.
  cbn [smoothPoints]. apply Forall_cons in H as [H0 H]. constructor; [done|].
  apply Forall_cons in H as [H1 H]. by apply smoothLoop_inBox.
Qed.

Lemma extract_long img visited :
  Forall (fun s => (3 < length (points s))%nat) (rawStrokes (extractStrokes img visited)).
Proof.
  unfold extractStrokes.
  apply (while_inv (fun s => Forall (fun st => (3 < length (points st))%nat) (rawStrokes s))).
  - intros s Hs _. unfold seekBody. destruct (scan _ _).2; cbn [rawStrokes]; [|done].
    destruct (3 <? length _)%nat eqn:E; [|done]. apply Nat.ltb_lt in E.
    apply Forall_app. split; [done|]. by repeat constructor.
  - constructor.
Qed.

Lemma length_thresholdMask img :
  length (thresholdMask img) = Z.to_nat (pWidth img * pHeight img).
Proof. unfold thresholdMask. by rewrite length_fmap, length_seqZ. Qed.

(** The stages of the analysis on a canvas that has cells, once the
    strokes are known to have points. *)
Lemma analysis_stages img :
  0 < pWidth img -> 0 < pHeight img ->
  let mask := despeckleBitmask (thresholdMask img) (pWidth img) (pHeight img) 20 in
  let seek := extractStrokes img mask in
  exists ordered merged,
    rearranges (rawStrokes seek) ordered /\
    concat (points <$> merged) = concat (points <$> ordered) /\
    analyzeSignatureLocal img =
      Resolved
        {| strokes := omap (finalizeStroke img (seekVisited seek))
                        ((fun s => {| points := smoothPoints (points s) |}) <$> merged);
           original_size := (imgWidth img, imgHeight img) |}.
Proof.
  intros Hw Hh mask seek.
  assert (Hraw : Forall nonEmpty (rawStrokes seek)).
  { eapply Forall_impl; [apply extract_long|]. intros s Hs. unfold nonEmpty.
    cbv beta in Hs. destruct (points s); [simpl in Hs; lia|done]. }
  destruct (optimizeStrokeOrder_rearranges _ Hraw) as (ordered & Ho & Hr).
  destruct (mergedStrokes_spec ordered (rearranges_nonEmpty _ _ Hr Hraw))
    as (merged & Hm & Hc & _ & _).
  exists ordered, merged. split; [done|]. split; [done|].
  unfold analyzeSignatureLocal. rewrite (canvas_readable img Hw Hh).
  fold mask. fold seek. by rewrite Ho, Hm.
Qed.

(** ** An image with one line of ink *)

Lemma strokeImage_mask :
  despeckleBitmask (thresholdMask strokeImage) (pWidth strokeImage) (pHeight strokeImage) 20
    = lineMask.
Proof. by vm_compute. Qed.

Lemma strokeImage_walk :
  extractStrokes strokeImage lineMask =
    {| active := false; safetyCounter := 2; globalSearchIdx := 20;
       seekVisited := replicate 20 2; rawStrokes := [rawLine] |}.
Proof. by vm_compute. Qed.

Lemma rawLine_order : optimizeStrokeOrder [rawLine] = Some [rawLine].
Proof.
  assert (Hm : mapM getMeta [rawLine] <> None) by (by vm_compute).
  assert (Hmain : List.filter (fun s => negb (isDecoration [rawLine] s)) [rawLine]
                  = [rawLine]) by (by vm_compute).
  assert (Hdeco : List.filter (isDecoration [rawLine]) [rawLine] = []) by (by vm_compute).
  assert (Hh1 : solve [rawLine] false = Some [rawLine]) by (by vm_compute).
  assert (Hh2 : solve [rawLine] true = Some [rawLine]) by (by vm_compute).
  destruct (mapM getMeta [rawLine]) as [metas|] eqn:Em; [|contradiction].
  pose proof (mainStrokes_filter _ _ Em) as Hms. rewrite Hmain in Hms.
  pose proof (underlineStrokes_filter _ _ Em) as Hus. rewrite Hdeco in Hus.
  rewrite <- Hms in Hh1 at 1. rewrite <- Hms in Hh2 at 1.
  rewrite (optimizeStrokeOrder_eq [rawLine] metas [rawLine] [rawLine] 0%R 0%R
             ltac:(discriminate) Em Hh1 Hh2 eq_refl eq_refl).
  rewrite Hus, app_nil_r. unfold bestMain. by destruct (Rlt_dec _ _).
Qed.

(** The analysis of [strokeImage] returns one stroke, from one end of the
    line to the last point recorded on it. *)
Lemma strokeImage_analysis :
  analyzeSignatureLocal strokeImage =
    Resolved {| strokes := [tracedLine]; original_size := (20, 1) |}.
Proof.
  unfold analyzeSignatureLocal.
  change ((pWidth strokeImage =? 0) || (pHeight strokeImage =? 0)) with false.
  cbv iota zeta. rewrite strokeImage_mask, strokeImage_walk.
  cbn [rawStrokes seekVisited]. rewrite rawLine_order. by vm_compute.
Qed.

Lemma strokeImage_strokes a :
  analyzeSignatureLocal strokeImage = Resolved a -> strokes a = [tracedLine].
Proof. rewrite strokeImage_analysis. by intros [= <-]. Qed.

(** X12.  On a canvas that has cells the analysis never fails: whatever
    the pixels, it resolves, with the size of the image, and every stroke
    it returns has at least two points. *)
Theorem analysis_always_resolves (img : ImageData) :
  0 < pWidth img -> 0 < pHeight img ->
  exists a,
    analyzeSignatureLocal img = Resolved a /\
    original_size a = (imgWidth img, imgHeight img) /\
    Forall (fun s => (2 <= length (points s))%nat) (strokes a).
Proof.
  intros Hw Hh.
  destruct (analysis_stages img Hw Hh) as (ordered & merged & _ & _ & Ha).
  eexists. split; [exact Ha|]. split; [done|]. cbn [strokes].
  apply Forall_forall. intros out (s & _ & Hs)%list_elem_of_omap.
  by destruct (finalizeStroke_spec _ _ _ _ Hs).
Qed.

Lemma analysis_always_resolves_witness :
  0 < pWidth strokeImage /\ 0 < pHeight strokeImage /\
  exists a,
    analyzeSignatureLocal strokeImage = Resolved a /\
    strokes a = [tracedLine] /\
    original_size a = (imgWidth strokeImage, imgHeight strokeImage) /\
    Forall (fun s => (2 <= length (points s))%nat) (strokes a).
Proof.
  assert (H0 : 0 < pWidth strokeImage) by (simpl; lia).
  assert (H1 : 0 < pHeight strokeImage) by (simpl; lia).
  split; [exact H0|]. split; [exact H1|].
  destruct (analysis_always_resolves strokeImage H0 H1) as (a & Ha & Hsize & Hlen).
  exists a. split; [exact Ha|]. split; [exact (strokeImage_strokes a Ha)|].
  split; [exact Hsize|exact Hlen].
Defined.

Lemma smoothLoop_Forall (P : RawPoint -> Prop) rest :
  (forall prev curr next, P prev -> P curr -> P next -> P (smoothPoint prev curr next)) ->
  forall prev curr, P prev -> P curr -> Forall P rest ->
  Forall P (smoothLoop prev curr rest).
Proof.
  intros Hclosed. induction rest as [|n rest IH]; intros prev curr Hp Hc Hr;
    cbn [smoothLoop].
  - by constructor.
  - apply Forall_cons in Hr as [Hn Hr]. constructor; [by apply Hclosed|by apply IH].
Qed.

Lemma smoothPoints_Forall (P : RawPoint -> Prop) pts :
  (forall prev curr next, P prev -> P curr -> P next -> P (smoothPoint prev curr next)) ->
  Forall P pts -> Forall P (smoothPoints pts).
Proof.
  intros Hclosed H. destruct pts as [|p0 [|p1 [|p2 rest]]]; try done.
  cbn [smoothPoints]. apply Forall_cons in H as [H0 H]. constructor; [done|].
  apply Forall_cons in H as [H1 H]. by apply smoothLoop_Forall.
Qed.

(** A property of points that smoothing preserves and that holds of the
    raw strokes holds of the strokes returned. *)
Lemma analysis_transfers (P : RawPoint -> Prop) img :
  0 < pWidth img -> 0 < pHeight img ->
  (forall prev curr next, P prev -> P curr -> P next -> P (smoothPoint prev curr next)) ->
  Forall (fun s => Forall P (points s))
    (rawStrokes (extractStrokes img
       (despeckleBitmask (thresholdMask img) (pWidth img) (pHeight img) 20))) ->
  exists a,
    analyzeSignatureLocal img = Resolved a /\
    Forall (fun s => Forall P (points s)) (strokes a).
Proof.
  intros Hw Hh Hclosed Hraw.
  destruct (analysis_stages img Hw Hh) as (ordered & merged & Hr & Hc & Ha).
  eexists. split; [exact Ha|]. cbn [strokes].
  assert (Hmerged : Forall (fun s => Forall P (points s)) merged).
  { apply Forall_points_concat. rewrite Hc. apply Forall_points_concat.
    by apply (rearranges_Forall _ _ _ Hr). }
  apply Forall_forall. intros out (s & Hs & Hf)%list_elem_of_omap.
  apply list_elem_of_fmap in Hs as (m & -> & Hm).
  destruct (finalizeStroke_spec _ _ _ _ Hf) as (_ & Hsub & _). cbn [points] in Hsub.
  rewrite Forall_forall in Hmerged. specialize (Hmerged m Hm).
  apply (smoothPoints_Forall P _ Hclosed) in Hmerged.
  apply Forall_forall. intros p Hp. rewrite Forall_forall in Hmerged.
  apply Hmerged. by eapply elem_of_sublist.
Qed.

Lemma length_mask img :
  0 < pWidth img -> 0 < pHeight img ->
  Z.of_nat (length (despeckleBitmask (thresholdMask img) (pWidth img) (pHeight img) 20))
    = pWidth img * pHeight img.
Proof.
  intros Hw Hh.
  assert (Ht : Z.of_nat (length (thresholdMask img)) = pWidth img * pHeight img)
    by (rewrite length_thresholdMask; apply Z2Nat.id, Z.mul_nonneg_nonneg; lia).
  destruct (despeckle_facts (thresholdMask img) (pWidth img) (pHeight img) 20 Hw Ht)
    as ((Hl & _) & _). by rewrite Hl.
Qed.

(** X13.  On a canvas with cells, every point of every stroke the
    analysis returns has both coordinates between 0 and 10000. *)
Theorem analysis_points_on_canvas (img : ImageData) :
  0 < pWidth img -> 0 < pHeight img ->
  exists a,
    analyzeSignatureLocal img = Resolved a /\
    Forall (fun s => Forall (inBox 0 10000) (points s)) (strokes a).
Proof.
  intros Hw Hh. apply analysis_transfers; [done|done| |].
  - intros prev curr next [] [] []. split; by apply smooth3_between.
  - pose proof (length_mask img Hw Hh) as Hlen.
    set (mask := despeckleBitmask _ _ _ _) in *.
    assert (Hle : Z.of_nat (length mask) <= pWidth img * pHeight img) by lia.
    destruct (extract_rawOnCanvas img mask Hw Hh Hle) as (_ & _ & H).
    eapply Forall_impl; [exact H|]. by intros s [_ Hs].
Qed.

Lemma analysis_points_on_canvas_witness :
  0 < pWidth strokeImage /\ 0 < pHeight strokeImage /\
  exists a,
    analyzeSignatureLocal strokeImage = Resolved a /\
    strokes a = [tracedLine] /\
    Forall (fun s => Forall (inBox 0 10000) (points s)) (strokes a).
Proof.
  assert (H0 : 0 < pWidth strokeImage) by (simpl; lia).
  assert (H1 : 0 < pHeight strokeImage) by (simpl; lia).
  split; [exact H0|]. split; [exact H1|].
  destruct (analysis_points_on_canvas strokeImage H0 H1) as (a & Ha & Hbox).
  exists a. split; [exact Ha|]. split; [exact (strokeImage_strokes a Ha)|exact Hbox].
Defined.

(** ** Opacity and thickness *)

Lemma byte_at data i b :
  Forall (fun v => 0 <= v <= 255) data -> rd data i = Some b -> 0 <= b <= 255.
Proof.
  intros H. unfold rd. destruct (i <? 0); [done|]. intros Hb.
  rewrite Forall_lookup in H. by apply (H _ _ Hb).
Qed.

Lemma unit_div_255 (b : Z) : 0 <= b <= 255 -> (0 <= inject_Z b / 255 /\ inject_Z b / 255 <= 1)%Q.
Proof.
  intros [H0 H1]. rewrite Zle_Qle in H0, H1. split.
  - apply Qle_shift_div_l; [done|]. by rewrite Qmult_0_l.
  - apply Qle_shift_div_r; [done|]. by rewrite Qmult_1_l.
Qed.

Lemma luminance_range r g b :
  0 <= r <= 255 -> 0 <= g <= 255 -> 0 <= b <= 255 ->
  (0 <= luminance r g b /\ luminance r g b <= 255)%Q.
Proof.
  intros [Hr Hr'] [Hg Hg'] [Hb Hb']. rewrite Zle_Qle in Hr, Hr', Hg, Hg', Hb, Hb'.
  unfold luminance. change (inject_Z 0) with 0%Q in *.
  change (inject_Z 255) with 255%Q in *. split; qlra.
Qed.

Lemma sampleOpacity_range img cx cy :
  Forall (fun v => 0 <= v <= 255) (data img) ->
  (0 <= sampleOpacity img cx cy /\ sampleOpacity img cx cy <= 1)%Q.
Proof.
  intros Hbytes. unfold sampleOpacity. destruct (_ && _); [|done].
  destruct (rd _ _) as [r|] eqn:Er; [|done].
  destruct (rd _ (_ + 1)) as [g|] eqn:Eg; [|done].
  destruct (rd _ (_ + 2)) as [b|] eqn:Eb; [|done].
  destruct (rd _ (_ + 3)) as [a|] eqn:Ea; [|done].
  apply (byte_at _ _ _ Hbytes) in Er, Eg, Eb, Ea. cbv zeta.
  destruct (unit_div_255 a Ea) as [Ha0 Ha1].
  destruct (luminance_range r g b Er Eg Eb) as [Hl0 Hl1].
  assert (Hd : (1 - luminance r g b / 255 <= 1)%Q).
  { assert (0 <= luminance r g b / 255)%Q
      by (apply Qle_shift_div_l; [done|]; by rewrite Qmult_0_l).
    Lqa.lra. }
  assert (Hm0 : (0 <= Qmax (1 # 10) (1 - luminance r g b / 255))%Q).
  { eapply Qle_trans; [|apply Q.le_max_l]. done. }
  assert (Hm1 : (Qmax (1 # 10) (1 - luminance r g b / 255) <= 1)%Q)
    by (apply Q.max_lub; [done|exact Hd]).
  split; [by apply Qmult_le_0_compat|].
  rewrite <- (Qmult_1_l 1). by apply Qmult_le_compat_nonneg.
Qed.

Lemma toFixed2_range q : (0 <= q)%Q -> (q <= 1)%Q -> (0 <= toFixed2 q /\ toFixed2 q <= 1)%Q.
Proof.
  intros H0 H1. unfold toFixed2.
  assert (Hr : 0 <= round (q * 100) <= 100).
  { apply round_between.
    - change (inject_Z 0) with 0%Q. Lqa.lra.
    - change (inject_Z 100) with 100%Q. Lqa.lra. }
  destruct Hr as [Hr0 Hr1]. rewrite Zle_Qle in Hr0, Hr1. split.
  - apply Qle_shift_div_l; [done|]. by rewrite Qmult_0_l.
  - apply Qle_shift_div_r; [done|]. by rewrite Qmult_1_l.
Qed.

Lemma raycast_range img v cx cy rs :
  Forall (fun r => 1 <= r <= 19) rs -> 1 <= raycast img v cx cy rs <= 19.
Proof.
  induction 1 as [|r rs Hr _ IH]; cbn [raycast]; [lia|]. by destruct (existsb _ _).
Qed.

Lemma radiusAt_range img v cx cy : 1 <= radiusAt img v cx cy <= 19.
Proof.
  unfold radiusAt. apply raycast_range. apply Forall_forall.
  intros r Hr%elem_of_seqZ. lia.
Qed.

Lemma thicknessNorm_mono img r1 r2 :
  0 < pWidth img -> r1 <= r2 -> (thicknessNorm img r1 <= thicknessNorm img r2)%Q.
Proof.
  intros Hw Hr. unfold thicknessNorm.
  apply Qmult_le_compat_r; [|done]. apply Qmult_le_compat_r.
  - rewrite <- Zle_Qle. lia.
  - apply Qinv_le_0_compat. change 0%Q with (inject_Z 0). rewrite <- Zle_Qle. lia.
Qed.

Lemma walkBody_attributes img s :
  Forall (fun v => 0 <= v <= 255) (data img) -> 0 < pWidth img ->
  Forall (attributesOk img) (strokePoints s) ->
  Forall (attributesOk img) (strokePoints (walkBody img s)).
Proof.
  intros Hbytes Hw H. cbn [walkBody strokePoints]. apply Forall_app. split; [done|].
  constructor; [|constructor]. split; cbn [pa pz].
  - eexists. split; [reflexivity|].
    destruct (sampleOpacity_range img (round (currentPos s).1) (round (currentPos s).2) Hbytes).
    by apply toFixed2_range.
  - eexists. split; [reflexivity|].
    pose proof (radiusAt_range img (walkVisited s) (round (currentPos s).1)
                  (round (currentPos s).2)) as [Hr1 Hr2].
    split; by apply thicknessNorm_mono.
Qed.

(** X26.  For an image of bytes on a canvas with columns, every point the
    walker records carries an opacity between 0 and 1 and a thickness
    between those recorded for a radius of 1 and of 19 pixels. *)
Theorem raw_attributes_in_range (img : ImageData) (visited : list Z) :
  Forall (fun v => 0 <= v <= 255) (data img) -> 0 < pWidth img ->
  Forall (fun s => Forall (attributesOk img) (points s))
    (rawStrokes (extractStrokes img visited)).
Proof.
  intros Hbytes Hw. unfold extractStrokes.
  apply (while_inv (fun s => Forall (fun st => Forall (attributesOk img) (points st))
                               (rawStrokes s))); [|constructor].
  intros s Hs _. unfold seekBody. destruct (scan _ _).2 as [i|]; cbn [rawStrokes]; [|done].
  destruct (3 <? length _)%nat; [|done].
  apply Forall_app. split; [done|]. constructor; [|constructor]. cbn [points].
  unfold traceStroke.
  apply (while_inv (fun w => Forall (attributesOk img) (strokePoints w))); [|constructor].
  intros w Hwk _. by apply walkBody_attributes.
Qed.

Lemma strokeImage_bytes : Forall (fun v => 0 <= v <= 255) (data strokeImage).
Proof.
  apply Forall_forall. intros v Hv. cbn [strokeImage data] in Hv.
  apply list_elem_of_bind in Hv as (k & Hv & _).
  repeat (apply elem_of_cons in Hv as [->|Hv]; [lia|]). by apply elem_of_nil in Hv.
Qed.

Lemma raw_attributes_in_range_witness :
  Forall (fun v => 0 <= v <= 255) (data strokeImage) /\ 0 < pWidth strokeImage /\
  rawStrokes (extractStrokes strokeImage lineMask) = [rawLine] /\
  Forall (fun s => Forall (attributesOk strokeImage) (points s))
    (rawStrokes (extractStrokes strokeImage lineMask)).
Proof.
  assert (H0 : 0 < pWidth strokeImage) by (simpl; lia).
  split; [exact strokeImage_bytes|]. split; [exact H0|].
  split; [by rewrite strokeImage_walk|].
  exact (raw_attributes_in_range strokeImage lineMask strokeImage_bytes H0).
Defined.

End AnalysisFacts.

Module PathFacts.
Import Planner PlannerFacts.
Local Open Scope R_scope.

(** ** The point filter *)

Lemma filterLoop_snoc init : forall prev l,
  filterLoop prev (init ++ [l]) =
  filterLoop prev init ++
    (let prev' := List.last (filterLoop prev init) prev in
     if Rgt_dec ((mx l - mx prev') ^ 2 + (my l - my prev') ^ 2) 0.1 then [l] else []).
Proof.
  induction init as [|c init IH]; intros prev l; [done|].
  cbn [app filterLoop]. destruct (Rgt_dec _ _).
  - rewrite IH. cbn [app]. by rewrite last_cons_default.
  - by rewrite IH.
Qed.

Lemma filterLoop_sublist rest : forall prev, filterLoop prev rest `sublist_of` rest.
Proof.
  induction rest as [|c rest IH]; intros prev; [done|]. cbn [filterLoop].
  destruct (Rgt_dec _ _); [by apply sublist_skip|by apply sublist_cons].
Qed.

Lemma filterRedundantPoints_unfold p0 rest :
  rest <> [] ->
  filterRedundantPoints (p0 :: rest) =
    let result := p0 :: filterLoop p0 rest in
    let lastSrc := List.last (p0 :: rest) p0 in
    let lastRes := List.last result p0 in
    if Req_dec_T (mx lastRes) (mx lastSrc) then
      if Req_dec_T (my lastRes) (my lastSrc) then result
      else result ++ [lastSrc]
    else result ++ [lastSrc].
Proof. by destruct rest. Qed.

Lemma last_default_snoc {A} (l : list A) (x d : A) : List.last (l ++ [x]) d = x.
Proof. apply List.last_last. Qed.

Lemma last_Some_default {A} (l : list A) (d : A) : last (d :: l) = Some (List.last (d :: l) d).
Proof. rewrite last_cons_default, last_lookup. simpl. apply last_lookup_default. Qed.

Lemma filterRedundantPoints_spec (pts : list MappedPoint) :
  filterRedundantPoints pts `sublist_of` pts /\
  head (filterRedundantPoints pts) = head pts /\
  xy <$> last (filterRedundantPoints pts) = xy <$> last pts.
Proof.
  destruct pts as [|p0 rest]; [done|].
  destruct (decide (rest = [])) as [->|Hne]; [done|].
  rewrite (filterRedundantPoints_unfold p0 rest Hne).
  destruct (exists_last Hne) as (init & l & ->).
  rewrite filterLoop_snoc. cbv zeta.
  rewrite (app_comm_cons init [l] p0), last_default_snoc.
  pose proof (filterLoop_sublist init p0) as Hsub.
  rewrite last_snoc.
  destruct (Rgt_dec _ _) as [Hkeep|Hdrop].
  - rewrite (app_comm_cons _ [l] p0), last_default_snoc.
    destruct (Req_dec_T _ _); [destruct (Req_dec_T _ _)|]; try done.
    split; [|split; [done|]].
    + apply sublist_skip, sublist_app; [done|reflexivity].
    + first [by rewrite last_snoc | by rewrite app_comm_cons, last_snoc].
  - rewrite app_nil_r.
    assert (Hs : p0 :: filterLoop p0 init `sublist_of` (p0 :: init) ++ [l]).
    { apply sublist_inserts_r. by apply sublist_skip. }
    destruct (Req_dec_T _ _) as [Ex|Nx]; [destruct (Req_dec_T _ _) as [Ey|Ny]|].
    + split; [done|]. split; [done|].
      rewrite last_Some_default. cbn [fmap option_fmap option_map]. unfold xy.
      by rewrite Ex, Ey.
    + split; [|split; [done|by rewrite last_snoc]].
      apply sublist_app; [by apply sublist_skip|reflexivity].
    + split; [|split; [done|by rewrite last_snoc]].
      apply sublist_app; [by apply sublist_skip|reflexivity].
Qed.

(** X16.  The point filter only drops points: what it returns is a
    subsequence of its input that starts with the same point and ends at
    the coordinates of the last input point. *)
Theorem filter_keeps_ends (pts : list MappedPoint) :
  filterRedundantPoints pts `sublist_of` pts /\
  head (filterRedundantPoints pts) = head pts /\
  xy <$> last (filterRedundantPoints pts) = xy <$> last pts.
Proof. apply filterRedundantPoints_spec. Qed.

(** ** Speed modulation *)



(** ** Tremor *)



(** ** Paths and strokes *)

Lemma length_traverse w style rest : forall pp prev t,
  length (traverse w style pp prev rest t).1 = length rest.
Proof.
  induction rest as [|p rest IH]; intros pp prev t; [done|]. cbn [traverse].
  specialize (IH (Some prev) p (jadd t (segmentTime style pp prev p))).
  destruct (traverse _ _ _ _ _ _) as [pts tEnd]. cbn [fst] in *. simpl. by rewrite IH.
Qed.

Lemma planStroke_tracks w h style pre s ss st :
  tracks w h (pre ++ s :: ss) (length pre) st ->
  tracks w h (pre ++ s :: ss) (S (length pre)) (planStroke w h style st (length pre) s).
Proof.
  intros (Hin & Hinc & Hall).
  assert (Hs : (pre ++ s :: ss) !! length pre = Some s) by (by rewrite list_lookup_middle).
  unfold planStroke. destruct (length (points s) <? 2)%nat eqn:E.
  { apply Nat.ltb_lt in E. split; [|split; [done|]].
    - intros p Hp. destruct (Hin p Hp) as [Hlt Hex]. split; [lia|done].
    - intros k s' Hk Hs' Hlen. destruct (decide (k = length pre)) as [->|Hne].
      + rewrite Hs in Hs'. injection Hs' as <-. lia.
      + apply (Hall k s'); [lia|done|done]. }
  apply Nat.ltb_ge in E.
  destruct (processedPoints_cons w h s E) as (p0 & rest & Hpp). rewrite Hpp.
  pose proof (length_traverse w style rest None p0
                (penLift (prevEndPos st) p0 (currentTime st))) as Hlen.
  destruct (traverse _ _ _ _ _ _) as [pts tEnd]. cbn [fst] in Hlen.
  split; [|split]; cbn [paths].
  - intros p [Hp|Hp]%elem_of_app.
    + destruct (Hin p Hp) as [Hlt Hex]. split; [lia|done].
    + apply list_elem_of_singleton in Hp as ->. cbn [id path_points]. split; [lia|].
      exists s. split; [done|]. split; [done|]. rewrite Hpp. simpl. by rewrite Hlen.
  - intros i p q Hp Hq.
    assert (Hi : (S i < length (paths st ++ [ {| id := length pre;
                   path_points := physicsPoint w style p0
                     (penLift (prevEndPos st) p0 (currentTime st)) :: pts;
                   startTime := penLift (prevEndPos st) p0 (currentTime st);
                   endTime := tEnd |} ]))%nat)
      by (eapply lookup_lt_Some; eauto).
    rewrite length_app in Hi. simpl in Hi.
    destruct (decide (S i < length (paths st))%nat) as [Hlt|Hge].
    + rewrite lookup_app_l in Hp by lia. rewrite lookup_app_l in Hq by lia. eauto.
    + rewrite lookup_app_l in Hp by lia. rewrite lookup_app_r in Hq by lia.
      replace (S i - length (paths st))%nat with 0%nat in Hq by lia.
      injection Hq as <-. cbn [id].
      apply (Hin p). by eapply list_elem_of_lookup_2.
  - intros k s' Hk Hs' Hlen'. destruct (decide (k = length pre)) as [->|Hne].
    + eexists. split; [apply elem_of_app; right; by apply list_elem_of_singleton|done].
    + destruct (Hall k s') as (p & Hp & Hid); [lia|done|done|].
      exists p. split; [|done]. apply elem_of_app. by left.
Qed.

Lemma planStrokes_tracks w h style ss : forall pre st,
  tracks w h (pre ++ ss) (length pre) st ->
  tracks w h (pre ++ ss) (length (pre ++ ss)) (planStrokes w h style st (length pre) ss).
Proof.
  induction ss as [|s ss IH]; intros pre st Hst.
  - by rewrite app_nil_r in *.
  - cbn [planStrokes]. specialize (IH (pre ++ [s])).
    rewrite <- app_assoc in IH. cbn [app] in IH. rewrite length_app in IH.
    cbn [length] in IH. rewrite Nat.add_1_r in IH.
    apply IH. by apply planStroke_tracks.
Qed.

Lemma initialState_tracks w h ss : tracks w h ss 0 initialState.
Proof.
  split; [intros p Hp; by apply elem_of_nil in Hp|].
  split; [intros i p q H; destruct i; discriminate|]. intros k s Hk. lia.
Qed.

(** ** Pauses between paths *)









(** ** One path per stroke *)

(** X21.  The plan has exactly one path per stroke of two points or
    more: a path carries the index of its stroke and one point per
    processed point, paths come in the order of their strokes, and no such
    stroke is left out. *)
Theorem paths_follow_strokes (data : SignatureAnalysis) (w h : R)
    (style : option StyleObject) :
  let out := generateMotionPlan w h style data in
  (forall p, p ∈ out ->
     exists s, strokes data !! id p = Some s /\ (2 <= length (points s))%nat /\
       length (path_points p) = length (processedPoints w h s)) /\
  (forall i p q, out !! i = Some p -> out !! S i = Some q -> (id p < id q)%nat) /\
  (forall k s, strokes data !! k = Some s -> (2 <= length (points s))%nat ->
     exists p, p ∈ out /\ id p = k).
Proof.
  intros out.
  destruct (planStrokes_tracks w h style (strokes data) [] initialState
              (initialState_tracks w h _)) as (Hin & Hinc & Hall).
  cbn [app length] in *. fold (generateMotionPlan w h style data) in Hin, Hinc, Hall.
  fold out in Hin, Hinc, Hall.
  split; [|split; [done|]].
  - intros p Hp. by destruct (Hin p Hp) as [_ Hex].
  - intros k s Hs Hlen. apply (Hall k s); [|done|done]. by eapply lookup_lt_Some.
Qed.

End PathFacts.

Module EngineFacts.
Import Planner PlannerFacts Engine.
Local Open Scope R_scope.

(** ** Rescaling *)






Lemma Rgtb_true u v : Rgtb u v = true <-> u > v.
Proof. unfold Rgtb. destruct (Rgt_dec u v); split; try done. Qed.

Lemma Rgtb_false u v : Rgtb u v = false <-> u <= v.
Proof. unfold Rgtb. destruct (Rgt_dec u v); split; try done; lra. Qed.



Lemma zigzag_ok : path_ok zigzag.
Proof.
  exists (at_ 0 0 0), [at_ 10 5 5; at_ 40 10 0], 0, 40.
  repeat split; try done; simpl; try lra.
  exists 10. split; [done|]. split; [lra|]. exists 40. split; [done|]. split; [lra|done].
Qed.

Lemma ordered_one (p : StrokePath) : ordered [p].
Proof. intros [|i] a c Ha Hc; discriminate. Qed.


(** ** Drawing *)

Lemma animate_cons ts elapsed p1 p2 rest :
  animate ts elapsed (p1 :: p2 :: rest) =
  if jgt (time p1) (Fin elapsed) then ([], false, Fin 0)
  else if jgt (time p2) (Fin elapsed) then
    ([segmentTo ts p1
        (jadd (x p1) (jmul (jsub (x p2) (x p1)) (progress elapsed p1 p2)))
        (jadd (y p1) (jmul (jsub (y p2) (y p1)) (progress elapsed p1 p2)))],
     true, segmentSpeed p1 p2)
  else
    let '(segs, m, s) := animate ts elapsed (p2 :: rest) in
    (segmentTo ts p1 (x p2) (y p2) :: segs, m, s).
Proof. reflexivity. Qed.

Lemma staticSegments_cons ts p1 p2 rest :
  staticSegments ts (p1 :: p2 :: rest) =
  segmentTo ts p1 (x p2) (y p2) :: staticSegments ts (p2 :: rest).
Proof. reflexivity. Qed.

Lemma animate_done ts elapsed pts :
  Forall (fun p => jgt (time p) (Fin elapsed) = false) pts ->
  animate ts elapsed pts = (staticSegments ts pts, false, Fin 0).
Proof.
  induction pts as [|p1 pts IH]; intros H; [done|].
  destruct pts as [|p2 rest]; [done|].
  apply Forall_cons in H as [H1 H]. specialize (IH H).
  apply Forall_cons in H as [H2 _].
  rewrite animate_cons, staticSegments_cons, H1, H2, IH. done.
Qed.

Lemma drawPath_done ts path elapsed :
  Forall (fun p => jgt (time p) (Fin elapsed) = false) (path_points path) ->
  drawPath ts path elapsed = drawPath ts path MAX_SAFE_INTEGER.
Proof.
  intros H. unfold drawPath.
  destruct (length (path_points path) <? 2)%nat; [done|].
  assert (Hmax : Rgeb MAX_SAFE_INTEGER MAX_SAFE_INTEGER = true).
  { unfold Rgeb. destruct (Rge_dec _ _); [done|lra]. }
  rewrite Hmax. destruct (Rgeb elapsed MAX_SAFE_INTEGER); [done|].
  rewrite (animate_done ts elapsed _ H). cbn [jmul]. f_equal. f_equal. lra.
Qed.

(** X23.  Once the clock has passed every point of a path, the animated
    render of the path is its static render: every segment is drawn in
    full, and the path is reported as not moving. *)
Theorem finished_path_is_static (ts : R) (path : StrokePath) (elapsed : R) :
  Forall (fun p => jgt (time p) (Fin elapsed) = false) (path_points path) ->
  drawPath ts path elapsed = drawPath ts path MAX_SAFE_INTEGER /\
  moving (drawPath ts path elapsed) = false.
Proof.
  intros H. rewrite (drawPath_done ts path elapsed H). split; [done|].
  unfold drawPath. destruct (_ <? _)%nat; [done|].
  unfold Rgeb. destruct (Rge_dec _ _); [done|lra].
Qed.

Lemma jgt_at t px py e : t <= e -> jgt (time (at_ t px py)) (Fin e) = false.
Proof. intros H. simpl. by apply Rgtb_false. Qed.

Lemma finished_path_is_static_witness :
  Forall (fun p => jgt (time p) (Fin 40) = false) (path_points zigzag) /\
  drawPath 1 zigzag 40 = drawPath 1 zigzag MAX_SAFE_INTEGER /\
  moving (drawPath 1 zigzag 40) = false.
Proof.
  assert (H : Forall (fun p => jgt (time p) (Fin 40) = false) (path_points zigzag))
    by (repeat constructor; apply jgt_at; lra).
  split; [exact H|]. exact (finished_path_is_static 1 zigzag 40 H).
Defined.

(** ** The tip of the stroke *)

Lemma progress_range elapsed p1 p2 t1 t2 :
  time p1 = Fin t1 -> time p2 = Fin t2 -> t1 <= elapsed -> elapsed < t2 ->
  exists k, progress elapsed p1 p2 = Fin k /\ 0 <= k <= 1.
Proof.
  intros H1 H2 Hle Hlt. unfold progress. rewrite H1, H2. cbn [jsub jgt].
  destruct (Rgtb (t2 - t1) 0.001) eqn:E; [|exists 1; split; [done|lra]].
  apply Rgtb_true in E. cbn [jdiv]. eexists. split; [reflexivity|].
  assert (Hd : 0 < t2 - t1) by lra. split.
  - apply Rmult_le_pos; [lra|]. left. by apply Rinv_0_lt_compat.
  - apply (Rmult_le_reg_r (t2 - t1)); [done|]. unfold Rdiv.
    rewrite Rmult_assoc, Rinv_l by lra. lra.
Qed.

Lemma animate_towards ts elapsed pts : forall lo p0 t0,
  time p0 = Fin t0 -> chain lo pts ->
  forall s, s ∈ (animate ts elapsed (p0 :: pts)).1.1 ->
  exists i p1 p2, (p0 :: pts) !! i = Some p1 /\ (p0 :: pts) !! S i = Some p2 /\
    towards p1 p2 s.
Proof.
  induction pts as [|p pts IH]; intros lo p0 t0 H0 Hch s Hs.
  - by apply elem_of_nil in Hs.
  - destruct Hch as (t & Ht & _ & Hch). rewrite animate_cons, H0, Ht in Hs.
    cbn [jgt] in Hs.
    destruct (Rgtb t0 elapsed) eqn:E0; [by apply elem_of_nil in Hs|].
    apply Rgtb_false in E0.
    destruct (Rgtb t elapsed) eqn:E1.
    + apply Rgtb_true in E1. cbn [fst] in Hs. apply list_elem_of_singleton in Hs as ->.
      exists 0%nat, p0, p. split; [done|]. split; [done|].
      destruct (progress_range elapsed p0 p t0 t H0 Ht E0 E1) as (k & -> & Hk).
      split; [done|]. split; [done|]. right. exists k. by split.
    + specialize (IH t p t Ht Hch).
      destruct (animate ts elapsed (p :: pts)) as [[segs m] sp]. cbn [fst] in *.
      apply elem_of_cons in Hs as [->|Hs].
      * exists 0%nat, p0, p. split; [done|]. split; [done|].
        split; [done|]. split; [done|]. by left.
      * destruct (IH s Hs) as (i & p1 & p2 & Hp1 & Hp2 & Htw).
        by exists (S i), p1, p2.
Qed.

Lemma static_towards ts pts : forall s,
  s ∈ staticSegments ts pts ->
  exists i p1 p2, pts !! i = Some p1 /\ pts !! S i = Some p2 /\ towards p1 p2 s.
Proof.
  induction pts as [|p0 pts IH]; intros s Hs; [by apply elem_of_nil in Hs|].
  destruct pts as [|p rest]; [by apply elem_of_nil in Hs|].
  rewrite staticSegments_cons in Hs. apply elem_of_cons in Hs as [->|Hs].
  - exists 0%nat, p0, p. split; [done|]. split; [done|].
    split; [done|]. split; [done|]. by left.
  - destruct (IH s Hs) as (i & p1 & p2 & Hp1 & Hp2 & Htw). by exists (S i), p1, p2.
Qed.

(** X24.  On a well-timed path the pen never runs ahead: every line a
    frame strokes starts at a point of the path and runs towards the next
    point, stopping at it or before it. *)
Theorem tip_on_segment (ts : R) (path : StrokePath) (elapsed : R) (s : Segment) :
  path_ok path -> s ∈ segments (drawPath ts path elapsed) ->
  exists i p1 p2, path_points path !! i = Some p1 /\ path_points path !! S i = Some p2 /\
    towards p1 p2 s.
Proof.
  intros (p0 & pts & t0 & tE & Hpts & H0 & _ & Hch & _) Hs. unfold drawPath in Hs.
  destruct (_ <? _)%nat; [by apply elem_of_nil in Hs|].
  destruct (Rgeb elapsed MAX_SAFE_INTEGER).
  - by apply (static_towards ts).
  - rewrite Hpts in *.
    pose proof (animate_towards ts elapsed pts t0 p0 t0 H0 Hch s) as Ha.
    destruct (animate ts elapsed (p0 :: pts)) as [[segs m] sp]. cbn [fst segments] in *.
    by apply Ha.
Qed.

Lemma Rgeb_false u v : u < v -> Rgeb u v = false.
Proof. intros H. unfold Rgeb. destruct (Rge_dec u v); [lra|done]. Qed.

Lemma Rgeb_true u v : v <= u -> Rgeb u v = true.
Proof. intros H. unfold Rgeb. destruct (Rge_dec u v); [done|lra]. Qed.

Lemma zigzag_tip : exists s, s ∈ segments (drawPath 1 zigzag 5).
Proof.
  unfold drawPath. cbn [zigzag path_points length Nat.ltb Nat.leb].
  rewrite Rgeb_false by (unfold MAX_SAFE_INTEGER; lra).
  rewrite animate_cons. cbn [at_ time jgt].
  assert (Rgtb 0 5 = false) as -> by (apply Rgtb_false; lra).
  assert (Rgtb 10 5 = true) as -> by (apply Rgtb_true; lra).
  eexists. cbn [segments]. apply list_elem_of_singleton. reflexivity.
Qed.

Lemma tip_on_segment_witness :
  path_ok zigzag /\
  exists s, s ∈ segments (drawPath 1 zigzag 5) /\
    exists i p1 p2, path_points zigzag !! i = Some p1 /\
      path_points zigzag !! S i = Some p2 /\ towards p1 p2 s.
Proof.
  split; [exact zigzag_ok|]. destruct zigzag_tip as [s Hs].
  exists s. split; [exact Hs|]. exact (tip_on_segment 1 zigzag 5 s zigzag_ok Hs).
Defined.

(** ** The last frame *)

Lemma chain_before e pts : forall lo p0 tE,
  chain lo pts -> time p0 = Fin lo -> time (List.last pts p0) = Fin tE -> tE <= e ->
  Forall (fun q => jgt (time q) (Fin e) = false) (p0 :: pts) /\ lo <= tE.
Proof.
  induction pts as [|p pts IH]; intros lo p0 tE Hch H0 Hl He.
  - cbn [List.last] in Hl. rewrite H0 in Hl. injection Hl as <-.
    split; [|lra]. constructor; [|constructor]. rewrite H0. by apply Rgtb_false.
  - destruct Hch as (t & Ht & Hle & Hch). rewrite last_cons_default in Hl.
    destruct (IH t p tE Hch Ht Hl He) as [Hall Hle'].
    split; [|lra]. constructor; [|done]. rewrite H0. apply Rgtb_false. lra.
Qed.

Lemma path_before e p :
  path_ok p -> jle (endTime p) (Fin e) -> finishedBy e p.
Proof.
  intros (p0 & pts & t0 & tE & Hpts & H0 & Hs & Hch & He & Hl & Hle) Hend.
  rewrite He in Hend. cbn [jle] in Hend.
  destruct (chain_before e pts t0 p0 tE Hch H0 Hl Hend) as [Hall _].
  exists t0, tE. rewrite Hpts. repeat split; try done.
Qed.

Lemma paths_before e paths :
  Forall path_ok paths -> ordered paths ->
  (forall l, last paths = Some l -> jle (endTime l) (Fin e)) ->
  Forall (finishedBy e) paths.
Proof.
  induction paths as [|p paths IH]; intros Hok Hord Hlast; [constructor|].
  apply Forall_cons in Hok as [Hp Hok].
  assert (Hrest : Forall (finishedBy e) paths).
  { apply IH; [done| |].
    - intros i a c Ha Hc. by apply (Hord (S i)).
    - intros l Hl. apply Hlast. rewrite last_cons, Hl. done. }
  constructor; [|done]. apply path_before; [done|].
  destruct paths as [|q paths]; [by apply Hlast|].
  apply Forall_cons in Hrest as [(t0 & tE & Hs & He & Hle & Hend & _) _].
  pose proof (Hord 0%nat p q eq_refl eq_refl) as Hpq. rewrite Hs in Hpq.
  destruct (endTime p) as [te|]; [|done]. cbn [jle] in *. lra.
Qed.

Lemma drawPath_static_still ts path : moving (drawPath ts path MAX_SAFE_INTEGER) = false.
Proof.
  unfold drawPath. destruct (_ <? _)%nat; [done|]. by rewrite Rgeb_true by lra.
Qed.

Lemma frame_done ts e paths : forall segs,
  Forall (finishedBy e) paths ->
  fold_left (frameStep ts e) paths (segs, false, Fin 0) =
    (segs ++ staticFrame ts paths, false, Fin 0).
Proof.
  induction paths as [|p paths IH]; intros segs H.
  - unfold staticFrame. simpl. by rewrite app_nil_r.
  - apply Forall_cons in H as [(t0 & tE & Hs & He & Hle & Hend & Hpts) H].
    cbn [fold_left frameStep]. rewrite Hs. cbn [jge]. rewrite Rgeb_true by lra.
    rewrite (drawPath_done ts p e Hpts), drawPath_static_still, (IH _ H).
    unfold staticFrame. rewrite fmap_cons. cbn [concat]. by rewrite app_assoc.
Qed.

(** X25.  When the clock has reached the end of the last path of a
    well-timed plan, the frame shows the whole signature: it strokes
    exactly the lines of the static render, and the pen is reported at
    rest. *)
Theorem animation_completes (ts e : R) (paths : list StrokePath) :
  Forall path_ok paths -> ordered paths ->
  (forall l, last paths = Some l -> jle (endTime l) (Fin e)) ->
  frame ts e paths = (staticFrame ts paths, false, Fin 0).
Proof.
  intros Hok Hord Hlast. unfold frame.
  by rewrite (frame_done ts e paths [] (paths_before e paths Hok Hord Hlast)).
Qed.

Lemma animation_completes_witness :
  Forall path_ok [zigzag] /\ ordered [zigzag] /\
  (forall l, last [zigzag] = Some l -> jle (endTime l) (Fin 40)) /\
  frame 1 40 [zigzag] = (staticFrame 1 [zigzag], false, Fin 0).
Proof.
  assert (H1 : Forall path_ok [zigzag]) by (repeat constructor; apply zigzag_ok).
  assert (H2 : ordered [zigzag]) by apply ordered_one.
  assert (H3 : forall l, last [zigzag] = Some l -> jle (endTime l) (Fin 40)).
  { intros l [= <-]. simpl. lra. }
  split; [exact H1|]. split; [exact H2|]. split; [exact H3|].
  exact (animation_completes 1 40 [zigzag] H1 H2 H3).
Defined.

End EngineFacts.

Module SheetFacts.
Import Planner PlannerFacts PathFacts Tracer.
Local Open Scope R_scope.









End SheetFacts.

Module PlaybackFacts.
Import Planner PlannerFacts PathFacts Engine EngineFacts Tracer StrokeFacts AnalysisFacts
  SheetFacts.
Local Open Scope R_scope.

(** ** From the image to the plan *)





(** ** From the plan to the last frame *)





End PlaybackFacts.
